(** * Multimodal RAG: query understanding, decomposition, multi-step
      retrieval, fusion and synthesis

    A shallow embedding of the retrieval core of the repository
    ([multimodal_rag/retrieval/*.py]) together with the properties its
    specification states about it.

    Conventions of the embedding.
    - A Python [str] is the list of its Unicode code points ([list N]);
      literals are written in UTF-8 and decoded by [u8].
    - A Python [float] is modelled by its value, a rational ([Q]), and
      every arithmetic operation on floats rounds its exact result to the
      nearest number with 53 significant bits, ties to the even one
      ([Float.round]), as IEEE 754 binary64 does.  The range of the
      exponent is not limited: overflow to infinity, NaN, the sign of zero
      and the loss of precision below 2^-1022 are outside the model.  The
      transcendental [math.log] and the embedding model of the reranker
      are parameters.
    - A result [dict] is a record whose fields are the keys the code reads
      or writes; an absent key is [None] and [d.get(k, v)] is [default v].
    - [dict]s and [set]s of the code are stdpp's [gmap] and [gset].
    - The generative-text collaborator is an oracle: a function from the
      prompt to the outcome of the call.
    - Unbounded recursion carries fuel and returns [None] when it runs
      out; the theorems show that the fuel the model supplies is enough.
      CPython's own recursion limit is not modelled. *)

From Stdlib Require Import ZArith QArith Qround Qpower Lia Lqa Permutation Sorted.
From Stdlib Require Import Ascii.
From stdpp Require Import gmap list strings pretty.

Open Scope Z_scope.

(* stdpp's [set_solver] clears hypotheses by name, present or not. *)
#[local] Set Warnings "-clear-no-such-hyp".

(* ===================================================================== *)
(** * Part I: the model                                                   *)
(* ===================================================================== *)

(* --------------------------------------------------------------------- *)
(** ** Python built-ins                                                   *)
(* --------------------------------------------------------------------- *)

(** A Python string: the sequence of its code points. *)
Definition str : Type := list N.

(** Decoding of a UTF-8 byte sequence, one byte at a time: [need] is the
    number of continuation bytes still expected, [acc] the bits read. *)
Fixpoint utf8_decode (bs : list N) (need : nat) (acc : N) : str :=
  match bs with
  | [] => []
  | b :: bs' =>
    match need with
    | O =>
      if (b <? 128)%N then b :: utf8_decode bs' 0 0%N
      else if (b <? 224)%N then utf8_decode bs' 1 (b - 192)%N
      else if (b <? 240)%N then utf8_decode bs' 2 (b - 224)%N
      else utf8_decode bs' 3 (b - 240)%N
    | S O => (acc * 64 + (b - 128))%N :: utf8_decode bs' 0 0%N
    | S n => utf8_decode bs' n (acc * 64 + (b - 128))%N
    end
  end.

Fixpoint bytes_of (s : string) : list N :=
  match s with
  | EmptyString => []
  | String a s' => Ascii.N_of_ascii a :: bytes_of s'
  end.

(** The literal [u8 "..."] is the Python string written between the quotes. *)
Definition u8 (s : string) : str := utf8_decode (bytes_of s) 0 0%N.

(** [len(s)] *)
Definition len {A} (l : list A) : Z := Z.of_nat (length l).

Fixpoint startswith (p s : str) : bool :=
  match p, s with
  | [], _ => true
  | _ :: _, [] => false
  | a :: p', b :: s' => (a =? b)%N && startswith p' s'
  end.

(** [sub in s] *)
Fixpoint contains (sub s : str) : bool :=
  startswith sub s ||
  match s with
  | [] => false
  | _ :: s' => contains sub s'
  end.

(** [s.count(c)] for a one-character string [c]. *)
Fixpoint count_char (c : N) (s : str) : Z :=
  match s with
  | [] => 0
  | a :: s' => (if (a =? c)%N then 1 else 0) + count_char c s'
  end.

(** [c.isspace()]: the code points Python 3 treats as white space. *)
Definition isspace (c : N) : bool :=
  ((9 <=? c) && (c <=? 13) || (28 <=? c) && (c <=? 32) ||
   (c =? 133) || (c =? 160) || (c =? 5760) ||
   (8192 <=? c) && (c <=? 8202) || (c =? 8232) || (c =? 8233) ||
   (c =? 8239) || (c =? 8287) || (c =? 12288))%N.

(** [s.split()]: the maximal runs of non-space characters; [cur] is the
    run being read. *)
Fixpoint split_go (s cur : str) : list str :=
  match s with
  | [] => match cur with [] => [] | _ => [cur] end
  | c :: s' =>
    if isspace c
    then match cur with [] => split_go s' [] | _ => cur :: split_go s' [] end
    else split_go s' (cur ++ [c])
  end.

Definition split (s : str) : list str := split_go s [].

Fixpoint lstrip (s : str) : str :=
  match s with
  | [] => []
  | c :: s' => if isspace c then lstrip s' else s
  end.

(** [s.strip()] *)
Definition strip (s : str) : str := rev (lstrip (rev (lstrip s))).

(** [l[:k]], for lists and strings; a negative [k] counts from the end. *)
Definition slice_to {A} (k : Z) (l : list A) : list A :=
  if 0 <=? k then take (Z.to_nat k) l else take (Z.to_nat (len l + k)) l.

(** [sep.join(l)] *)
Fixpoint join (sep : str) (l : list str) : str :=
  match l with
  | [] => []
  | [s] => s
  | s :: l' => s ++ sep ++ join sep l'
  end.

(** [s.split(c)] for a one-character separator [c]; [cur] is the piece
    being read. *)
Fixpoint split_on_go (c : N) (s cur : str) : list str :=
  match s with
  | [] => [cur]
  | a :: s' =>
    if (a =? c)%N then cur :: split_on_go c s' [] else split_on_go c s' (cur ++ [a])
  end.

Definition split_on (c : N) (s : str) : list str := split_on_go c s [].

(** [s.rfind(sub)] for a non-empty [sub], where [s] starts at index [i]
    of the whole string: the highest index of an occurrence, or [-1]. *)
Fixpoint rfind_from (sub s : str) (i : Z) : Z :=
  match s with
  | [] => -1
  | _ :: s' =>
    let r := rfind_from sub s' (i + 1) in
    if 0 <=? r then r else if startswith sub s then i else -1
  end.

Definition rfind (sub s : str) : Z := rfind_from sub s 0.

(** [str(n)] for an integer [n]. *)
Definition str_of_int (n : Z) : str := bytes_of (pretty n).

(** [a < b] on floats. *)
Definition Qltb (a b : Q) : bool := negb (Qle_bool b a).

(** [min(a, b)] on floats: [b] when [b < a], else [a]. *)
Definition fmin (a b : Q) : Q := if Qltb b a then b else a.

(** Rounding to the nearest integer, ties to the even one. *)
Definition round_half_even (x : Q) : Z :=
  let f := Qfloor x in
  let r := (x - inject_Z f)%Q in
  if Qltb r (1 # 2) then f
  else if Qltb (1 # 2) r then f + 1
  else if Z.even f then f else f + 1.

(** Floating-point arithmetic: binary64 with an unbounded exponent. *)
Module Float.

(** [2 ** e] *)
Definition pow2 (e : Z) : Q := (2 ^ e)%Q.

(** The exponent of a positive number [a]: [2^e <= a < 2^(e+1)]. *)
Definition ilog2 (a : Q) : Z :=
  let e := Z.log2 (Qnum a) - Z.log2 (Z.pos (Qden a)) in
  if Qle_bool (pow2 e) a then e else e - 1.

(** The nearest number with 53 significant bits to a positive number: a
    multiple of the unit in the last place, [2^(e-52)]. *)
Definition round_pos (a : Q) : Q :=
  let ulp := pow2 (ilog2 a - 52) in
  (inject_Z (round_half_even (a / ulp)) * ulp)%Q.

(** Rounding to nearest, ties to even; the result is in lowest terms. *)
Definition round (x : Q) : Q :=
  match Qnum x with
  | Z0 => 0%Q
  | Zpos _ => Qred (round_pos x)
  | Zneg _ => Qred (- round_pos (- x))
  end.

(** A decimal literal of the source, such as [0.7]. *)
Definition lit (x : Q) : Q := round x.

(** [float(n)]: the conversion an [int] undergoes when it meets a float. *)
Definition of_int (n : Z) : Q := round (inject_Z n).

(** [a + b], [a - b], [a * b] and [a / b] on floats. *)
Definition add (a b : Q) : Q := round (a + b).
Definition sub (a b : Q) : Q := round (a - b).
Definition mul (a b : Q) : Q := round (a * b).
Definition div (a b : Q) : Q := round (a / b).

(** [m / n] on two [int]s: the quotient, rounded once. *)
Definition div_int (m n : Z) : Q := round (inject_Z m / inject_Z n).

End Float.

(** [format(x, '.1f')]: one digit after the point, the exact value of the
    float rounded to the nearest tenth, ties to the even digit. *)
Definition format_1f (x : Q) : str :=
  let t := round_half_even (x * 10) in
  (if Qltb x 0 then u8 "-" else []) ++
  str_of_int (Z.abs t / 10) ++ u8 "." ++ str_of_int (Z.abs t mod 10).

(** [any(w in s for w in ws)] *)
Definition any_in (ws : list str) (s : str) : bool :=
  existsb (fun w => contains w s) ws.

(** Exceptions ([Exception] and its subclasses) the modelled code can meet. *)
Inductive exn : Type :=
| IndexError
| RetrieverError (msg : str)
| LLMError (msg : str).

(** The outcome of a call that may raise. *)
Inductive result (A : Type) : Type :=
| Ok (a : A)
| Raise (e : exn).
Arguments Ok {A} a.
Arguments Raise {A} e.

(** [l[i]]: a negative index counts from the end, and an index outside
    [-len(l) .. len(l)-1] raises [IndexError]. *)
Definition getitem {A} (l : list A) (i : Z) : result A :=
  let j := if 0 <=? i then i else len l + i in
  if 0 <=? j
  then match l !! Z.to_nat j with Some a => Ok a | None => Raise IndexError end
  else Raise IndexError.

(** [range(n)] *)
Definition range (n : Z) : list Z := seqZ 0 n.

(** [enumerate(l)] *)
Definition enumerate {A} (l : list A) : list (Z * A) := zip (range (len l)) l.

(** A [for] loop whose body may run out of fuel. *)
Fixpoint for_each {A S} (body : A -> S -> option S) (l : list A) (st : S) : option S :=
  match l with
  | [] => Some st
  | a :: l' =>
    match body a st with
    | None => None
    | Some st' => for_each body l' st'
    end
  end.

(* --------------------------------------------------------------------- *)
(** ** Stable sorting                                                     *)
(* --------------------------------------------------------------------- *)

(** [sorted] and [list.sort] are stable.  [before y x] says that [y] must
    come strictly before [x]: [key y < key x] for an ascending sort,
    [key x < key y] for [reverse=True].  An element is inserted in front
    of the sorted remainder of the list, after the elements that must
    strictly precede it: equal keys keep their order. *)
Section StableSort.
Context {A : Type} (before : A -> A -> bool).

Fixpoint insert_stable (x : A) (l : list A) : list A :=
  match l with
  | [] => [x]
  | y :: l' => if before y x then y :: insert_stable x l' else x :: l
  end.

Definition stable_sort (l : list A) : list A := foldr insert_stable [] l.

End StableSort.

(** [sorted(l, key=key)] for integer keys. *)
Definition sorted_by_key {A} (key : A -> Z) (l : list A) : list A :=
  stable_sort (fun y x => key y <? key x) l.

(** [l.sort(key=key, reverse=True)] for float keys. *)
Definition sort_reverse_by {A} (key : A -> Q) (l : list A) : list A :=
  stable_sort (fun y x => Qltb (key x) (key y)) l.

(* --------------------------------------------------------------------- *)
(** ** Data structures ([query_structures.py])                            *)
(* --------------------------------------------------------------------- *)

Module QueryIntent.
Record t : Type := mk {
  intent_type : str;
  complexity_score : Q;
  key_concepts : list str;
  question_type : str;
  requires_decomposition : bool;
  reasoning : str
}.
End QueryIntent.

Module SubQuery.
(** [depends_on] defaults to [None], [context_needed] to [False]. *)
Record t : Type := mk {
  query : str;
  intent : str;
  priority : Z;
  depends_on : option (list Z);
  context_needed : bool
}.
End SubQuery.

Module DecompositionResult.
Record t : Type := mk {
  original_query : str;
  intent : QueryIntent.t;
  sub_queries : list SubQuery.t;
  execution_plan : list Z
}.
End DecompositionResult.

(** A retrieved chunk: the [dict] the retriever, the reranker, the
    executor and the synthesizer pass around.  The chunker numbers pages
    from 1 ([page_idx + 1]) and chunks from 0. *)
Module Chunk.
Record t : Type := mk {
  content : option str;
  chunk_type : option str;
  score : option Q;
  priority_score : option Q;
  content_category : option str;
  page_num : option positive;
  chunk_index : option N;
  retrieval_method : option str;
  combined_score : option Q;
  rerank_score : option Q;
  semantic_score : option Q;
  keyword_score : option Q;
  content_type_score : option Q;
  position_score : option Q
}.

(** [result['combined_score'] = v] *)
Definition set_combined_score (v : Q) (r : t) : t :=
  mk (content r) (chunk_type r) (score r) (priority_score r) (content_category r)
     (page_num r) (chunk_index r) (retrieval_method r)
     (Some v) (rerank_score r) (semantic_score r) (keyword_score r)
     (content_type_score r) (position_score r).

(** The five assignments of [Reranker.rerank]. *)
Definition set_rerank_scores (rerank semantic keyword ctype position : Q) (r : t) : t :=
  mk (content r) (chunk_type r) (score r) (priority_score r) (content_category r)
     (page_num r) (chunk_index r) (retrieval_method r)
     (combined_score r) (Some rerank) (Some semantic) (Some keyword)
     (Some ctype) (Some position).
End Chunk.

(* --------------------------------------------------------------------- *)
(** ** The decomposer ([intelligent_query_decomposer.py])                 *)
(* --------------------------------------------------------------------- *)

Module IntelligentQueryDecomposer.

(** The keys of [self.config] the code reads. *)
Record Config : Type := mkConfig {
  decomposition_threshold : Q;
  max_sub_queries : Z
}.

Definition default_config : Config :=
  {| decomposition_threshold := 6.0; max_sub_queries := 5 |}.

(** The language model as the decomposer sees it.  [analyze_reply q] is
    the [QueryIntent] built from the JSON object of the reply to the
    intent prompt for [q], and [decompose_reply q intent] the list of
    [SubQuery] built from the reply to the decomposition prompt; [None]
    when the call raises, the last message is not the assistant's, the
    reply holds no JSON object, or parsing it raises.  The replies are
    well typed: every [priority] is an integer and every [depends_on] is
    absent or a list of integers.  The code copies these two fields from
    the JSON unchecked; a reply that gives them another type ([null], a
    string) is outside the model. *)
Record LLM : Type := mkLLM {
  analyze_reply : str -> option QueryIntent.t;
  decompose_reply : str -> QueryIntent.t -> option (list SubQuery.t)
}.

Section Intent.
Variable config : Config.

Definition complex_keywords : list str :=
  [u8 "比较"; u8 "对比"; u8 "分析"; u8 "评估"; u8 "总结"; u8 "归纳";
   u8 "如何"; u8 "为什么"; u8 "原因"; u8 "影响"; u8 "关系"].

Definition connectors : list str :=
  [u8 "和"; u8 "与"; u8 "以及"; u8 "同时"; u8 "另外"; u8 "此外";
   u8 "而且"; u8 "并且"].

(** [for w in words: if w in query: score += bonus] *)
Definition add_for_each_present (words : list str) (bonus : Q) (query : str) (score : Q) : Q :=
  foldl (fun s w => if contains w query then Float.add s bonus else s) score words.

(** The score of [_rule_based_intent_analysis] before it is capped. *)
Definition raw_complexity_score (query : str) : Q :=
  let complexity_score := 0.0%Q in
  let complexity_score :=
    Float.add complexity_score (fmin (Float.div_int (len query) 50) 3.0) in
  let complexity_score := add_for_each_present complex_keywords 1.5 query complexity_score in
  let complexity_score := add_for_each_present connectors 1.0 query complexity_score in
  Float.add complexity_score
    (Float.add (Float.mul (Float.of_int (count_char 63 query)) 0.5)
               (Float.mul (Float.of_int (count_char 65311 query)) 0.5)).

Definition _rule_based_intent_analysis (query : str) : QueryIntent.t :=
  let complexity_score := raw_complexity_score query in
  let intent_type :=
    if any_in [u8 "比较"; u8 "对比"; u8 "区别"] query then u8 "comparative"
    else if any_in [u8 "和"; u8 "与"; u8 "以及"] query && Qltb 5 complexity_score
    then u8 "multi_aspect"
    else if Qltb 6 complexity_score then u8 "complex"
    else u8 "simple" in
  let question_type :=
    if any_in [u8 "如何"; u8 "怎么"; u8 "步骤"; u8 "方法"] query then u8 "procedural"
    else if any_in [u8 "为什么"; u8 "原因"; u8 "分析"; u8 "评估"] query then u8 "analytical"
    else if any_in [u8 "比较"; u8 "对比"; u8 "区别"] query then u8 "comparative"
    else u8 "factual" in
  let key_concepts :=
    filter
      (fun word =>
         2 < len word /\
         word ∉ [u8 "如何"; u8 "为什么"; u8 "什么"; u8 "哪些"; u8 "怎么"])
      (split query) in
  QueryIntent.mk
    intent_type
    (fmin complexity_score 10.0)
    (slice_to 5 key_concepts)
    question_type
    (Qle_bool (decomposition_threshold config) complexity_score)
    (u8 "基于规则分析，复杂度评分: " ++ format_1f complexity_score).

End Intent.

(** The closure variables of [_generate_execution_plan]. *)
Record PlanState : Type := mkPlanState {
  execution_plan : list Z;
  visited : gset Z;
  temp_visited : gset Z
}.

(** [sq.depends_on or []] *)
Definition deps_of (sq : SubQuery.t) : list Z :=
  match SubQuery.depends_on sq with
  | None => []
  | Some l => l
  end.

(** [dependency_graph[i] = sq.depends_on or []] for [i, sq] in
    [enumerate(sub_queries)]. *)
Definition build_dependency_graph (sub_queries : list SubQuery.t) : gmap Z (list Z) :=
  foldl (fun g '(i, sq) => <[i := deps_of sq]> g) ∅ (enumerate sub_queries).

Section Planner.
Variable sub_queries : list SubQuery.t.

Let dependency_graph := build_dependency_graph sub_queries.

(** The inner function [dfs(node)].  [None]: out of fuel. *)
Fixpoint dfs (fuel : nat) (node : Z) (st : PlanState) {struct fuel} : option PlanState :=
  match fuel with
  | O => None
  | S fuel' =>
    if decide (node ∈ temp_visited st) then Some st
    else if decide (node ∈ visited st) then Some st
    else
      let st1 := mkPlanState (execution_plan st) (visited st) ({[node]} ∪ temp_visited st) in
      match
        for_each
          (fun dep s => if dep <? len sub_queries then dfs fuel' dep s else Some s)
          (default [] (dependency_graph !! node)) st1
      with
      | None => None
      | Some st2 =>
        Some (mkPlanState (execution_plan st2 ++ [node])
                          ({[node]} ∪ visited st2)
                          (temp_visited st2 ∖ {[node]}))
      end
  end.

(** A traversal holds at most every sub-query and one more node on its
    stack. *)
Definition dfs_fuel : nat := S (S (length sub_queries)).

Definition _generate_execution_plan : option (list Z) :=
  match sub_queries with
  | [] => Some []
  | _ =>
    let nodes_by_priority :=
      sorted_by_key
        (fun x => match getitem sub_queries x with
                  | Ok sq => SubQuery.priority sq
                  | Raise _ => 0
                  end)
        (range (len sub_queries)) in
    execution_plan <$>
      for_each
        (fun node st => if decide (node ∈ visited st) then Some st else dfs dfs_fuel node st)
        nodes_by_priority
        (mkPlanState [] ∅ ∅)
  end.

End Planner.

(** [SubQuery(query=..., intent=..., priority=...)] with the defaults of
    the dataclass. *)
Definition SubQuery_default (query intent : str) (priority : Z) : SubQuery.t :=
  SubQuery.mk query intent priority None false.

Definition _decompose_comparative_query (query : str) (intent : QueryIntent.t) : list SubQuery.t :=
  let concepts := QueryIntent.key_concepts intent in
  if 2 <=? len concepts then
    let sub_queries :=
      map (fun concept =>
             SubQuery_default (concept ++ u8 "的特点和属性")
                              (u8 "了解" ++ concept ++ u8 "的基本信息") 1)
          (slice_to 2 concepts) in
    match concepts with
    | c0 :: c1 :: _ =>
      sub_queries ++
      [SubQuery.mk (c0 ++ u8 "和" ++ c1 ++ u8 "的比较分析")
                   (u8 "比较分析两者的差异") 2 (Some [0; 1]) true]
    | _ => sub_queries
    end
  else [].

Definition _decompose_multi_aspect_query (query : str) (intent : QueryIntent.t) : list SubQuery.t :=
  let sub_queries :=
    map (fun concept =>
           SubQuery_default (concept ++ u8 "的详细信息和相关内容")
                            (u8 "了解" ++ concept ++ u8 "的具体情况") 1)
        (slice_to 3 (QueryIntent.key_concepts intent)) in
  if 1 <? len (QueryIntent.key_concepts intent) then
    let concepts_str := join (u8 "、") (slice_to 3 (QueryIntent.key_concepts intent)) in
    sub_queries ++
    [SubQuery.mk (concepts_str ++ u8 "之间的关系和综合分析")
                 (u8 "综合分析各方面的关系") 2
                 (Some (range (len sub_queries))) true]
  else sub_queries.

Definition _decompose_complex_query (query : str) (intent : QueryIntent.t) : list SubQuery.t :=
  if decide (QueryIntent.question_type intent = u8 "procedural") then
    [SubQuery_default
       (match QueryIntent.key_concepts intent with c :: _ => c | [] => [] end
        ++ u8 "的基本概念和定义")
       (u8 "了解基本概念") 1;
     SubQuery.mk (query ++ u8 "的具体步骤和方法") (u8 "获取具体操作步骤") 2 (Some [0]) true]
  else if decide (QueryIntent.question_type intent = u8 "analytical") then
    match QueryIntent.key_concepts intent with
    | main_concept :: _ =>
      [SubQuery_default (main_concept ++ u8 "的基本情况和背景") (u8 "了解背景信息") 1;
       SubQuery.mk (main_concept ++ u8 "的影响因素和原因分析") (u8 "分析影响因素") 2
                   (Some [0]) true]
    | [] => []
    end
  else
    map (fun concept =>
           SubQuery_default (concept ++ u8 "的详细信息") (u8 "了解" ++ concept) 1)
        (slice_to 2 (QueryIntent.key_concepts intent)).

Definition _rule_based_decomposition (query : str) (intent : QueryIntent.t) : list SubQuery.t :=
  if decide (QueryIntent.intent_type intent = u8 "comparative") then
    _decompose_comparative_query query intent
  else if decide (QueryIntent.intent_type intent = u8 "multi_aspect") then
    _decompose_multi_aspect_query query intent
  else if decide (QueryIntent.intent_type intent = u8 "complex") then
    _decompose_complex_query query intent
  else [SubQuery_default query (u8 "simple") 1].

Section Decomposer.
Variable llm : option LLM.
Variable config : Config.

Definition _analyze_query_intent (query : str) : QueryIntent.t :=
  match llm with
  | None => _rule_based_intent_analysis config query
  | Some m =>
    match analyze_reply m query with
    | Some intent => intent
    | None => _rule_based_intent_analysis config query
    end
  end.

Definition _decompose_query (query : str) (intent : QueryIntent.t) : list SubQuery.t :=
  match llm with
  | None => _rule_based_decomposition query intent
  | Some m =>
    match decompose_reply m query intent with
    | Some sub_queries => slice_to (max_sub_queries config) sub_queries
    | None => _rule_based_decomposition query intent
    end
  end.

(** [None]: the planner ran out of fuel. *)
Definition analyze_and_decompose (query : str) : option DecompositionResult.t :=
  let intent := _analyze_query_intent query in
  if negb (QueryIntent.requires_decomposition intent) then
    Some (DecompositionResult.mk query intent [SubQuery_default query (u8 "simple") 1] [0])
  else
    let sub_queries := _decompose_query query intent in
    match _generate_execution_plan sub_queries with
    | None => None
    | Some execution_plan =>
      Some (DecompositionResult.mk query intent sub_queries execution_plan)
    end.

End Decomposer.

End IntelligentQueryDecomposer.

(* --------------------------------------------------------------------- *)
(** ** The hybrid retriever's merge step ([hybrid_retriever.py])          *)
(* --------------------------------------------------------------------- *)

Module HybridRetriever.

Section Merge.
(** Python's built-in [hash] on strings. *)
Variable hash : str -> Z.

(** The combined score the first loop of [_merge_results] computes. *)
Definition combined_score_of (result : Chunk.t) : Q :=
  let retrieval_score := default 0%Q (Chunk.score result) in
  let priority_score := default 0.5%Q (Chunk.priority_score result) in
  let content_category := default (u8 "other") (Chunk.content_category result) in
  let priority_score :=
    if decide (content_category = u8 "references")
    then Float.mul priority_score (Float.lit 0.3) else priority_score in
  Float.mul retrieval_score
    (Float.add (Float.lit 0.7) (Float.mul (Float.lit 0.3) priority_score)).

(** The second loop: [seen_content] and [merged_results]. *)
Definition dedup_step (st : gset Z * list Chunk.t) (result : Chunk.t) : gset Z * list Chunk.t :=
  let content := default [] (Chunk.content result) in
  let content_hash := hash content in
  if decide (content_hash ∈ st.1)
  then st
  else ({[content_hash]} ∪ st.1, st.2 ++ [result]).

Definition _merge_results (results : list Chunk.t) : list Chunk.t :=
  let results :=
    map (fun result => Chunk.set_combined_score (combined_score_of result) result) results in
  let results :=
    sort_reverse_by (fun x => default 0%Q (Chunk.combined_score x)) results in
  (foldl dedup_step (∅, []) results).2.

End Merge.

End HybridRetriever.

(* --------------------------------------------------------------------- *)
(** ** The reranker ([reranker.py])                                       *)
(* --------------------------------------------------------------------- *)

Module Reranker.

(** [self.weights] *)
Definition w_semantic_similarity : Q := Float.lit 0.4.
Definition w_keyword_match : Q := Float.lit 0.3.
Definition w_content_type : Q := Float.lit 0.2.
Definition w_position_score : Q := Float.lit 0.1.

(** [self.content_type_weights.get(content_type, 0.5)] *)
Definition content_type_weights_get (content_type : str) : Q :=
  if decide (content_type = u8 "text") then 1.0
  else if decide (content_type = u8 "table") then Float.lit 0.9
  else if decide (content_type = u8 "image") then Float.lit 0.8
  else 0.5.

Definition _calculate_content_type_scores (results : list Chunk.t) : list Q :=
  map (fun result =>
         let content_type := default (u8 "text") (Chunk.chunk_type result) in
         content_type_weights_get content_type)
      results.

Section Rerank.
(** The sentence-embedding model: [rerank_model q c] is the cosine
    similarity of the embeddings of [q] and [c], [None] when encoding
    raises; the model itself is [None] when it could not be loaded. *)
Variable rerank_model : option (str -> str -> option Q).
(** [math.log] on page numbers. *)
Variable ln : positive -> Q.
(** The helpers of the keyword score: regular-expression tokenisation,
    and bonuses that use [str.find], [str.count] and [math.log]. *)
Variable _extract_keywords : str -> list str.
Variable _calculate_keyword_position_bonus : list str -> str -> Q.
Variable _calculate_keyword_frequency_bonus : list str -> str -> Q.

Definition original_scores (results : list Chunk.t) : list Q :=
  map (fun result => default 0.0%Q (Chunk.score result)) results.

Definition _calculate_semantic_scores (query : str) (results : list Chunk.t) : list Q :=
  match rerank_model with
  | None => original_scores results
  | Some model =>
    match mapM (fun result => model query (default [] (Chunk.content result))) results with
    | Some similarities => similarities
    | None => original_scores results
    end
  end.

Definition keyword_score_of (query_keywords : list str) (content : str) : Q :=
  let content_keywords := _extract_keywords content in
  let score :=
    match query_keywords with
    | [] => 0.0%Q
    | _ =>
      let overlap : gset str := list_to_set query_keywords ∩ list_to_set content_keywords in
      Float.div_int (Z.of_nat (size overlap)) (len query_keywords)
    end in
  let position_bonus := _calculate_keyword_position_bonus query_keywords content in
  let frequency_bonus := _calculate_keyword_frequency_bonus query_keywords content in
  let final_score :=
    Float.add (Float.add score (Float.mul position_bonus (Float.lit 0.2)))
              (Float.mul frequency_bonus (Float.lit 0.1)) in
  fmin final_score 1.0.

Definition _calculate_keyword_scores (query : str) (results : list Chunk.t) : list Q :=
  let query_keywords := _extract_keywords query in
  map (fun result => keyword_score_of query_keywords (default [] (Chunk.content result)))
      results.

Definition position_score_of (result : Chunk.t) : Q :=
  let page_num := default 1%positive (Chunk.page_num result) in
  let chunk_index := default 0%N (Chunk.chunk_index result) in
  let page_score := Float.div 1.0 (Float.add 1 (ln page_num)) in
  let chunk_score :=
    Float.div 1.0
      (Float.add 1 (Float.mul (Float.of_int (Z.of_N chunk_index)) (Float.lit 0.1))) in
  Float.div (Float.add page_score chunk_score) 2.

Definition _calculate_position_scores (results : list Chunk.t) : list Q :=
  map position_score_of results.

(** [scores[i]] *)
Definition at_index (scores : list Q) (i : nat) : Q := default 0%Q (scores !! i).

Definition rerank (query : str) (results : list Chunk.t) : list Chunk.t :=
  match results with
  | [] => results
  | _ =>
    let semantic_scores := _calculate_semantic_scores query results in
    let keyword_scores := _calculate_keyword_scores query results in
    let content_type_scores := _calculate_content_type_scores results in
    let position_scores := _calculate_position_scores results in
    let results :=
      imap (fun i result =>
              let combined_score :=
                Float.add
                  (Float.add
                     (Float.add
                        (Float.mul (at_index semantic_scores i) w_semantic_similarity)
                        (Float.mul (at_index keyword_scores i) w_keyword_match))
                     (Float.mul (at_index content_type_scores i) w_content_type))
                  (Float.mul (at_index position_scores i) w_position_score) in
              Chunk.set_rerank_scores combined_score
                (at_index semantic_scores i) (at_index keyword_scores i)
                (at_index content_type_scores i) (at_index position_scores i) result)
           results in
    sort_reverse_by (fun x => default 0%Q (Chunk.rerank_score x)) results
  end.

End Rerank.

End Reranker.

(* --------------------------------------------------------------------- *)
(** ** The multi-step executor ([multi_step_query_executor.py])           *)
(* --------------------------------------------------------------------- *)

(** [try: body  except Exception as e: handler(e)] *)
Definition try_except {A} (body : result A) (handler : exn -> result A) : result A :=
  match body with
  | Ok a => Ok a
  | Raise e => handler e
  end.

(** Sequencing of statements that may raise. *)
Definition bind {A B} (m : result A) (k : A -> result B) : result B :=
  match m with
  | Ok a => k a
  | Raise e => Raise e
  end.

Module MultiStepQueryExecutor.

Record Config : Type := mkConfig {
  max_context_length : Z;
  enable_result_fusion : bool
}.

Definition default_config : Config :=
  {| max_context_length := 1000; enable_result_fusion := true |}.

(** A value of [self.execution_context]. *)
Record ContextEntry : Type := mkEntry {
  entry_query : str;
  entry_results : list Chunk.t;
  entry_step : Z
}.

Section Executor.
(** The retriever: a state (its indexes, the backends behind it) and
    [retrieve], which returns the hits or raises. *)
Variable Retriever : Type.
Variable retrieve : Retriever -> str -> Retriever * result (list Chunk.t).
Variable config : Config.

(** [self] during one call of [execute_decomposed_query]. *)
Record State : Type := mkState {
  retriever : Retriever;
  execution_context : gmap Z ContextEntry;
  accumulated_results : list Chunk.t
}.

Definition _build_query_context (execution_context : gmap Z ContextEntry)
    (sub_query : SubQuery.t) (query_idx : Z) : str :=
  let query := SubQuery.query sub_query in
  match SubQuery.context_needed sub_query, SubQuery.depends_on sub_query with
  | true, Some (d :: ds) =>
    let context_parts :=
      flat_map
        (fun dep_idx =>
           match execution_context !! dep_idx with
           | Some dep_context =>
             flat_map
               (fun result =>
                  match Chunk.content result with
                  | Some content => [u8 "相关信息: " ++ slice_to 200 content]
                  | None => []
                  end)
               (slice_to 2 (entry_results dep_context))
           | None => []
           end)
        (d :: ds) in
    match context_parts with
    | [] => query
    | _ =>
      let context := join (u8 " ") context_parts in
      let context :=
        if max_context_length config <? len context
        then slice_to (max_context_length config) context ++ u8 "..."
        else context in
      context ++ [10; 10]%N ++ u8 "基于以上信息，" ++ query
    end
  | _, _ => query
  end.

(** The first loop of [_fuse_results]: [seen_contents] and
    [unique_results]. *)
Definition fuse_step (st : gset str * list Chunk.t) (result : Chunk.t) : gset str * list Chunk.t :=
  let content := default [] (Chunk.content result) in
  let content_fingerprint := slice_to 100 content in
  if decide (content_fingerprint ∈ st.1)
  then st
  else ({[content_fingerprint]} ∪ st.1, st.2 ++ [result]).

Definition _fuse_results (results : list Chunk.t) : list Chunk.t :=
  if negb (enable_result_fusion config) then results
  else
    let unique_results := (foldl fuse_step (∅, []) results).2 in
    sort_reverse_by (fun x => default 0%Q (Chunk.score x)) unique_results.

(** One iteration of the loop over [enumerate(decomposition.execution_plan)]. *)
Definition execute_step (decomposition : DecompositionResult.t)
    (st : State) (step_query_idx : Z * Z) : result State :=
  let '(step, query_idx) := step_query_idx in
  let sub_queries := DecompositionResult.sub_queries decomposition in
  if len sub_queries <=? query_idx then Ok st
  else
    bind (getitem sub_queries query_idx) (fun sub_query =>
    let query_with_context :=
      _build_query_context (execution_context st) sub_query query_idx in
    let '(retriever', outcome) := retrieve (retriever st) query_with_context in
    try_except
      (bind outcome (fun results =>
       Ok (mkState retriever'
             (<[query_idx := mkEntry (SubQuery.query sub_query) results step]>
                (execution_context st))
             (accumulated_results st ++ results))))
      (fun e => Ok (mkState retriever' (execution_context st) (accumulated_results st)))).

Fixpoint execute_steps (decomposition : DecompositionResult.t)
    (steps : list (Z * Z)) (st : State) : result State :=
  match steps with
  | [] => Ok st
  | s :: steps' =>
    bind (execute_step decomposition st s) (execute_steps decomposition steps')
  end.

(** Returns the state the call leaves in [self] and the fused results. *)
Definition execute_decomposed_query (r : Retriever) (decomposition : DecompositionResult.t)
    : result (State * list Chunk.t) :=
  let st := mkState r ∅ [] in
  bind (execute_steps decomposition
          (enumerate (DecompositionResult.execution_plan decomposition)) st)
       (fun st' => Ok (st', _fuse_results (accumulated_results st'))).

End Executor.

Arguments mkState {Retriever}.
Arguments retriever {Retriever}.
Arguments execution_context {Retriever}.
Arguments accumulated_results {Retriever}.

End MultiStepQueryExecutor.

(* --------------------------------------------------------------------- *)
(** ** The result synthesizer ([result_synthesizer.py])                   *)
(* --------------------------------------------------------------------- *)

Module ResultSynthesizer.

Record Config : Type := mkConfig {
  max_synthesis_length : Z;
  synthesis_style : str
}.

Definition default_config : Config :=
  {| max_synthesis_length := 2000; synthesis_style := u8 "comprehensive" |}.

(** What [for response in self.llm.chat(messages)] leaves behind: the call
    raises, nothing is produced, or a last message with its role (is it
    the assistant's?) and content. *)
Inductive ChatOutcome : Type :=
| ChatRaises (e : exn)
| ChatSilent
| ChatReply (assistant : bool) (content : str).

Definition sorry_nothing_found : str := u8 "抱歉，没有找到相关信息。".
Definition sorry_cannot_answer : str := u8 "抱歉，没有找到相关信息来回答您的问题。".

Definition _extract_key_content (results : list Chunk.t) : str :=
  match results with
  | [] => u8 "未找到相关信息"
  | _ =>
    let contents :=
      flat_map
        (fun result =>
           match default [] (Chunk.content result) with
           | [] => []
           | content =>
             match strip (slice_to 200 content) with
             | [] => []
             | content => [content]
             end
           end)
        (slice_to 2 results) in
    match contents with
    | [] => u8 "未找到相关信息"
    | _ => join (u8 "；") contents
    end
  end.

Definition _rule_generate_simple_answer (results : list Chunk.t) : str :=
  let contents :=
    flat_map
      (fun result =>
         match strip (default [] (Chunk.content result)) with
         | [] => []
         | content =>
           if 500 <? len content then
             let truncated := slice_to 500 content in
             let last_period := rfind (u8 "。") truncated in
             let last_dot := rfind (u8 ". ") truncated in
             let cut_pos := Z.max last_period last_dot in
             if 300 <? cut_pos then [slice_to (cut_pos + 1) content]
             else [slice_to 500 content ++ u8 "..."]
           else [content]
         end)
      (slice_to 3 results) in
  match contents with
  | [] => sorry_nothing_found
  | _ => join [10; 10]%N contents
  end.

Section Synthesizer.
(** [self.llm] *)
Variable llm : option (str -> ChatOutcome).
Variable config : Config.
(** [_llm_generate_simple_answer]: the direct answer the language model
    writes from a non-empty result list (with its image-query branch); it
    catches every exception itself and always returns a string. *)
Variable _llm_generate_simple_answer : str -> list Chunk.t -> str.

(** The loop of [_post_process_answer]: [cleaned_lines] and [prev_empty]. *)
Definition clean_step (st : list str * bool) (line : str) : list str * bool :=
  match strip line with
  | [] => if negb st.2 then (st.1 ++ [[]], true) else st
  | line => (st.1 ++ [line], false)
  end.

Definition _post_process_answer (answer : str) : str :=
  let lines := split_on 10 answer in
  let cleaned_lines := (foldl clean_step ([], false) lines).1 in
  let result := join [10]%N cleaned_lines in
  if max_synthesis_length config <? len result
  then slice_to (max_synthesis_length config) result ++ u8 "..."
  else result.

(** The body of the loop of [_build_synthesis_prompt] for one plan entry. *)
Definition prompt_step (decomposition : DecompositionResult.t)
    (sub_results : gmap Z (list Chunk.t)) (i_query_idx : Z * Z) : result (list str) :=
  let '(i, query_idx) := i_query_idx in
  let sub_queries := DecompositionResult.sub_queries decomposition in
  match sub_results !! query_idx with
  | Some results =>
    if query_idx <? len sub_queries then
      bind (getitem sub_queries query_idx) (fun sub_query =>
      Ok ([[];
           u8 "子查询 " ++ str_of_int (i + 1) ++ u8 "：" ++ SubQuery.query sub_query;
           u8 "目的：" ++ SubQuery.intent sub_query] ++
          match results with
          | [] => [u8 "相关信息：未找到相关内容"]
          | _ =>
            u8 "相关信息：" ::
            flat_map
              (fun '(j, result) =>
                 match slice_to 300 (default [] (Chunk.content result)) with
                 | [] => []
                 | content => [u8 "  " ++ str_of_int (j + 1) ++ u8 ". " ++ content]
                 end)
              (enumerate (slice_to 3 results))
          end))
    else Ok []
  | None => Ok []
  end.

Fixpoint prompt_steps (decomposition : DecompositionResult.t)
    (sub_results : gmap Z (list Chunk.t)) (steps : list (Z * Z)) : result (list str) :=
  match steps with
  | [] => Ok []
  | s :: steps' =>
    bind (prompt_step decomposition sub_results s) (fun lines =>
    bind (prompt_steps decomposition sub_results steps') (fun rest =>
    Ok (lines ++ rest)))
  end.

Definition style_instructions_get (style : str) : str :=
  if decide (style = u8 "comprehensive") then u8 "请提供详细、全面的答案，涵盖所有相关方面。"
  else if decide (style = u8 "concise") then u8 "请提供简洁、要点明确的答案。"
  else if decide (style = u8 "structured") then u8 "请提供结构化的答案，使用清晰的段落和要点。"
  else u8 "请提供详细、全面的答案，涵盖所有相关方面。".

Definition _build_synthesis_prompt (original_query : str)
    (decomposition : DecompositionResult.t) (sub_results : gmap Z (list Chunk.t))
    : result str :=
  bind (prompt_steps decomposition sub_results
          (enumerate (DecompositionResult.execution_plan decomposition)))
       (fun body =>
  let prompt_parts :=
    [u8 "请基于以下多个子查询的结果，为原始问题提供一个完整、连贯的答案。";
     [];
     u8 "原始问题：" ++ original_query;
     [];
     u8 "查询分解和结果："] ++
    body ++
    [[];
     u8 "汇总要求：";
     u8 "1. " ++ style_instructions_get (synthesis_style config);
     u8 "2. 确保答案逻辑连贯，各部分之间有清晰的关联";
     u8 "3. 避免重复信息，整合相似内容";
     u8 "4. 如果某些子查询没有找到相关信息，请在答案中说明";
     u8 "5. 保持客观、准确，基于提供的信息回答";
     [];
     u8 "请生成完整的答案："] in
  Ok (join [10]%N prompt_parts)).

(** One iteration of the first loop of [_synthesize_comparative_results]. *)
Definition comparative_step (decomposition : DecompositionResult.t)
    (sub_results : gmap Z (list Chunk.t)) (query_idx : Z) : result (list str) :=
  match sub_results !! query_idx with
  | Some results =>
    bind (getitem (DecompositionResult.sub_queries decomposition) query_idx)
         (fun sub_query =>
    match results with
    | [] => Ok []
    | _ =>
      Ok [u8 "关于" ++ SubQuery.intent sub_query ++ u8 "：" ++ _extract_key_content results]
    end)
  | None => Ok []
  end.

(** A loop that extends [parts] by what each iteration appends. *)
Fixpoint collect_parts {A} (body : A -> result (list str)) (l : list A) : result (list str) :=
  match l with
  | [] => Ok []
  | a :: l' =>
    bind (body a) (fun parts =>
    bind (collect_parts body l') (fun rest => Ok (parts ++ rest)))
  end.

Definition _synthesize_comparative_results (decomposition : DecompositionResult.t)
    (sub_results : gmap Z (list Chunk.t)) : result (list str) :=
  let execution_plan := DecompositionResult.execution_plan decomposition in
  bind (collect_parts (comparative_step decomposition sub_results)
          (slice_to (-1) execution_plan))
       (fun parts =>
  match last execution_plan with
  | Some last_idx =>
    match sub_results !! last_idx with
    | Some (r :: rs) => Ok (parts ++ [u8 "比较分析：" ++ _extract_key_content (r :: rs)])
    | _ => Ok parts
    end
  | None => Ok parts
  end).

Definition multi_aspect_step (decomposition : DecompositionResult.t)
    (sub_results : gmap Z (list Chunk.t)) (query_idx : Z) : result (list str) :=
  let sub_queries := DecompositionResult.sub_queries decomposition in
  match sub_results !! query_idx with
  | Some results =>
    if query_idx <? len sub_queries then
      bind (getitem sub_queries query_idx) (fun sub_query =>
      match results with
      | [] => Ok []
      | _ => Ok [SubQuery.intent sub_query ++ u8 "：" ++ _extract_key_content results]
      end)
    else Ok []
  | None => Ok []
  end.

Definition _synthesize_multi_aspect_results (decomposition : DecompositionResult.t)
    (sub_results : gmap Z (list Chunk.t)) : result (list str) :=
  collect_parts (multi_aspect_step decomposition sub_results)
    (DecompositionResult.execution_plan decomposition).

Definition general_step (sub_results : gmap Z (list Chunk.t)) (query_idx : Z)
    : result (list str) :=
  match sub_results !! query_idx with
  | Some (r :: rs) => Ok [_extract_key_content (r :: rs)]
  | _ => Ok []
  end.

Definition _synthesize_general_results (decomposition : DecompositionResult.t)
    (sub_results : gmap Z (list Chunk.t)) : result (list str) :=
  collect_parts (general_step sub_results)
    (DecompositionResult.execution_plan decomposition).

Definition _rule_based_synthesize (original_query : str)
    (decomposition : DecompositionResult.t) (sub_results : gmap Z (list Chunk.t))
    : result str :=
  let intent_type := QueryIntent.intent_type (DecompositionResult.intent decomposition) in
  bind
    (if decide (intent_type = u8 "comparative")
     then _synthesize_comparative_results decomposition sub_results
     else if decide (intent_type = u8 "multi_aspect")
     then _synthesize_multi_aspect_results decomposition sub_results
     else _synthesize_general_results decomposition sub_results)
    (fun answer_parts =>
  match answer_parts with
  | [] => Ok sorry_cannot_answer
  | _ => Ok (join [10; 10]%N answer_parts)
  end).

(** [Some answer]: the [return answer] inside the [try]; [None]: the
    function falls through to the rule-based synthesis. *)
Definition llm_synthesize_try (model : str -> ChatOutcome) (original_query : str)
    (decomposition : DecompositionResult.t) (sub_results : gmap Z (list Chunk.t))
    : result (option str) :=
  try_except
    (bind (_build_synthesis_prompt original_query decomposition sub_results)
          (fun prompt =>
     match model prompt with
     | ChatRaises e => Raise e
     | ChatSilent => Ok None
     | ChatReply true content => Ok (Some (_post_process_answer (strip content)))
     | ChatReply false _ => Ok None
     end))
    (fun e => Ok None).

Definition _llm_synthesize (model : str -> ChatOutcome) (original_query : str)
    (decomposition : DecompositionResult.t) (sub_results : gmap Z (list Chunk.t))
    : result str :=
  bind (llm_synthesize_try model original_query decomposition sub_results)
       (fun returned =>
  match returned with
  | Some answer => Ok answer
  | None => _rule_based_synthesize original_query decomposition sub_results
  end).

Definition _generate_simple_answer (query : str) (results : list Chunk.t) : str :=
  match results with
  | [] => sorry_nothing_found
  | _ =>
    match llm with
    | Some _ => _llm_generate_simple_answer query results
    | None => _rule_generate_simple_answer results
    end
  end.

Definition synthesize_results (original_query : str)
    (decomposition : DecompositionResult.t) (sub_results : gmap Z (list Chunk.t))
    : result str :=
  match map_to_list sub_results with
  | [] => Ok sorry_nothing_found
  | [(_, results)] => Ok (_generate_simple_answer original_query results)
  | _ =>
    match llm with
    | Some model => _llm_synthesize model original_query decomposition sub_results
    | None => _rule_based_synthesize original_query decomposition sub_results
    end
  end.

End Synthesizer.

End ResultSynthesizer.

(* --------------------------------------------------------------------- *)
(** ** The vocabulary of the properties                                   *)
(* --------------------------------------------------------------------- *)

#[global] Instance Qeq_decision (a b : Q) : Decision (a == b)%Q := Qeq_dec a b.

Module SortSpec.

Section Ranks.
Context {A : Type} (before : A -> A -> bool).

(** [x] may stand in front of [y]: [y] need not come strictly first. *)
Definition in_order (x y : A) : Prop := before y x = false.

(** [x] and [y] have the same rank: neither must precede the other. *)
Definition same_rank (x y : A) : Prop := before x y = false /\ before y x = false.

#[global] Instance same_rank_dec (x y : A) : Decision (same_rank x y).
Proof. unfold same_rank. apply _. Defined.

End Ranks.

Section Keys.
Context {A : Type} (key : A -> Q).

(** Descending order of the keys. *)
Definition descending (x y : A) : Prop := (key y <= key x)%Q.

End Keys.

End SortSpec.

Module PlanSpec.

(** [a] stands before [b] in [l]. *)
Definition before_in (l : list Z) (a b : Z) : Prop :=
  exists l1 l2 l3, l = l1 ++ a :: l2 ++ b :: l3.

Section Vocabulary.
Import IntelligentQueryDecomposer.
Variable sub_queries : list SubQuery.t.

(** The indices of the sub-queries. *)
Definition valid_nodes : gset Z := list_to_set (range (len sub_queries)).

(** The sub-queries that are not on the traversal stack. *)
Definition off_stack (st : PlanState) : nat :=
  size (valid_nodes ∖ temp_visited st).

(** [st'] is [st] after some nodes were emitted: the stack is the same,
    and the new nodes are distinct, were not emitted before and were not
    on the stack. *)
Definition extends (st st' : PlanState) : Prop :=
  temp_visited st' = temp_visited st /\
  exists new,
    execution_plan st' = execution_plan st ++ new /\
    visited st' = list_to_set new ∪ visited st /\
    NoDup new /\
    forall x, x ∈ new -> (x ∉ visited st) /\ (x ∉ temp_visited st).

(** The plan holds what has been emitted, once each. *)
Definition plan_ok (st : PlanState) : Prop :=
  NoDup (execution_plan st) /\ visited st = list_to_set (execution_plan st).

(** [i] depends on [j], as the planner reads it: [i] is a sub-query and
    [j], one of its [depends_on], passes the test [dep < len(sub_queries)]. *)
Definition edge (i j : Z) : Prop :=
  0 <= i /\
  exists sq, sub_queries !! Z.to_nat i = Some sq /\ j ∈ deps_of sq /\ j < len sub_queries.

(** [j] is reached from [i] along dependencies. *)
Definition reach : Z -> Z -> Prop := rtc edge.

(** Every emitted node comes after each of its dependencies, unless the
    dependency depends on it in turn (a cycle). *)
Definition closed (st : PlanState) : Prop :=
  forall i j, i ∈ execution_plan st -> edge i j ->
    before_in (execution_plan st) j i \/ reach j i.

(** The nodes on the stack lead to [node]. *)
Definition stack_reaches (st : PlanState) (node : Z) : Prop :=
  forall t, t ∈ temp_visited st -> reach t node.

(** No [depends_on] holds a negative index. *)
Definition nonneg_deps : Prop :=
  forall sq d, sq ∈ sub_queries -> d ∈ deps_of sq -> 0 <= d.

(** Every emitted node is the index of a sub-query. *)
Definition in_range (st : PlanState) : Prop :=
  forall x, x ∈ execution_plan st -> 0 <= x < len sub_queries.

End Vocabulary.

End PlanSpec.

(** How many of [words] occur in [query]. *)
Definition count_present (words : list str) (query : str) : Z :=
  len (filter (fun w => contains w query = true) words).

(** [score += bonus], [n] times over. *)
Definition add_times (n : nat) (bonus score : Q) : Q :=
  Nat.iter n (fun s => Float.add s bonus) score.

(** [result.get('content', '')] *)
Definition content_of (r : Chunk.t) : str := default [] (Chunk.content r).

(** The key of the merge step's sort: [x.get('combined_score', 0)]. *)
Definition combined_key (r : Chunk.t) : Q := default 0%Q (Chunk.combined_score r).

(** What the first loop of the merge step leaves in a result. *)
Definition with_combined_score (r : Chunk.t) : Chunk.t :=
  Chunk.set_combined_score (HybridRetriever.combined_score_of r) r.

Module MergeSpec.

Section Vocabulary.
Variable hash : str -> Z.

(** The key of the deduplication: the hash of the content. *)
Definition content_key (r : Chunk.t) : Z := hash (content_of r).

(** The results the second loop keeps, given the keys seen so far. *)
Fixpoint dedup_from (seen : gset Z) (l : list Chunk.t) : list Chunk.t :=
  match l with
  | [] => []
  | r :: l' =>
    if decide (content_key r ∈ seen) then dedup_from seen l'
    else r :: dedup_from ({[content_key r]} ∪ seen) l'
  end.

End Vocabulary.

End MergeSpec.

(** A chunk without the five scores the reranker attaches. *)
Definition without_rerank_scores (r : Chunk.t) : Chunk.t :=
  Chunk.mk (Chunk.content r) (Chunk.chunk_type r) (Chunk.score r)
    (Chunk.priority_score r) (Chunk.content_category r) (Chunk.page_num r)
    (Chunk.chunk_index r) (Chunk.retrieval_method r) (Chunk.combined_score r)
    None None None None None.

(** The key of the reranker's sort. *)
Definition rerank_key (r : Chunk.t) : Q := default 0%Q (Chunk.rerank_score r).

(** Does the embedding model encode every candidate? *)
Definition model_encodes (model : str -> str -> option Q) (query : str)
    (results : list Chunk.t) : Prop :=
  Forall (fun r => is_Some (model query (default [] (Chunk.content r)))) results.

(** The content-type sub-score of one candidate. *)
Definition content_type_score_of (r : Chunk.t) : Q :=
  Reranker.content_type_weights_get (default (u8 "text") (Chunk.chunk_type r)).

Module RerankSpec.

Section Vocabulary.
Import Reranker.
Variable rerank_model : option (str -> str -> option Q).
Variable ln : positive -> Q.
Variable _extract_keywords : str -> list str.
Variable _calculate_keyword_position_bonus : list str -> str -> Q.
Variable _calculate_keyword_frequency_bonus : list str -> str -> Q.

(** The semantic sub-score of one candidate of [results]. *)
Definition semantic_score_of (query : str) (results : list Chunk.t) (r : Chunk.t) : Q :=
  match rerank_model with
  | None => default 0.0%Q (Chunk.score r)
  | Some model =>
    if decide (model_encodes model query results)
    then default 0%Q (model query (default [] (Chunk.content r)))
    else default 0.0%Q (Chunk.score r)
  end.

(** The keyword sub-score of one candidate. *)
Definition keyword_sub_score (query : str) (r : Chunk.t) : Q :=
  keyword_score_of _extract_keywords _calculate_keyword_position_bonus
    _calculate_keyword_frequency_bonus
    (_extract_keywords query) (default [] (Chunk.content r)).

(** The weighted sum of the four sub-scores. *)
Definition weighted_score (query : str) (results : list Chunk.t) (r : Chunk.t) : Q :=
  Float.add
    (Float.add
       (Float.add (Float.mul (semantic_score_of query results r) (Float.lit 0.4))
                  (Float.mul (keyword_sub_score query r) (Float.lit 0.3)))
       (Float.mul (content_type_score_of r) (Float.lit 0.2)))
    (Float.mul (position_score_of ln r) (Float.lit 0.1)).

(** A candidate of [results] with its scores attached. *)
Definition scored (query : str) (results : list Chunk.t) (r : Chunk.t) : Chunk.t :=
  Chunk.set_rerank_scores (weighted_score query results r)
    (semantic_score_of query results r) (keyword_sub_score query r)
    (content_type_score_of r) (position_score_of ln r) r.

End Vocabulary.

End RerankSpec.

(** Every index of the plan can be used on the list of sub-queries. *)
Definition plan_indexable (decomposition : DecompositionResult.t) : Prop :=
  forall query_idx,
    query_idx ∈ DecompositionResult.execution_plan decomposition ->
    - len (DecompositionResult.sub_queries decomposition) <= query_idx.

(** The empty corpus: no step has a hit. *)
Definition all_empty (sub_results : gmap Z (list Chunk.t)) : Prop :=
  forall k results, sub_results !! k = Some results -> results = [].

(** The keys of [sub_results] are indices the executor has used on the
    list of sub-queries. *)
Definition keys_index (decomposition : DecompositionResult.t)
    (sub_results : gmap Z (list Chunk.t)) : Prop :=
  forall k, is_Some (sub_results !! k) ->
    - len (DecompositionResult.sub_queries decomposition) <= k
      < len (DecompositionResult.sub_queries decomposition).

(** Two sub-queries, both executed, neither with a hit. *)
Definition two_step_decomposition : DecompositionResult.t :=
  DecompositionResult.mk (u8 "Q")
    (QueryIntent.mk (u8 "multi_aspect") 7.0 [u8 "alpha"; u8 "beta"] (u8 "factual") true [])
    [SubQuery.mk (u8 "alpha") (u8 "a") 1 None false;
     SubQuery.mk (u8 "beta") (u8 "b") 1 None false]
    [0; 1].

Definition two_empty_results : gmap Z (list Chunk.t) := <[0 := []]> (<[1 := []]> ∅).

(** A text hit with its content and retrieval score. *)
Definition hit (content : str) (score : Q) : Chunk.t :=
  Chunk.mk (Some content) (Some (u8 "text")) (Some score) None None None None None
           None None None None None None.

(** A retriever that counts its calls, times out on the query "beta" and
    finds one hit for every other query. *)
Definition flaky_retrieve (calls : nat) (query : str) : nat * result (list Chunk.t) :=
  (S calls,
   if decide (query = u8 "beta") then Raise (RetrieverError (u8 "timeout"))
   else Ok [hit (u8 "about " ++ query) 1.0]).

(** Two sub-queries and a third that needs the context of both. *)
Definition three_step_decomposition : DecompositionResult.t :=
  DecompositionResult.mk (u8 "Q")
    (QueryIntent.mk (u8 "comparative") 7.0 [u8 "alpha"; u8 "beta"] (u8 "comparative")
       true [])
    [SubQuery.mk (u8 "alpha") (u8 "a") 1 None false;
     SubQuery.mk (u8 "beta") (u8 "b") 1 None false;
     SubQuery.mk (u8 "both") (u8 "c") 2 (Some [0; 1]) true]
    [0; 1; 2].

(** A stand-in for Python's [hash]: the sum of the code points. *)
Definition sum_hash (s : str) : Z := Z.of_N (foldr N.add 0%N s).

(* --------------------------------------------------------------------- *)
(** ** Further vocabulary of the planner and the estimator                *)
(* --------------------------------------------------------------------- *)

(** The key of the planner's sort: [sub_queries[x].priority]. *)
Definition priority_at (sub_queries : list SubQuery.t) (x : Z) : Z :=
  match getitem sub_queries x with
  | Ok sq => SubQuery.priority sq
  | Raise _ => 0
  end.

(** No sub-query names a dependency. *)
Definition no_deps (sub_queries : list SubQuery.t) : Prop :=
  forall sq, sq ∈ sub_queries -> IntelligentQueryDecomposer.deps_of sq = [].

(** Every dependency names an earlier sub-query of the list. *)
Definition backward_deps (sub_queries : list SubQuery.t) : Prop :=
  forall i sq d,
    sub_queries !! i = Some sq -> d ∈ IntelligentQueryDecomposer.deps_of sq ->
    0 <= d < Z.of_nat i.

(** The words the estimator never takes for a key concept. *)
Definition question_words : list str :=
  [u8 "如何"; u8 "为什么"; u8 "什么"; u8 "哪些"; u8 "怎么"].


(* --------------------------------------------------------------------- *)
(** ** Further vocabulary of the executor                                 *)
(* --------------------------------------------------------------------- *)

Module FuseSpec.

(** The fingerprint of a result: the first 100 characters of its content. *)
Definition fingerprint (r : Chunk.t) : str := slice_to 100 (content_of r).

(** The key of the fusion's sort: [x.get('score', 0)]. *)
Definition score_key (r : Chunk.t) : Q := default 0%Q (Chunk.score r).

(** The results whose fingerprint is met for the first time, given the
    fingerprints seen so far. *)
Fixpoint first_seen (seen : gset str) (l : list Chunk.t) : list Chunk.t :=
  match l with
  | [] => []
  | r :: l' =>
    if decide (fingerprint r ∈ seen) then first_seen seen l'
    else r :: first_seen ({[fingerprint r]} ∪ seen) l'
  end.

End FuseSpec.

(** The words between the context and the sub-query. *)
Definition context_joint : str := [10; 10]%N ++ u8 "基于以上信息，".

(** The execution context agrees with the plan, the sub-queries and the
    accumulator: an entry stands under a plan index, at the step it
    records, holds the text of the sub-query of that index, and its
    results are a segment of the accumulated results. *)
Definition context_consistent (decomposition : DecompositionResult.t)
    (execution_context : gmap Z MultiStepQueryExecutor.ContextEntry)
    (accumulated_results : list Chunk.t) : Prop :=
  forall k e,
    execution_context !! k = Some e ->
    0 <= MultiStepQueryExecutor.entry_step e /\
    DecompositionResult.execution_plan decomposition
      !! Z.to_nat (MultiStepQueryExecutor.entry_step e) = Some k /\
    (exists sub_query,
       getitem (DecompositionResult.sub_queries decomposition) k = Ok sub_query /\
       MultiStepQueryExecutor.entry_query e = SubQuery.query sub_query) /\
    exists before after,
      accumulated_results = before ++ MultiStepQueryExecutor.entry_results e ++ after.

(* --------------------------------------------------------------------- *)
(** ** Further vocabulary of the synthesizer                              *)
(* --------------------------------------------------------------------- *)

(** A string that neither starts nor ends with white space. *)
Definition stripped (s : str) : Prop := strip s = s.

(** No blank line follows a blank line. *)
Definition no_double_blank (lines : list str) : Prop :=
  forall i, lines !! i = Some [] -> lines !! S i <> Some [].

(** The lines the loop of [_post_process_answer] appends, given
    [prev_empty]. *)
Fixpoint clean_from (prev_empty : bool) (lines : list str) : list str :=
  match lines with
  | [] => []
  | line :: lines' =>
    match strip line with
    | [] => if negb prev_empty then [] :: clean_from true lines'
            else clean_from prev_empty lines'
    | line => line :: clean_from false lines'
    end
  end.

(** Two executed sub-queries with one hit each. *)
Definition two_hit_results : gmap Z (list Chunk.t) :=
  <[0 := [hit (u8 "alpha is a letter") 0.9]]> (<[1 := [hit (u8 " beta too ") 0.8]]> ∅).

(** A language model whose call raises. *)
Definition model_down (prompt : str) : ResultSynthesizer.ChatOutcome :=
  ResultSynthesizer.ChatRaises (LLMError (u8 "connection refused")).

(* --------------------------------------------------------------------- *)
(** ** The reranker's keyword bonuses and normalisation ([reranker.py])   *)
(* --------------------------------------------------------------------- *)

(** [s.find(sub)], where [s] starts at index [i] of the whole string: the
    lowest index of an occurrence, or [-1]. *)
Fixpoint find_from (sub s : str) (i : Z) : Z :=
  match s with
  | [] => if startswith sub [] then i else -1
  | _ :: s' => if startswith sub s then i else find_from sub s' (i + 1)
  end.

Definition find (sub s : str) : Z := find_from sub s 0.

(** [s.count(sub)] for a non-empty [sub]: the occurrences that do not
    overlap, read from the left; [skip] characters of the last
    occurrence are still to be passed. *)
Fixpoint count_from (sub s : str) (skip : nat) : Z :=
  match s with
  | [] => 0
  | _ :: s' =>
    match skip with
    | S k => count_from sub s' k
    | O =>
      if startswith sub s then 1 + count_from sub s' (length sub - 1)
      else count_from sub s' 0
    end
  end.

(** [s.count(sub)]; the empty string occurs between any two characters. *)
Definition count (sub s : str) : Z :=
  match sub with
  | [] => len s + 1
  | _ => count_from sub s 0
  end.

(** [min(scores)] and [max(scores)] of a list that starts with [x]: the
    first of the least, respectively greatest, elements. *)
Definition list_min (x : Q) (l : list Q) : Q :=
  foldl (fun m y => if Qltb y m then y else m) x l.

Definition list_max (x : Q) (l : list Q) : Q :=
  foldl (fun m y => if Qltb m y then y else m) x l.

Module RerankerScores.

Section Bonuses.
(** [str.lower], of which nothing is assumed. *)
Variable lower : str -> str.
(** [math.log] on the positive integers. *)
Variable ln : positive -> Q.

Definition _calculate_keyword_position_bonus (keywords : list str) (content : str) : Q :=
  match keywords, content with
  | [], _ => 0.0
  | _, [] => 0.0
  | _, _ =>
    let content_lower := lower content in
    let total_bonus :=
      foldl
        (fun total_bonus keyword =>
           let pos := find (lower keyword) content_lower in
           if decide (pos <> -1) then
             let position_ratio := Float.sub 1 (Float.div_int pos (len content)) in
             Float.add total_bonus position_ratio
           else total_bonus)
        0.0%Q keywords in
    Float.div total_bonus (Float.of_int (len keywords))
  end.

Definition _calculate_keyword_frequency_bonus (keywords : list str) (content : str) : Q :=
  match keywords, content with
  | [], _ => 0.0
  | _, [] => 0.0
  | _, _ =>
    let content_lower := lower content in
    let total_frequency :=
      foldl
        (fun total_frequency keyword =>
           let frequency := count (lower keyword) content_lower in
           Float.add total_frequency (ln (Z.to_pos (1 + frequency))))
        0%Q keywords in
    fmin (Float.div total_frequency (Float.of_int (len keywords))) 1.0
  end.

End Bonuses.

Definition _normalize_scores (scores : list Q) : list Q :=
  match scores with
  | [] => scores
  | x :: l =>
    let min_score := list_min x l in
    let max_score := list_max x l in
    if decide (max_score == min_score)%Q then replicate (length scores) 1.0%Q
    else map (fun score =>
                Float.div (Float.sub score min_score) (Float.sub max_score min_score))
             scores
  end.

End RerankerScores.

(** A stand-in for the logarithm: the number of binary digits, less one. *)
Definition log2_floor (p : positive) : Q := inject_Z (Z.log2 (Z.pos p)).

(** Lower case on the letters A to Z; a stand-in for [str.lower] on
    strings whose other characters have no case. *)
Definition ascii_lower (s : str) : str :=
  map (fun c => if ((65 <=? c) && (c <=? 90))%N then (c + 32)%N else c) s.

(* --------------------------------------------------------------------- *)
(** ** The hybrid retriever's search ([hybrid_retriever.py])              *)
(* --------------------------------------------------------------------- *)

Module HybridSearch.

(** The keys of [self.config] the retriever reads; [RETRIEVAL_CONFIG] of
    [config.py] is the default. *)
Record Config : Type := mkConfig {
  top_k : option Z;
  rerank_top_k : option Z;
  score_threshold : option Q
}.

Definition RETRIEVAL_CONFIG : Config :=
  {| top_k := Some 10; rerank_top_k := Some 5; score_threshold := Some (Float.lit 0.7) |}.

(** [chunk = chunks[idx].copy(); chunk['score'] = score;
    chunk['retrieval_method'] = method] *)
Definition bm25_hit (score : Q) (method : str) (chunk : Chunk.t) : Chunk.t :=
  Chunk.mk (Chunk.content chunk) (Chunk.chunk_type chunk) (Some score)
    (Chunk.priority_score chunk) (Chunk.content_category chunk) (Chunk.page_num chunk)
    (Chunk.chunk_index chunk) (Some method) (Chunk.combined_score chunk)
    (Chunk.rerank_score chunk) (Chunk.semantic_score chunk) (Chunk.keyword_score chunk)
    (Chunk.content_type_score chunk) (Chunk.position_score chunk).

(** [result['retrieval_method'] = method] *)
Definition set_retrieval_method (method : str) (result : Chunk.t) : Chunk.t :=
  Chunk.mk (Chunk.content result) (Chunk.chunk_type result) (Chunk.score result)
    (Chunk.priority_score result) (Chunk.content_category result) (Chunk.page_num result)
    (Chunk.chunk_index result) (Some method) (Chunk.combined_score result)
    (Chunk.rerank_score result) (Chunk.semantic_score result) (Chunk.keyword_score result)
    (Chunk.content_type_score result) (Chunk.position_score result).

(** The loop over [top_indices] inside the [try]: an exception ends it,
    and what it has appended to [results] stays. *)
Fixpoint bm25_collect (scores : list Q) (chunks : list Chunk.t) (method : str)
    (top_indices : list Z) (results : list Chunk.t) : list Chunk.t :=
  match top_indices with
  | [] => results
  | idx :: top_indices' =>
    match getitem scores idx with
    | Raise _ => results
    | Ok score =>
      if Qltb 0 score then
        match getitem chunks idx with
        | Raise _ => results
        | Ok chunk =>
          bm25_collect scores chunks method top_indices'
            (results ++ [bm25_hit score method chunk])
        end
      else bm25_collect scores chunks method top_indices' results
    end
  end.

(** One of the two [try] blocks of [_bm25_search]: [index] is the BM25
    index, whose [get_scores] returns one score for each chunk or raises. *)
Definition bm25_index_search (index : option (list str -> result (list Q)))
    (chunks : list Chunk.t) (method : str) (query_tokens : list str) (top_k : Z)
    (results : list Chunk.t) : list Chunk.t :=
  match index with
  | None => results
  | Some get_scores =>
    match get_scores query_tokens with
    | Raise _ => results
    | Ok scores =>
      let top_indices :=
        slice_to top_k
          (sort_reverse_by (fun i => default 0%Q (scores !! Z.to_nat i))
             (range (len scores))) in
      bm25_collect scores chunks method top_indices results
    end
  end.

Section Retriever.
(** Python's built-in [hash] on strings. *)
Variable hash : str -> Z.
(** [_tokenize_text]: lower-casing and regular-expression tokenisation. *)
Variable _tokenize_text : str -> list str.
(** Is [rank_bm25] installed? *)
Variable BM25_AVAILABLE : bool.
Variable bm25_text_index bm25_image_index : option (list str -> result (list Q)).
Variable text_chunks image_chunks : list Chunk.t.
(** [vector_store.search(query, top_k, search_type, score_threshold)]: the
    hits, each with its [index_type], or an exception. *)
Variable vector_store_search :
  str -> Z -> str -> Q -> result (list (option str * Chunk.t)).
(** The collaborators of the reranker. *)
Variable rerank_model : option (str -> str -> option Q).
Variable ln : positive -> Q.
Variable _extract_keywords : str -> list str.
Variable _calculate_keyword_position_bonus : list str -> str -> Q.
Variable _calculate_keyword_frequency_bonus : list str -> str -> Q.
Variable config : Config.

Definition _bm25_search (query : str) (top_k : Z) (search_type : str) : list Chunk.t :=
  if negb BM25_AVAILABLE then []
  else
    let query_tokens := _tokenize_text query in
    match query_tokens with
    | [] => []
    | _ =>
      let results := [] in
      let results :=
        if decide (search_type ∈ [u8 "text"; u8 "both"])
        then bm25_index_search bm25_text_index text_chunks (u8 "bm25_text")
               query_tokens top_k results
        else results in
      let results :=
        if decide (search_type ∈ [u8 "image"; u8 "both"])
        then bm25_index_search bm25_image_index image_chunks (u8 "bm25_image")
               query_tokens top_k results
        else results in
      results
    end.

Definition _vector_search (query : str) (top_k : Z) (search_type : str) : list Chunk.t :=
  match
    vector_store_search query top_k search_type (default 0.0%Q (score_threshold config))
  with
  | Raise _ => []
  | Ok results =>
    map (fun '(index_type, result) =>
           if decide (index_type = Some (u8 "text"))
           then set_retrieval_method (u8 "vector_text") result
           else set_retrieval_method (u8 "vector_image") result)
        results
  end.

(** [self.reranker.rerank] *)
Definition rerank (query : str) (results : list Chunk.t) : list Chunk.t :=
  Reranker.rerank rerank_model ln _extract_keywords _calculate_keyword_position_bonus
    _calculate_keyword_frequency_bonus query results.

(** [retrieve(query, top_k=None, search_type='both', enable_rerank=True)] *)
Definition retrieve (query : str) (top_k : option Z) (search_type : str)
    (enable_rerank : bool) : list Chunk.t :=
  let top_k :=
    match top_k with
    | None => default 10 (HybridSearch.top_k config)
    | Some top_k => top_k
    end in
  let all_results := [] in
  let bm25_results := _bm25_search query (top_k * 2) search_type in
  let all_results := all_results ++ bm25_results in
  let vector_results := _vector_search query (top_k * 2) search_type in
  let all_results := all_results ++ vector_results in
  let merged_results := HybridRetriever._merge_results hash all_results in
  let merged_results :=
    match enable_rerank, merged_results with
    | true, _ :: _ =>
      let rerank_top_k :=
        default (Z.min (top_k * 2) (len merged_results)) (rerank_top_k config) in
      rerank query (slice_to rerank_top_k merged_results)
    | _, _ => merged_results
    end in
  let final_results := slice_to top_k merged_results in
  final_results.

End Retriever.

End HybridSearch.

(** The number of results a call of [retrieve] asks for. *)
Definition effective_top_k (config : HybridSearch.Config) (top_k : option Z) : Z :=
  match top_k with
  | None => default 10 (HybridSearch.top_k config)
  | Some top_k => top_k
  end.

(** A hit of the BM25 search: a stored chunk with a positive score and
    the mark of the index that found it. *)
Definition is_bm25_hit (text_chunks image_chunks : list Chunk.t) (r : Chunk.t) : Prop :=
  exists score method chunk,
    r = HybridSearch.bm25_hit score method chunk /\ (0 < score)%Q /\
    (method = u8 "bm25_text" /\ chunk ∈ text_chunks \/
     method = u8 "bm25_image" /\ chunk ∈ image_chunks).

(* --------------------------------------------------------------------- *)
(** ** The query processor ([intelligent_query_processor.py])             *)
(* --------------------------------------------------------------------- *)

(** [str(e)] *)
Definition str_of_exn (e : exn) : str :=
  match e with
  | IndexError => u8 "list index out of range"
  | RetrieverError msg => msg
  | LLMError msg => msg
  end.

Module IntelligentQueryProcessor.

(** [self.config], an absent key standing at the default [get] gives it. *)
Record Config : Type := mkConfig {
  enable_decomposition : bool;
  decomposition_threshold : Q;
  max_sub_queries : Z;
  enable_synthesis : bool;
  fallback_to_simple : bool
}.

Definition default_config : Config :=
  {| enable_decomposition := true; decomposition_threshold := 6.0; max_sub_queries := 5;
     enable_synthesis := true; fallback_to_simple := true |}.

(** The language model as its two users see it. *)
Record Model : Type := mkModel {
  as_decomposer : IntelligentQueryDecomposer.LLM;
  chat : str -> ResultSynthesizer.ChatOutcome
}.

(** The entries of the returned [dict]. *)
Record IntentAnalysis : Type := mkIntentAnalysis {
  intent_type : str;
  complexity_score : Q;
  key_concepts : list str;
  question_type : str;
  reasoning : str
}.

Record SubQueryInfo : Type := mkSubQueryInfo {
  query : str;
  intent : str;
  priority : Z;
  results_count : Z
}.

Record ProcessingInfo : Type := mkProcessingInfo {
  decomposition_used : option bool;
  synthesis_used : option bool;
  total_sub_queries : option Z;
  total_results : option Z;
  error : option str;
  fallback_used : option bool
}.

(** The returned [dict]; [None] is an absent key, and [intent_analysis]
    holds [Some None] for the value [None]. *)
Record Outcome : Type := mkOutcome {
  answer : str;
  query_type : str;
  original_query : option str;
  intent_analysis : option (option IntentAnalysis);
  sub_queries : list SubQueryInfo;
  execution_plan : option (list Z);
  retrieved_chunks : list Chunk.t;
  processing_info : ProcessingInfo
}.

(** The loop of [_simple_result_combination]: [contents]. *)
Definition combination_step (contents : list str) (result : Chunk.t) : list str :=
  match default [] (Chunk.content result) with
  | [] => contents
  | content =>
    match strip (slice_to 300 content) with
    | [] => contents
    | content => if decide (content ∉ contents) then contents ++ [content] else contents
    end
  end.

Definition _simple_result_combination (results : list Chunk.t) : str :=
  match results with
  | [] => u8 "抱歉，没有找到相关信息。"
  | _ =>
    let contents := foldl combination_step [] (slice_to 5 results) in
    match contents with
    | [] => u8 "抱歉，没有找到相关信息。"
    | _ => join [10; 10]%N contents
    end
  end.

Section Processor.
(** The retriever: a state and [retrieve], which returns the hits or
    raises. *)
Variable Retriever : Type.
Variable retrieve : Retriever -> str -> Retriever * result (list Chunk.t).
(** [self.llm] *)
Variable llm : option Model.
(** [_llm_generate_simple_answer] of the synthesizer. *)
Variable _llm_generate_simple_answer : str -> list Chunk.t -> str.
Variable config : Config.

(** The components [__init__] builds. *)
Definition decomposer_config : IntelligentQueryDecomposer.Config :=
  IntelligentQueryDecomposer.mkConfig (decomposition_threshold config)
    (max_sub_queries config).

Definition executor_config : MultiStepQueryExecutor.Config :=
  MultiStepQueryExecutor.mkConfig 1000 true.

Definition synthesizer_config : ResultSynthesizer.Config :=
  ResultSynthesizer.mkConfig 2000 (u8 "comprehensive").

Definition decomposer_llm : option IntelligentQueryDecomposer.LLM := as_decomposer <$> llm.

Definition synthesizer_llm : option (str -> ResultSynthesizer.ChatOutcome) := chat <$> llm.

(** The retriever as the loop of the executor leaves it, also when an
    index of the plan makes the loop raise. *)
Fixpoint retriever_after_steps (decomposition : DecompositionResult.t)
    (steps : list (Z * Z)) (st : MultiStepQueryExecutor.State Retriever) : Retriever :=
  match steps with
  | [] => MultiStepQueryExecutor.retriever st
  | s :: steps' =>
    match MultiStepQueryExecutor.execute_step Retriever retrieve executor_config
            decomposition st s with
    | Ok st' => retriever_after_steps decomposition steps' st'
    | Raise _ => MultiStepQueryExecutor.retriever st
    end
  end.

Definition _process_simple_query (r : Retriever) (query : str)
    : Retriever * result Outcome :=
  let '(r', retrieved) := retrieve r query in
  (r',
   bind retrieved (fun results =>
   let answer :=
     ResultSynthesizer._generate_simple_answer synthesizer_llm
       _llm_generate_simple_answer query results in
   Ok (mkOutcome answer (u8 "simple") (Some query) (Some None)
         [mkSubQueryInfo query (u8 "simple") 1 (len results)]
         (Some [0]) results
         (mkProcessingInfo (Some false) (Some false) (Some 1) (Some (len results))
            None None)))).

Definition _process_complex_query (r : Retriever) (query : str)
    (decomposition : DecompositionResult.t) : Retriever * result Outcome :=
  let steps := enumerate (DecompositionResult.execution_plan decomposition) in
  let r' := retriever_after_steps decomposition steps
              (MultiStepQueryExecutor.mkState r ∅ []) in
  (r',
   bind (MultiStepQueryExecutor.execute_decomposed_query Retriever retrieve
           executor_config r decomposition)
        (fun '(executor, all_results) =>
   let sub_results : gmap Z (list Chunk.t) :=
     MultiStepQueryExecutor.entry_results
       <$> MultiStepQueryExecutor.execution_context executor in
   bind
     (if enable_synthesis config && bool_decide (1 < size sub_results)%nat
      then ResultSynthesizer.synthesize_results synthesizer_llm synthesizer_config
             _llm_generate_simple_answer query decomposition sub_results
      else Ok (_simple_result_combination all_results))
     (fun answer =>
   let intent := DecompositionResult.intent decomposition in
   Ok (mkOutcome answer (u8 "complex") (Some query)
         (Some (Some (mkIntentAnalysis (QueryIntent.intent_type intent)
                        (QueryIntent.complexity_score intent)
                        (QueryIntent.key_concepts intent)
                        (QueryIntent.question_type intent)
                        (QueryIntent.reasoning intent))))
         (map (fun '(i, sq) =>
                 mkSubQueryInfo (SubQuery.query sq) (SubQuery.intent sq)
                   (SubQuery.priority sq) (len (default [] (sub_results !! i))))
              (enumerate (DecompositionResult.sub_queries decomposition)))
         (Some (DecompositionResult.execution_plan decomposition))
         all_results
         (mkProcessingInfo (Some true) (Some (enable_synthesis config))
            (Some (len (DecompositionResult.sub_queries decomposition)))
            (Some (len all_results)) None None))))).

(** The [try] block of [process_query]. *)
Definition process_query_try (r : Retriever) (query : str)
    : option (Retriever * result Outcome) :=
  if enable_decomposition config then
    match
      IntelligentQueryDecomposer.analyze_and_decompose decomposer_llm decomposer_config
        query
    with
    | None => None
    | Some decomposition =>
      if QueryIntent.requires_decomposition (DecompositionResult.intent decomposition)
         && (1 <? len (DecompositionResult.sub_queries decomposition))
      then Some (_process_complex_query r query decomposition)
      else Some (_process_simple_query r query)
    end
  else Some (_process_simple_query r query).

(** [None]: the planner ran out of fuel. *)
Definition process_query (r : Retriever) (query : str)
    : option (Retriever * result Outcome) :=
  match process_query_try r query with
  | None => None
  | Some (r', Ok outcome) => Some (r', Ok outcome)
  | Some (r', Raise e) =>
    if fallback_to_simple config then Some (_process_simple_query r' query)
    else
      Some (r',
            Ok (mkOutcome (u8 "查询处理过程中出现错误: " ++ str_of_exn e) (u8 "error")
                  None None [] None []
                  (mkProcessingInfo None None None None (Some (str_of_exn e))
                     (Some false))))
  end.

End Processor.

End IntelligentQueryProcessor.

(** A retriever always returns its hits. *)
Definition retriever_answers {Retriever : Type}
    (retrieve : Retriever -> str -> Retriever * result (list Chunk.t)) : Prop :=
  forall r query, exists r' hits, retrieve r query = (r', Ok hits).

(** A retriever always raises. *)
Definition retriever_fails {Retriever : Type}
    (retrieve : Retriever -> str -> Retriever * result (list Chunk.t)) : Prop :=
  forall r query, exists r' e, retrieve r query = (r', Raise e).

(** A retriever whose backend is down. *)
Definition retrieve_down (calls : nat) (query : str) : nat * result (list Chunk.t) :=
  (S calls, Raise (RetrieverError (u8 "backend down"))).

(** A retriever that finds one hit for every query. *)
Definition retrieve_one (calls : nat) (query : str) : nat * result (list Chunk.t) :=
  (S calls, Ok [hit (u8 "about " ++ query) 1.0]).

(* ===================================================================== *)
(** * Part II: properties                                                 *)
(* ===================================================================== *)

(* --------------------------------------------------------------------- *)
(** ** The built-ins on values computed by Python                         *)
(* --------------------------------------------------------------------- *)

Example u8_code_points : u8 "比较A" = [27604; 36739; 65]%N.
Proof. reflexivity. Qed.

Example split_on_white_space :
  split (u8 "a  b　c d ") = [u8 "a"; u8 "b"; u8 "c"; u8 "d"].
Proof. reflexivity. Qed.

Example strip_white_space : strip (u8 " 　ab c ") = u8 "ab c".
Proof. reflexivity. Qed.

Example split_on_newline :
  split_on 10 [97; 10; 10; 98; 10]%N = [u8 "a"; []; u8 "b"; []].
Proof. reflexivity. Qed.

Example rfind_last_occurrence :
  rfind (u8 "bc") (u8 "abcabc") = 4 /\ rfind (u8 "x") (u8 "abc") = -1.
Proof. by vm_compute. Qed.

Example getitem_from_the_end :
  getitem [10; 20; 30] (-1) = Ok 30 /\ getitem [10; 20; 30] (-4) = Raise IndexError /\
  getitem [10; 20; 30] 3 = Raise IndexError.
Proof. by vm_compute. Qed.

Example slice_to_from_the_end :
  slice_to (-1) [10; 20; 30] = [10; 20] /\ slice_to 5 [10; 20; 30] = [10; 20; 30].
Proof. by vm_compute. Qed.

Example format_1f_rounds :
  format_1f (Float.lit 2.68) = u8 "2.7" /\ format_1f (Float.lit 12.34) = u8 "12.3" /\
  format_1f 7.0 = u8 "7.0" /\
  format_1f 0.25 = u8 "0.2" /\ format_1f 0.75 = u8 "0.8" /\
  format_1f (Float.lit 0.35) = u8 "0.3".
Proof. by vm_compute. Qed.

Example str_of_int_digits : str_of_int 12 = u8 "12" /\ str_of_int (-3) = u8 "-3".
Proof. by vm_compute. Qed.

Example join_with_separator : join (u8 "、") [u8 "x"; u8 "y"] = u8 "x、y".
Proof. reflexivity. Qed.

Example sorted_by_key_is_stable :
  sorted_by_key (fun x => default 0 ([2; 1; 2; 1] !! Z.to_nat x)) (range 4) = [1; 3; 0; 2].
Proof. by vm_compute. Qed.

Example sort_reverse_by_is_stable :
  sort_reverse_by snd [(u8 "a", 1.0%Q); (u8 "b", 2.0%Q); (u8 "c", 1.0%Q); (u8 "d", 2.0%Q)]
  = [(u8 "b", 2.0%Q); (u8 "d", 2.0%Q); (u8 "a", 1.0%Q); (u8 "c", 1.0%Q)].
Proof. by vm_compute. Qed.

(* --------------------------------------------------------------------- *)
(** ** Stable sorting                                                     *)
(* --------------------------------------------------------------------- *)

Section StableSortFacts.
Context {A : Type} (before : A -> A -> bool).
Local Abbreviation in_order := (SortSpec.in_order before).
Local Abbreviation same_rank := (SortSpec.same_rank before).

Lemma insert_stable_perm (x : A) (l : list A) :
  insert_stable before x l ≡ₚ x :: l.
Proof.
  induction l as [|y l IH]; simpl; [done|].
  destruct (before y x); [|done].
  rewrite IH. apply Permutation_swap.
Qed.

Lemma stable_sort_perm (l : list A) : stable_sort before l ≡ₚ l.
Proof.
  induction l as [|x l IH]; simpl; [done|].
  rewrite insert_stable_perm. by rewrite IH.
Qed.

Lemma stable_sort_elem_of (x : A) (l : list A) :
  x ∈ stable_sort before l <-> x ∈ l.
Proof. by rewrite stable_sort_perm. Qed.

(** Elements none of which must precede another keep their order. *)
Lemma insert_stable_filter (P : A -> Prop) `{!forall a, Decision (P a)} (x : A) (l : list A) :
  (forall a b, P a -> P b -> before a b = false) ->
  filter P (insert_stable before x l) = filter P (x :: l).
Proof.
  intros HP. induction l as [|y l IH]; simpl; [done|].
  destruct (before y x) eqn:E; [|done].
  rewrite filter_cons, IH, !filter_cons.
  destruct (decide (P y)) as [Hy|Hy], (decide (P x)) as [Hx|Hx]; try done.
  rewrite (HP y x Hy Hx) in E. discriminate.
Qed.

Lemma stable_sort_filter (P : A -> Prop) `{!forall a, Decision (P a)} (l : list A) :
  (forall a b, P a -> P b -> before a b = false) ->
  filter P (stable_sort before l) = filter P l.
Proof.
  intros HP. induction l as [|x l IH]; simpl; [done|].
  rewrite insert_stable_filter by done.
  by rewrite !filter_cons, IH.
Qed.

Section Ordered.
Hypothesis before_asym : forall a b, before a b = true -> before b a = false.
Hypothesis in_order_trans : forall a b c, in_order a b -> in_order b c -> in_order a c.

Lemma insert_stable_sorted (x : A) (l : list A) :
  Sorted in_order l -> Sorted in_order (insert_stable before x l).
Proof.
  induction 1 as [|y l Hs IH Hd]; simpl.
  - by repeat constructor.
  - destruct (before y x) eqn:E.
    + constructor; [done|].
      destruct Hd as [|z l Hz]; simpl.
      * constructor. by apply before_asym.
      * destruct (before z x); constructor; [done|by apply before_asym].
    + constructor; [by constructor|]. by constructor.
Qed.

Lemma stable_sort_sorted (l : list A) : Sorted in_order (stable_sort before l).
Proof.
  induction l as [|x l IH]; simpl; [constructor|].
  by apply insert_stable_sorted.
Qed.

Lemma stable_sort_strongly_sorted (l : list A) :
  StronglySorted in_order (stable_sort before l).
Proof.
  apply Sorted_StronglySorted; [|apply stable_sort_sorted].
  intros a b c. apply in_order_trans.
Qed.

End Ordered.

(** Sorting a sorted list changes nothing. *)
Lemma stable_sort_of_sorted (l : list A) :
  Sorted in_order l -> stable_sort before l = l.
Proof.
  induction 1 as [|x l Hs IH Hd]; simpl; [done|].
  rewrite IH. destruct Hd as [|y l Hy]; simpl; [done|].
  unfold in_order in Hy. by rewrite Hy.
Qed.

(** Two sorted lists that hold the same elements of every rank, in the
    same order, are one list: a sorted and stable rearrangement does not
    depend on the algorithm that computes it. *)
Lemma sorted_stable_unique (l1 l2 : list A) :
  (forall a, before a a = false) ->
  StronglySorted in_order l1 -> StronglySorted in_order l2 ->
  (forall x, filter (same_rank x) l1 = filter (same_rank x) l2) ->
  l1 = l2.
Proof.
  intros Hirr. revert l2.
  induction l1 as [|a t1 IH]; intros l2 Hs1 Hs2 Hf.
  - destruct l2 as [|b t2]; [done|].
    specialize (Hf b). rewrite filter_nil, filter_cons_True in Hf by (by split). done.
  - destruct l2 as [|b t2].
    { specialize (Hf a). rewrite filter_nil, filter_cons_True in Hf by (by split). done. }
    apply StronglySorted_inv in Hs1 as [Hs1 Ha].
    apply StronglySorted_inv in Hs2 as [Hs2 Hb].
    rewrite List.Forall_forall in Ha, Hb.
    assert (a = b) as <-.
    { destruct (decide (same_rank a b)) as [Hab|Hab].
      - specialize (Hf a). rewrite !filter_cons_True in Hf by (done || by split).
        by injection Hf.
      - exfalso. apply Hab.
        assert (~ same_rank b a) as Hba by (intros [? ?]; by apply Hab).
        split.
        + assert (a ∈ filter (same_rank a) t2) as Hin.
          { rewrite <- (filter_cons_False _ b) by done.
            rewrite <- Hf, filter_cons_True by (by split). left. }
          apply list_elem_of_filter in Hin as [_ Hin].
          by apply Hb, list_elem_of_In.
        + assert (b ∈ filter (same_rank b) t1) as Hin.
          { rewrite <- (filter_cons_False _ a) by done.
            rewrite Hf, filter_cons_True by (by split). left. }
          apply list_elem_of_filter in Hin as [_ Hin].
          by apply Ha, list_elem_of_In. }
    f_equal. apply IH; [done|done|].
    intros x. specialize (Hf x). rewrite !filter_cons in Hf.
    destruct (decide (same_rank x a)); [by injection Hf|done].
Qed.

End StableSortFacts.

Lemma Qltb_lt (a b : Q) : Qltb a b = true <-> (a < b)%Q.
Proof.
  unfold Qltb. rewrite negb_true_iff.
  split.
  - intros H. apply Qnot_le_lt. intros Hle.
    apply Qle_bool_iff in Hle. congruence.
  - intros H. destruct (Qle_bool b a) eqn:E; [|done].
    apply Qle_bool_iff in E. exfalso. by apply (Qlt_not_le a b).
Qed.

Lemma Qltb_ge (a b : Q) : Qltb a b = false <-> (b <= a)%Q.
Proof.
  unfold Qltb. rewrite negb_false_iff. apply Qle_bool_iff.
Qed.

Lemma fmin_le_r (a b : Q) : (fmin a b <= b)%Q.
Proof.
  unfold fmin. destruct (Qltb b a) eqn:E.
  - apply Qle_refl.
  - apply Qltb_ge in E. done.
Qed.

Lemma fmin_le_l (a b : Q) : (fmin a b <= a)%Q.
Proof.
  unfold fmin. destruct (Qltb b a) eqn:E.
  - apply Qltb_lt in E. by apply Qlt_le_weak.
  - apply Qle_refl.
Qed.

Lemma fmin_glb (a b c : Q) : (c <= a)%Q -> (c <= b)%Q -> (c <= fmin a b)%Q.
Proof. intros Ha Hb. unfold fmin. by destruct (Qltb b a). Qed.

(* --------------------------------------------------------------------- *)
(** ** Floating-point rounding                                            *)
(* --------------------------------------------------------------------- *)

(** The literals of the source and the outcome of double-precision sums:
    [0.18 + 1.5 + 1.0] is the float below [2.68], for instance. *)
Example round_decimal_literals :
  (Float.lit 0.7 == 3152519739159347 # 4503599627370496)%Q /\
  (Float.lit 2.68 == 6034823500676465 # 2251799813685248)%Q /\
  (Float.add (Float.add (Float.div_int 9 50) 1.5) 1.0
   == 377176468792279 # 140737488355328)%Q /\
  Float.round (inject_Z (2 ^ 53 + 1)) = inject_Z (2 ^ 53) /\
  Float.round (inject_Z (2 ^ 53 + 3)) = inject_Z (2 ^ 53 + 4).
Proof. by vm_compute. Qed.

Section RoundHalfEven.
Open Scope Q_scope.

Lemma round_half_even_bounds (x : Q) :
  x - (1 # 2) <= inject_Z (round_half_even x) <= x + (1 # 2).
Proof.
  unfold round_half_even.
  pose proof (Qfloor_le x) as Hlo. pose proof (Qlt_floor x) as Hhi.
  rewrite inject_Z_plus in Hhi. change (inject_Z 1) with 1 in Hhi.
  destruct (Qltb (x - inject_Z (Qfloor x)) (1 # 2)) eqn:E1.
  { apply Qltb_lt in E1. lra. }
  apply Qltb_ge in E1.
  destruct (Qltb (1 # 2) (x - inject_Z (Qfloor x))) eqn:E2.
  { apply Qltb_lt in E2. rewrite inject_Z_plus. change (inject_Z 1) with 1. lra. }
  apply Qltb_ge in E2.
  destruct (Z.even (Qfloor x)).
  - lra.
  - rewrite inject_Z_plus. change (inject_Z 1) with 1. lra.
Qed.

Lemma round_half_even_comp (x y : Q) :
  x == y -> round_half_even x = round_half_even y.
Proof.
  intros H. unfold round_half_even, Qltb.
  rewrite (Qfloor_comp x y H).
  assert (x - inject_Z (Qfloor y) == y - inject_Z (Qfloor y)) as Hr by (by rewrite H).
  by rewrite (Qleb_comp _ _ (Qeq_refl (1 # 2)) _ _ Hr),
             (Qleb_comp _ _ Hr _ _ (Qeq_refl (1 # 2))).
Qed.

Lemma round_half_even_Z (z : Z) : round_half_even (inject_Z z) = z.
Proof.
  unfold round_half_even. rewrite Qfloor_Z.
  assert (Qltb (inject_Z z - inject_Z z) (1 # 2) = true) as ->; [|done].
  apply Qltb_lt. lra.
Qed.

Lemma round_half_even_mono (x y : Q) :
  x <= y -> (round_half_even x <= round_half_even y)%Z.
Proof.
  intros Hxy.
  destruct (Z.le_gt_cases (round_half_even x) (round_half_even y)) as [|Hgt]; [done|].
  exfalso.
  pose proof (round_half_even_bounds x) as [_ Hx].
  pose proof (round_half_even_bounds y) as [Hy _].
  assert (inject_Z (round_half_even y) + 1 <= inject_Z (round_half_even x)) as Hz.
  { change 1 with (inject_Z 1). rewrite <- inject_Z_plus, <- Zle_Qle. lia. }
  assert (x == y) as Heq by lra.
  apply round_half_even_comp in Heq. lia.
Qed.

End RoundHalfEven.

Section FloatFacts.
Import Float.
Open Scope Q_scope.

Lemma pow2_pos (e : Z) : 0 < pow2 e.
Proof. by apply Qpower_0_lt. Qed.

Lemma pow2_lt (e e' : Z) : (e < e')%Z -> pow2 e < pow2 e'.
Proof. intros H. by apply Qpower_lt_compat_l. Qed.

Lemma pow2_le (e e' : Z) : (e <= e')%Z -> pow2 e <= pow2 e'.
Proof. intros H. by apply Qpower_le_compat_l. Qed.

Lemma pow2_plus (a b : Z) : pow2 (a + b) == pow2 a * pow2 b.
Proof. by apply Qpower_plus. Qed.

Lemma pow2_Z (k : Z) : (0 <= k)%Z -> pow2 k == inject_Z (2 ^ k).
Proof. intros H. unfold pow2. by rewrite Zpower_Qpower. Qed.

Lemma pow2_succ (e : Z) : pow2 (e + 1) == 2 * pow2 e.
Proof. rewrite pow2_plus. change (pow2 1) with 2. ring. Qed.

Lemma ilog2_spec (a : Q) : 0 < a -> pow2 (ilog2 a) <= a < pow2 (ilog2 a + 1).
Proof.
  destruct a as [n d]. intros Hpos.
  assert (0 < n)%Z as Hn.
  { unfold Qlt in Hpos. simpl in Hpos. lia. }
  unfold ilog2. cbn [Qnum Qden].
  pose proof (Z.log2_spec n Hn) as [Hn1 Hn2].
  pose proof (Z.log2_spec (Z.pos d) eq_refl) as [Hd1 Hd2].
  pose proof (Z.log2_nonneg n) as Hln. pose proof (Z.log2_nonneg (Z.pos d)) as Hld.
  set (ln := Z.log2 n) in *. set (ld := Z.log2 (Z.pos d)) in *.
  assert (pow2 ln <= inject_Z n) as Qn1 by (rewrite pow2_Z, <- Zle_Qle; lia).
  assert (inject_Z n < pow2 (ln + 1)) as Qn2 by (rewrite pow2_Z, <- Zlt_Qlt; lia).
  assert (pow2 ld <= inject_Z (Z.pos d)) as Qd1 by (rewrite pow2_Z, <- Zle_Qle; lia).
  assert (inject_Z (Z.pos d) < pow2 (ld + 1)) as Qd2 by (rewrite pow2_Z, <- Zlt_Qlt; lia).
  assert (0 < inject_Z (Z.pos d)) as Qd0 by (by rewrite <- (Zlt_Qlt 0)).
  assert (n # d == inject_Z n / inject_Z (Z.pos d)) as Hdiv by apply Qmake_Qdiv.
  set (e := (ln - ld)%Z).
  assert (pow2 (e - 1) < n # d) as Hlow.
  { rewrite Hdiv. apply Qlt_shift_div_l; [done|].
    eapply Qlt_le_trans; [|exact Qn1].
    replace ln with ((e - 1) + (ld + 1))%Z by (unfold e; lia).
    rewrite pow2_plus. apply Qmult_lt_l; [apply pow2_pos|done]. }
  assert (n # d < pow2 (e + 1)) as Hup.
  { rewrite Hdiv. apply Qlt_shift_div_r; [done|].
    eapply Qlt_le_trans; [exact Qn2|].
    replace (ln + 1)%Z with ((e + 1) + ld)%Z by (unfold e; lia).
    rewrite pow2_plus. apply Qmult_le_l; [apply pow2_pos|done]. }
  destruct (Qle_bool (pow2 e) (n # d)) eqn:E.
  - apply Qle_bool_iff in E. done.
  - assert (n # d < pow2 e) as Hlt.
    { apply Qnot_le_lt. intros H. apply Qle_bool_iff in H. congruence. }
    replace (e - 1 + 1)%Z with e by lia. split; [by apply Qlt_le_weak|done].
Qed.

Lemma ilog2_unique (a : Q) (e : Z) :
  pow2 e <= a < pow2 (e + 1) -> ilog2 a = e.
Proof.
  intros [Hlo Hhi].
  assert (0 < a) as Hpos by (eapply Qlt_le_trans; [apply pow2_pos|exact Hlo]).
  destruct (ilog2_spec a Hpos) as [Hlo' Hhi'].
  destruct (Z.lt_trichotomy (ilog2 a) e) as [Hlt|[Heq|Hgt]]; [|done|]; exfalso.
  - pose proof (pow2_le (ilog2 a + 1) e ltac:(lia)). lra.
  - pose proof (pow2_le (e + 1) (ilog2 a) ltac:(lia)). lra.
Qed.

Lemma ilog2_comp (a b : Q) : 0 < a -> a == b -> ilog2 a = ilog2 b.
Proof.
  intros Hpos Heq. symmetry. apply ilog2_unique.
  rewrite <- Heq. by apply ilog2_spec.
Qed.

Lemma ilog2_mono (a b : Q) : 0 < a -> a <= b -> (ilog2 a <= ilog2 b)%Z.
Proof.
  intros Hpos Hle.
  destruct (ilog2_spec a Hpos) as [Hlo _].
  destruct (ilog2_spec b ltac:(lra)) as [_ Hhi].
  destruct (Z.le_gt_cases (ilog2 a) (ilog2 b)) as [|Hgt]; [done|]. exfalso.
  pose proof (pow2_le (ilog2 b + 1) (ilog2 a) ltac:(lia)). lra.
Qed.

Lemma scaled_bounds (a : Q) :
  0 < a -> pow2 52 <= a / pow2 (ilog2 a - 52) < pow2 53.
Proof.
  intros Hpos. destruct (ilog2_spec a Hpos) as [Hlo Hhi].
  pose proof (pow2_pos (ilog2 a - 52)) as Hu.
  split.
  - apply Qle_shift_div_l; [done|]. rewrite <- pow2_plus.
    by replace (52 + (ilog2 a - 52))%Z with (ilog2 a) by lia.
  - apply Qlt_shift_div_r; [done|]. rewrite <- pow2_plus.
    by replace (53 + (ilog2 a - 52))%Z with (ilog2 a + 1)%Z by lia.
Qed.

Lemma significand_bounds (a : Q) :
  0 < a ->
  pow2 52 <= inject_Z (round_half_even (a / pow2 (ilog2 a - 52))) <= pow2 53.
Proof.
  intros Hpos. destruct (scaled_bounds a Hpos) as [Hlo Hhi].
  rewrite (pow2_Z 52), (pow2_Z 53) in * by done.
  rewrite <- !Zle_Qle. split.
  - etransitivity; [|apply round_half_even_mono, Hlo].
    by rewrite round_half_even_Z.
  - etransitivity; [apply round_half_even_mono, Qlt_le_weak, Hhi|].
    by rewrite round_half_even_Z.
Qed.

Lemma round_pos_bounds (a : Q) :
  0 < a -> pow2 (ilog2 a) <= round_pos a <= pow2 (ilog2 a + 1).
Proof.
  intros Hpos. destruct (significand_bounds a Hpos) as [Hlo Hhi].
  pose proof (pow2_pos (ilog2 a - 52)) as Hu.
  unfold round_pos. cbn zeta. split.
  - replace (ilog2 a) with (52 + (ilog2 a - 52))%Z at 1 by lia.
    rewrite pow2_plus. by apply Qmult_le_compat_r; [|apply Qlt_le_weak].
  - replace (ilog2 a + 1)%Z with (53 + (ilog2 a - 52))%Z by lia.
    rewrite pow2_plus. by apply Qmult_le_compat_r; [|apply Qlt_le_weak].
Qed.

Lemma round_pos_comp (a b : Q) : 0 < a -> a == b -> round_pos a == round_pos b.
Proof.
  intros Hpos Heq. unfold round_pos. cbn zeta.
  rewrite <- (ilog2_comp a b Hpos Heq).
  assert (a / pow2 (ilog2 a - 52) == b / pow2 (ilog2 a - 52)) as H
    by (by apply Qmult_comp).
  by rewrite (round_half_even_comp _ _ H).
Qed.

Lemma round_pos_mono (a b : Q) : 0 < a -> a <= b -> round_pos a <= round_pos b.
Proof.
  intros Hpos Hle.
  assert (0 < b) as Hposb by lra.
  pose proof (ilog2_mono a b Hpos Hle) as He.
  destruct (Z.eq_dec (ilog2 a) (ilog2 b)) as [Heq|Hne].
  - unfold round_pos. cbn zeta. rewrite <- Heq.
    pose proof (pow2_pos (ilog2 a - 52)) as Hu.
    apply Qmult_le_compat_r; [|by apply Qlt_le_weak].
    rewrite <- Zle_Qle. apply round_half_even_mono.
    apply Qmult_le_compat_r; [done|]. by apply Qlt_le_weak, Qinv_lt_0_compat.
  - destruct (round_pos_bounds a Hpos) as [_ Ha].
    destruct (round_pos_bounds b Hposb) as [Hb _].
    pose proof (pow2_le (ilog2 a + 1) (ilog2 b) ltac:(lia)). lra.
Qed.

Lemma round_pos_positive (a : Q) : 0 < a -> 0 < round_pos a.
Proof.
  intros Hpos. destruct (round_pos_bounds a Hpos) as [H _].
  eapply Qlt_le_trans; [apply pow2_pos|exact H].
Qed.

(** A positive number with at most 53 significant bits is a float. *)
Lemma round_pos_exact (a : Q) (m : Z) :
  0 < a -> a == inject_Z m * pow2 (ilog2 a - 52) -> round_pos a == a.
Proof.
  intros Hpos Hm. unfold round_pos. cbn zeta.
  pose proof (pow2_pos (ilog2 a - 52)) as Hu.
  assert (a / pow2 (ilog2 a - 52) == inject_Z m) as H.
  { rewrite Hm at 1. field. lra. }
  by rewrite (round_half_even_comp _ _ H), round_half_even_Z.
Qed.

Lemma round_of_pos (x : Q) : 0 < x -> round x = Qred (round_pos x).
Proof.
  destruct x as [[|p|p] d]; intros H; [| done |]; unfold Qlt in H; simpl in H; lia.
Qed.

Lemma round_of_neg (x : Q) : x < 0 -> round x = Qred (- round_pos (- x)).
Proof.
  destruct x as [[|p|p] d]; intros H; [| | done]; unfold Qlt in H; simpl in H; lia.
Qed.

Lemma round_of_zero (x : Q) : x == 0 -> round x = 0.
Proof.
  destruct x as [[|p|p] d]; intros H; [done| |]; unfold Qeq in H; simpl in H; lia.
Qed.

Lemma round_comp (x y : Q) : x == y -> round x = round y.
Proof.
  intros Heq. destruct (Q_dec x 0) as [[Hneg|Hpos]|Hzero].
  - rewrite (round_of_neg x), (round_of_neg y) by lra.
    apply Qred_complete, Qopp_comp, round_pos_comp; [lra|by apply Qopp_comp].
  - rewrite (round_of_pos x), (round_of_pos y) by lra.
    by apply Qred_complete, round_pos_comp.
  - rewrite (round_of_zero x), (round_of_zero y); [done|lra|done].
Qed.

Lemma round_opp (x : Q) : round (- x) == - round x.
Proof.
  destruct (Q_dec x 0) as [[Hneg|Hpos]|Hzero].
  - rewrite (round_of_neg x), (round_of_pos (- x)) by lra.
    rewrite !Qred_correct. ring.
  - rewrite (round_of_pos x), (round_of_neg (- x)) by lra.
    rewrite !Qred_correct.
    apply Qopp_comp, round_pos_comp; [lra|ring].
  - rewrite (round_of_zero x), (round_of_zero (- x)); [done|lra|done].
Qed.

Lemma round_positive (x : Q) : 0 < x -> 0 < round x.
Proof.
  intros H. rewrite (round_of_pos x H), Qred_correct. by apply round_pos_positive.
Qed.

Lemma round_negative (x : Q) : x < 0 -> round x < 0.
Proof.
  intros H. rewrite (round_of_neg x H), Qred_correct.
  pose proof (round_pos_positive (- x) ltac:(lra)). lra.
Qed.

Lemma round_nonneg (x : Q) : 0 <= x -> 0 <= round x.
Proof.
  intros H. destruct (Qlt_le_dec 0 x) as [Hpos|Hle].
  - by apply Qlt_le_weak, round_positive.
  - rewrite (round_of_zero x); [done|lra].
Qed.

Lemma round_mono (x y : Q) : x <= y -> round x <= round y.
Proof.
  intros Hle. destruct (Q_dec x 0) as [[Hneg|Hpos]|Hzero].
  - destruct (Qlt_le_dec y 0) as [Hy|Hy].
    + rewrite (round_of_neg x), (round_of_neg y), !Qred_correct by done.
      apply Qopp_le_compat, round_pos_mono; lra.
    + pose proof (round_negative x Hneg). pose proof (round_nonneg y Hy). lra.
  - rewrite (round_of_pos x), (round_of_pos y), !Qred_correct by lra.
    by apply round_pos_mono.
  - rewrite (round_of_zero x Hzero). apply round_nonneg. lra.
Qed.

Lemma round_exact (x : Q) (m : Z) :
  0 < x -> x == inject_Z m * pow2 (ilog2 x - 52) -> round x == x.
Proof.
  intros Hpos Hm. rewrite (round_of_pos x Hpos), Qred_correct.
  by apply (round_pos_exact x m).
Qed.

(** The integers up to 2^53 are floats. *)
Lemma round_Z (n : Z) : (0 <= n <= 2 ^ 53)%Z -> round (inject_Z n) == inject_Z n.
Proof.
  intros [H0 H53].
  destruct (Z.eq_dec n 0%Z) as [->|Hn0]; [done|].
  destruct (Z.eq_dec n (2 ^ 53)%Z) as [->|Hn53]; [by vm_compute|].
  assert (0 < n)%Z as Hn by lia.
  pose proof (Z.log2_spec n Hn) as [Hlo Hhi].
  pose proof (Z.log2_nonneg n) as Hk.
  set (k := Z.log2 n) in *.
  assert (k <= 52)%Z as Hk52.
  { destruct (Z.le_gt_cases k 52) as [|Hgt]; [done|]. exfalso.
    assert (2 ^ 53 <= 2 ^ k)%Z by (apply Z.pow_le_mono_r; lia). lia. }
  assert (0 < inject_Z n) as Hpos by (by rewrite <- (Zlt_Qlt 0)).
  assert (ilog2 (inject_Z n) = k) as He.
  { apply ilog2_unique. rewrite !pow2_Z by lia. rewrite <- Zle_Qle, <- Zlt_Qlt.
    split; [done|]. by replace (k + 1)%Z with (Z.succ k) by lia. }
  apply (round_exact _ (n * 2 ^ (52 - k))%Z Hpos).
  rewrite He, inject_Z_mult, <- (pow2_Z (52 - k)) by lia.
  rewrite <- Qmult_assoc, <- pow2_plus.
  replace (52 - k + (k - 52))%Z with 0%Z by lia.
  change (pow2 0) with 1. ring.
Qed.

Lemma round_le_float (x c : Q) : round c == c -> x <= c -> round x <= c.
Proof. intros Hc Hle. rewrite <- Hc. by apply round_mono. Qed.

Lemma round_ge_float (x c : Q) : round c == c -> c <= x -> c <= round x.
Proof. intros Hc Hle. rewrite <- Hc. by apply round_mono. Qed.

Lemma round_1 : round 1 == 1.
Proof. by vm_compute. Qed.

Lemma round_2 : round 2 == 2.
Proof. by vm_compute. Qed.

Lemma round_unit_interval (x : Q) : 0 <= x <= 1 -> 0 <= round x <= 1.
Proof.
  intros [H0 H1]. split; [by apply round_nonneg|].
  by apply round_le_float; [apply round_1|].
Qed.

(** A quotient of floats that lies in [0, 1] before it is rounded. *)
Lemma div_unit_interval (a d : Q) :
  0 <= a -> a <= d -> 0 < d -> 0 <= div a d <= 1.
Proof.
  intros Ha Had Hd. apply round_unit_interval. split.
  - apply Qle_shift_div_l; [done|]. by rewrite Qmult_0_l.
  - apply Qle_shift_div_r; [done|]. by rewrite Qmult_1_l.
Qed.

Lemma div_mono_l (a b d : Q) : 0 < d -> a <= b -> div a d <= div b d.
Proof.
  intros Hd Hab. apply round_mono. unfold Qdiv.
  apply Qmult_le_compat_r; [done|]. by apply Qlt_le_weak, Qinv_lt_0_compat.
Qed.

Lemma div_same (d : Q) : 0 < d -> div d d == 1.
Proof.
  intros Hd. unfold div. rewrite (round_comp (d / d) 1); [apply round_1|].
  field. lra.
Qed.

End FloatFacts.

(* From here on rounding is used through its lemmas, or evaluated whole. *)
#[global] Opaque Float.round.

Lemma StronglySorted_weaken {A} (R R' : A -> A -> Prop) (l : list A) :
  (forall a b, R a b -> R' a b) -> StronglySorted R l -> StronglySorted R' l.
Proof.
  intros HR. induction 1 as [|x l Hs IH Hx]; constructor; [done|].
  eapply List.Forall_impl; [|exact Hx]. intros a. apply HR.
Qed.

Section SortReverseFacts.
Context {A : Type} (key : A -> Q).
Local Abbreviation descending := (SortSpec.descending key).

Lemma sort_reverse_by_perm (l : list A) : sort_reverse_by key l ≡ₚ l.
Proof. apply stable_sort_perm. Qed.

Lemma sort_reverse_by_sorted (l : list A) :
  StronglySorted descending (sort_reverse_by key l).
Proof.
  unfold sort_reverse_by.
  eapply (StronglySorted_weaken (SortSpec.in_order (fun y x => Qltb (key x) (key y))));
    [| apply stable_sort_strongly_sorted].
  - intros a b H. unfold SortSpec.in_order in H. by apply Qltb_ge in H.
  - intros a b H. apply Qltb_lt in H. apply Qltb_ge. by apply Qlt_le_weak.
  - unfold SortSpec.in_order. intros a b c H1 H2.
    apply Qltb_ge in H1, H2. apply Qltb_ge. by eapply Qle_trans.
Qed.

(** Ties keep the order they had in the input. *)
Lemma sort_reverse_by_stable (v : Q) (l : list A) :
  filter (fun a => key a == v)%Q (sort_reverse_by key l) =
  filter (fun a => key a == v)%Q l.
Proof.
  apply stable_sort_filter. intros a b Ha Hb.
  apply Qltb_ge. rewrite Ha, Hb. apply Qle_refl.
Qed.

Lemma sort_reverse_by_of_sorted (l : list A) :
  Sorted descending l -> sort_reverse_by key l = l.
Proof.
  intros H. apply stable_sort_of_sorted.
  induction H as [|x l Hs IH Hd]; constructor; [done|].
  destruct Hd; constructor. unfold SortSpec.in_order. by apply Qltb_ge.
Qed.

(** [list.sort(key=key, reverse=True)] returns a list in descending order
    of the keys in which equal keys keep their order; there is one such
    list, the one the model computes. *)
Lemma sort_reverse_by_unique (l l' : list A) :
  StronglySorted descending l' ->
  (forall v, filter (fun a => key a == v)%Q l' = filter (fun a => key a == v)%Q l) ->
  l' = sort_reverse_by key l.
Proof.
  intros Hs Hf.
  assert (forall x a,
    SortSpec.same_rank (fun y x => Qltb (key x) (key y)) x a <-> (key a == key x)%Q) as Hrank.
  { intros x a. unfold SortSpec.same_rank. rewrite !Qltb_ge. split.
    - intros [H1 H2]. by apply Qle_antisym.
    - intros H. rewrite H. split; apply Qle_refl. }
  apply (sorted_stable_unique (fun y x => Qltb (key x) (key y))).
  - intros a. apply Qltb_ge, Qle_refl.
  - eapply StronglySorted_weaken; [|exact Hs].
    intros a b H. by apply Qltb_ge.
  - eapply StronglySorted_weaken; [|apply (sort_reverse_by_sorted l)].
    intros a b H. by apply Qltb_ge.
  - intros x.
    rewrite (list_filter_iff _ (fun a => key a == key x)%Q l') by apply Hrank.
    rewrite (list_filter_iff _ (fun a => key a == key x)%Q (sort_reverse_by key l))
      by apply Hrank.
    by rewrite Hf, sort_reverse_by_stable.
Qed.

Lemma sort_reverse_by_idem (l : list A) :
  sort_reverse_by key (sort_reverse_by key l) = sort_reverse_by key l.
Proof.
  apply sort_reverse_by_of_sorted, StronglySorted_Sorted, sort_reverse_by_sorted.
Qed.

End SortReverseFacts.

(* --------------------------------------------------------------------- *)
(** ** The execution planner                                              *)
(* --------------------------------------------------------------------- *)

Lemma for_each_total {A S} (I : S -> Prop) (body : A -> S -> option S) (l : list A) (st : S) :
  I st ->
  (forall a s, a ∈ l -> I s -> exists s', body a s = Some s' /\ I s') ->
  exists s', for_each body l st = Some s' /\ I s'.
Proof.
  revert st. induction l as [|a l IH]; intros st Hst Hbody; simpl.
  - eauto.
  - destruct (Hbody a st) as (s' & -> & Hs'); [left|done|].
    apply IH; [done|]. intros b s Hb. apply Hbody. by right.
Qed.

(** An invariant that may mention the elements already processed. *)
Lemma for_each_inv_from {A S} (I : list A -> S -> Prop) (body : A -> S -> option S)
    (pre l : list A) (st st' : S) :
  for_each body l st = Some st' ->
  I pre st ->
  (forall p a s s', a ∈ l -> I p s -> body a s = Some s' -> I (p ++ [a]) s') ->
  I (pre ++ l) st'.
Proof.
  revert pre st. induction l as [|a l IH]; intros pre st Hrun Hst Hbody; simpl in Hrun.
  - rewrite app_nil_r. congruence.
  - destruct (body a st) as [s1|] eqn:E; [|done].
    replace (pre ++ a :: l) with ((pre ++ [a]) ++ l) by (by rewrite <- app_assoc).
    apply (IH _ s1); [done| |].
    + apply (Hbody pre a st); [left|done|done].
    + intros p b s s' Hb. apply Hbody. by right.
Qed.

Lemma for_each_inv {A S} (I : list A -> S -> Prop) (body : A -> S -> option S)
    (l : list A) (st st' : S) :
  for_each body l st = Some st' ->
  I [] st ->
  (forall p a s s', a ∈ l -> I p s -> body a s = Some s' -> I (p ++ [a]) s') ->
  I l st'.
Proof. intros. by apply (for_each_inv_from I body [] l st st'). Qed.

Lemma len_cons {A} (x : A) (l : list A) : len (x :: l) = len l + 1.
Proof. unfold len. simpl length. lia. Qed.

Lemma len_nonneg {A} (l : list A) : 0 <= len l.
Proof. unfold len. lia. Qed.

Lemma graph_fold_lookup (l : list SubQuery.t) (s : Z) (g0 : gmap Z (list Z)) (k : Z) :
  foldl (fun g '(i, sq) => <[i := IntelligentQueryDecomposer.deps_of sq]> g) g0
        (zip (seqZ s (len l)) l) !! k =
  if decide (s <= k < s + len l)
  then IntelligentQueryDecomposer.deps_of <$> l !! Z.to_nat (k - s)
  else g0 !! k.
Proof.
  revert s g0. induction l as [|x l IH]; intros s g0.
  - simpl. case_decide; [|done]. unfold len in *. simpl in *. lia.
  - rewrite len_cons. pose proof (len_nonneg l) as Hl.
    rewrite seqZ_cons by lia.
    replace (Z.pred (len l + 1)) with (len l) by lia.
    simpl. rewrite IH.
    destruct (decide (k = s)) as [->|Hne].
    + rewrite decide_False by lia. rewrite decide_True by lia.
      rewrite lookup_insert_eq. by replace (Z.to_nat (s - s)) with 0%nat by lia.
    + rewrite lookup_insert_ne by done.
      destruct (decide (Z.succ s <= k < Z.succ s + len l)).
      * rewrite decide_True by lia.
        replace (Z.to_nat (k - s)) with (S (Z.to_nat (k - Z.succ s))) by lia.
        done.
      * rewrite decide_False by lia. done.
Qed.

Lemma dependency_graph_lookup (sub_queries : list SubQuery.t) (k : Z) :
  IntelligentQueryDecomposer.build_dependency_graph sub_queries !! k =
  if decide (0 <= k < len sub_queries)
  then IntelligentQueryDecomposer.deps_of <$> sub_queries !! Z.to_nat k
  else None.
Proof.
  unfold IntelligentQueryDecomposer.build_dependency_graph, enumerate, range.
  rewrite graph_fold_lookup.
  replace (k - 0) with k by lia. simpl.
  repeat case_decide; try done; lia.
Qed.

Section PlannerFacts.
Import IntelligentQueryDecomposer.
Variable sub_queries : list SubQuery.t.
Local Abbreviation valid_nodes := (PlanSpec.valid_nodes sub_queries).
Local Abbreviation off_stack := (PlanSpec.off_stack sub_queries).
Local Abbreviation extends := PlanSpec.extends.
Local Abbreviation plan_ok := PlanSpec.plan_ok.
Local Abbreviation edge := (PlanSpec.edge sub_queries).
Local Abbreviation reach := (PlanSpec.reach sub_queries).
Local Abbreviation before_in := PlanSpec.before_in.
Local Abbreviation closed := (PlanSpec.closed sub_queries).
Local Abbreviation stack_reaches := (PlanSpec.stack_reaches sub_queries).
Local Abbreviation nonneg_deps := (PlanSpec.nonneg_deps sub_queries).
Local Abbreviation in_range := (PlanSpec.in_range sub_queries).

Lemma extends_refl (st : PlanState) : extends st st.
Proof.
  split; [done|]. exists []. rewrite app_nil_r.
  split; [done|]. split; [set_solver|]. split; [constructor|set_solver].
Qed.

Lemma extends_trans (st1 st2 st3 : PlanState) :
  extends st1 st2 -> extends st2 st3 -> extends st1 st3.
Proof.
  intros (Ht1 & new1 & Hp1 & Hv1 & Hn1 & Hd1) (Ht2 & new2 & Hp2 & Hv2 & Hn2 & Hd2).
  split; [congruence|]. exists (new1 ++ new2).
  split; [by rewrite Hp2, Hp1, app_assoc|].
  split; [rewrite Hv2, Hv1; set_solver|].
  split.
  - apply NoDup_app. repeat split; [done| |done].
    intros x Hx1 Hx2. apply Hd2 in Hx2 as [Hx2 _]. set_solver.
  - intros x Hx. apply elem_of_app in Hx as [Hx|Hx]; [by apply Hd1|].
    apply Hd2 in Hx as [Hxv Hxt]. split; [set_solver|congruence].
Qed.

Lemma dfs_unfold (fuel : nat) (node : Z) (st : PlanState) :
  dfs sub_queries (S fuel) node st =
  if decide (node ∈ temp_visited st) then Some st
  else if decide (node ∈ visited st) then Some st
  else
    match
      for_each
        (fun dep s => if dep <? len sub_queries then dfs sub_queries fuel dep s else Some s)
        (default [] (build_dependency_graph sub_queries !! node))
        (mkPlanState (execution_plan st) (visited st) ({[node]} ∪ temp_visited st))
    with
    | None => None
    | Some st2 =>
      Some (mkPlanState (execution_plan st2 ++ [node])
                        ({[node]} ∪ visited st2)
                        (temp_visited st2 ∖ {[node]}))
    end.
Proof. reflexivity. Qed.

Lemma before_in_app (l l' : list Z) (a b : Z) :
  before_in l a b -> before_in (l ++ l') a b.
Proof.
  intros (l1 & l2 & l3 & ->). exists l1, l2, (l3 ++ l').
  by rewrite <- !app_assoc, <- !app_comm_cons, <- app_assoc.
Qed.

Lemma before_in_snoc (l : list Z) (a b : Z) :
  a ∈ l -> before_in (l ++ [b]) a b.
Proof.
  intros (l1 & l2 & ->)%list_elem_of_split. exists l1, l2, [].
  by rewrite <- app_assoc.
Qed.

Lemma extends_plan_ok (st st' : PlanState) :
  extends st st' -> plan_ok st -> plan_ok st'.
Proof.
  intros (_ & new & Hp & Hv & Hn & Hd) [Hnd Hvis]. split.
  - rewrite Hp. apply NoDup_app. repeat split; [done| |done].
    intros x Hx Hx'. apply Hd in Hx' as [Hx' _]. set_solver.
  - rewrite Hv, Hp, Hvis, list_to_set_app_L. set_solver.
Qed.

Lemma extends_visited (st st' : PlanState) :
  extends st st' -> visited st ⊆ visited st'.
Proof. intros (_ & new & _ & Hv & _). set_solver. Qed.

(** What [dependency_graph.get(node, [])] holds. *)
Lemma graph_deps_elem (node d : Z) :
  d ∈ default [] (build_dependency_graph sub_queries !! node) ->
  0 <= node < len sub_queries /\
  exists sq, sub_queries !! Z.to_nat node = Some sq /\ d ∈ deps_of sq.
Proof.
  rewrite dependency_graph_lookup. case_decide as Hn; [|by intros ?%elem_of_nil].
  destruct (sub_queries !! Z.to_nat node) as [sq|] eqn:E; simpl;
    [|by intros ?%elem_of_nil].
  eauto.
Qed.

(** What a call of [dfs] that returns has done. *)
Lemma dfs_sound (fuel : nat) (node : Z) (st st' : PlanState) :
  dfs sub_queries fuel node st = Some st' ->
  extends st st' /\
  (node ∈ temp_visited st \/ node ∈ visited st') /\
  (plan_ok st -> stack_reaches st node -> closed st -> closed st') /\
  (nonneg_deps -> 0 <= node < len sub_queries -> in_range st -> in_range st').
Proof.
  revert node st st'. induction fuel as [|fuel IH]; intros node st st' Hrun; [done|].
  rewrite dfs_unfold in Hrun.
  destruct (decide (node ∈ temp_visited st)) as [Ht|Ht].
  { injection Hrun as <-. eauto using extends_refl. }
  destruct (decide (node ∈ visited st)) as [Hv|Hv].
  { injection Hrun as <-. eauto using extends_refl. }
  set (st1 := mkPlanState (execution_plan st) (visited st) ({[node]} ∪ temp_visited st))
    in Hrun.
  set (deps := default [] (build_dependency_graph sub_queries !! node)) in Hrun.
  destruct (for_each _ deps st1) as [st2|] eqn:Hloop; [|done].
  injection Hrun as <-.
  pose (I := fun (pre : list Z) (s : PlanState) =>
    extends st1 s /\
    (forall d, d ∈ pre -> d < len sub_queries -> d ∈ temp_visited st1 \/ d ∈ visited s) /\
    (plan_ok st -> stack_reaches st node -> closed st -> closed s) /\
    (nonneg_deps -> 0 <= node < len sub_queries -> in_range st -> in_range s)).
  assert (I deps st2) as (Hext & Hdeps & Hclosed & Hrange).
  { apply (for_each_inv I _ deps st1 st2 Hloop).
    - split; [apply extends_refl|]. split; [by intros d ?%elem_of_nil|]. done.
    - intros pre d s s' Hd (Hs & Hpre & Hcl & Hrg) Hbody.
      destruct (d <? len sub_queries) eqn:Hlt.
      + apply Z.ltb_lt in Hlt.
        apply IH in Hbody as (Hss' & Hd' & Hcl' & Hrg').
        apply graph_deps_elem in Hd as (Hnode & sq & Hsq & Hdsq).
        split; [by eapply extends_trans|]. split; [|split].
        * intros x [Hx| ->%list_elem_of_singleton]%elem_of_app Hxl.
          -- destruct (Hpre x Hx Hxl) as [?|?]; [by left|].
             right. by eapply extends_visited.
          -- destruct Hd' as [Hd'|Hd']; [|by right].
             left. destruct Hs as [<- _]. done.
        * intros Hok Hstack Hc. apply Hcl'; [|intros t Hin|by apply Hcl].
          -- by eapply extends_plan_ok.
          -- destruct Hs as [Hts _]. rewrite Hts in Hin. simpl in Hin.
             assert (edge node d) as Hedge by (split; [lia|eauto]).
             apply elem_of_union in Hin as [->%elem_of_singleton|Hin].
             ++ by apply rtc_once.
             ++ eapply rtc_r; [by apply Hstack|done].
        * intros Hnn Hn Hr. apply Hrg'; [done| |by apply Hrg].
          split; [|done].
          apply (Hnn sq d); [|done]. by eapply list_elem_of_lookup_2.
      + injection Hbody as <-. apply Z.ltb_ge in Hlt.
        split; [done|]. split; [|done].
        intros x [Hx| ->%list_elem_of_singleton]%elem_of_app Hx'; [by apply Hpre|lia]. }
  destruct Hext as (Ht2 & new & Hp2 & Hv2 & Hn2 & Hd2). simpl in *.
  assert (node ∉ new) as Hnew.
  { intros Hin. apply Hd2 in Hin as [_ Hin]. set_solver. }
  assert (extends st
    (mkPlanState (execution_plan st2 ++ [node]) ({[node]} ∪ visited st2)
                 (temp_visited st2 ∖ {[node]}))) as Hfinal.
  { split; simpl; [rewrite Ht2; set_solver|].
    exists (new ++ [node]).
    split; [by rewrite Hp2, app_assoc|].
    split; [rewrite Hv2; set_solver|].
    split; [apply NoDup_app; repeat split; [done|set_solver|apply NoDup_singleton]|].
    intros x Hx. apply elem_of_app in Hx as [Hx|Hx].
    - apply Hd2 in Hx. set_solver.
    - set_solver. }
  split; [done|]. split; [right; simpl; set_solver|]. split.
  - intros Hok Hstack Hc i j Hi Hedge. simpl in *.
    assert (plan_ok st2) as [_ Hvis2].
    { apply (extends_plan_ok st1); [|done].
      split; [done|]. exists new. done. }
    apply elem_of_app in Hi as [Hi| ->%list_elem_of_singleton].
    + destruct (Hclosed Hok Hstack Hc i j Hi Hedge) as [Hb|Hr]; [|by right].
      left. by apply before_in_app.
    + pose proof Hedge as (Hn0 & sq & Hsq & Hj & Hjn).
      assert (j ∈ deps) as Hjd.
      { unfold deps. rewrite dependency_graph_lookup.
        rewrite decide_True by (apply lookup_lt_Some in Hsq; unfold len; lia).
        by rewrite Hsq. }
      destruct (Hdeps j Hjd Hjn) as [Hjt|Hjv].
      * right. apply elem_of_union in Hjt as [->%elem_of_singleton|Hjt];
          [apply rtc_refl|by apply Hstack].
      * left. apply before_in_snoc. by rewrite Hvis2, elem_of_list_to_set in Hjv.
  - intros Hnn Hn Hr x Hx. simpl in Hx.
    apply elem_of_app in Hx as [Hx| ->%list_elem_of_singleton]; [|done].
    by apply (Hrange Hnn Hn Hr).
Qed.

Lemma off_stack_push (node : Z) (st : PlanState) :
  0 <= node < len sub_queries -> node ∉ temp_visited st ->
  (size (valid_nodes ∖ ({[node]} ∪ temp_visited st)) < off_stack st)%nat.
Proof.
  intros Hn Ht. unfold off_stack. apply subset_size.
  assert (node ∈ valid_nodes).
  { unfold valid_nodes, range. rewrite elem_of_list_to_set, elem_of_seqZ. lia. }
  set_solver.
Qed.

(** A call of [dfs] returns when its fuel exceeds the number of
    sub-queries off the stack by two. *)
Lemma dfs_total (fuel : nat) (node : Z) (st : PlanState) :
  (off_stack st + 2 <= fuel)%nat -> is_Some (dfs sub_queries fuel node st).
Proof.
  revert node st. induction fuel as [|fuel IH]; intros node st Hfuel; [lia|].
  rewrite dfs_unfold.
  destruct (decide (node ∈ temp_visited st)) as [Ht|Ht]; [done|].
  destruct (decide (node ∈ visited st)) as [Hv|Hv]; [done|].
  set (st1 := mkPlanState (execution_plan st) (visited st) ({[node]} ∪ temp_visited st)).
  assert (exists st2,
    for_each
      (fun dep s => if dep <? len sub_queries then dfs sub_queries fuel dep s else Some s)
      (default [] (build_dependency_graph sub_queries !! node)) st1 = Some st2 /\
    temp_visited st2 = temp_visited st1) as (st2 & -> & _); [|done].
  apply for_each_total; [done|].
  intros dep s Hdep Hs. apply graph_deps_elem in Hdep as [Hn _].
  destruct (dep <? len sub_queries); [|eauto].
  destruct (IH dep s) as [s' Hs'].
  - pose proof (off_stack_push node st Hn Ht) as Hlt.
    unfold off_stack in *. rewrite Hs. simpl. lia.
  - exists s'. split; [done|].
    apply dfs_sound in Hs' as ((-> & _) & _). done.
Qed.

Lemma off_stack_bound (st : PlanState) : (off_stack st <= length sub_queries)%nat.
Proof.
  unfold off_stack. etrans; [apply (subseteq_size _ valid_nodes); set_solver|].
  unfold valid_nodes, range.
  rewrite size_list_to_set by apply NoDup_seqZ.
  rewrite length_seqZ. unfold len. lia.
Qed.

(** The loop over [nodes_by_priority], started outside any traversal. *)
Lemma plan_loop (nodes : list Z) (st : PlanState) :
  plan_ok st -> temp_visited st = ∅ ->
  (forall x, x ∈ nodes -> 0 <= x < len sub_queries) ->
  exists st',
    for_each
      (fun node st =>
         if decide (node ∈ visited st) then Some st
         else dfs sub_queries (dfs_fuel sub_queries) node st)
      nodes st = Some st' /\
    plan_ok st' /\
    visited st ⊆ visited st' /\
    (forall x, x ∈ nodes -> x ∈ visited st') /\
    (closed st -> closed st') /\
    (nonneg_deps -> in_range st -> in_range st').
Proof.
  revert st. induction nodes as [|node nodes IH]; intros st Hok Hempty Hnodes;
    cbn [for_each].
  { exists st. do 3 (split; [done|]).
    split; [intros x Hx; by apply elem_of_nil in Hx|]. split; by intros. }
  assert (exists st1,
    (if decide (node ∈ visited st) then Some st
     else dfs sub_queries (dfs_fuel sub_queries) node st) = Some st1 /\
    extends st st1 /\ node ∈ visited st1 /\
    (closed st -> closed st1) /\ (nonneg_deps -> in_range st -> in_range st1))
    as (st1 & -> & Hext & Hnode & Hcl & Hrg).
  { case_decide as Hv; [exists st; eauto 10 using extends_refl|].
    destruct (dfs_total (dfs_fuel sub_queries) node st) as [st1 Hrun].
    { pose proof (off_stack_bound st). unfold dfs_fuel. lia. }
    exists st1. split; [done|].
    apply dfs_sound in Hrun as (He & Hn & Hc & Hr).
    split; [done|]. split; [|split].
    - destruct Hn as [Hn|Hn]; [|done]. rewrite Hempty in Hn. set_solver.
    - apply Hc; [done|]. intros t Hin. rewrite Hempty in Hin. set_solver.
    - intros Hnn. apply Hr; [done|]. apply Hnodes. left. }
  destruct (IH st1) as (st' & Hloop & Hok' & Hsub & Hall & Hcl' & Hrg').
  { by eapply extends_plan_ok. }
  { destruct Hext as [-> _]. done. }
  { intros x Hx. apply Hnodes. by right. }
  exists st'. split; [done|]. split; [done|].
  pose proof (extends_visited _ _ Hext) as Hsub1.
  split; [set_solver|]. split; [|split].
  - intros x [->|Hx]%elem_of_cons; [set_solver|by apply Hall].
  - intros Hc. by apply Hcl', Hcl.
  - intros Hnn Hr. by apply Hrg', Hrg.
Qed.

(** The planner returns.  Its plan holds every sub-query index and no
    entry twice; a dependency that passes the planner's test comes before
    the sub-query that names it unless it depends on that sub-query in
    turn; and when no dependency index is negative the plan is a
    permutation of [range(len(sub_queries))]. *)
Lemma generate_execution_plan_spec :
  exists plan,
    _generate_execution_plan sub_queries = Some plan /\
    NoDup plan /\
    (forall i, 0 <= i < len sub_queries -> i ∈ plan) /\
    (forall i j, edge i j -> ~ reach j i -> before_in plan j i) /\
    (nonneg_deps -> plan ≡ₚ range (len sub_queries)).
Proof.
  unfold _generate_execution_plan.
  destruct sub_queries as [|sq0 sqs] eqn:E.
  { exists []. split; [done|]. split; [constructor|].
    split; [intros i; unfold len; simpl; lia|].
    split; [|done].
    intros i j (_ & sq & Hsq & _). by destruct (Z.to_nat i). }
  rewrite <- E.
  match goal with
  | |- context [for_each ?b ?l ?s] =>
    destruct (plan_loop l s)
      as (st' & Hloop & [Hnd Hvis] & _ & Hall & Hclosed & Hrange)
  end.
  { split; [constructor|done]. }
  { done. }
  { intros x. unfold sorted_by_key. rewrite stable_sort_elem_of.
    unfold range. rewrite elem_of_seqZ. lia. }
  rewrite Hloop. exists (execution_plan st'). split; [done|]. split; [done|].
  assert (forall i, 0 <= i < len sub_queries -> i ∈ execution_plan st') as Hin.
  { intros i Hi.
    assert (i ∈ visited st') as Hv; [|by rewrite Hvis, elem_of_list_to_set in Hv].
    apply Hall. unfold sorted_by_key. rewrite stable_sort_elem_of.
    unfold range. rewrite elem_of_seqZ. lia. }
  split; [done|]. split.
  - intros i j Hedge Hno.
    destruct (Hclosed) with (i := i) (j := j) as [Hb|Hr]; try done.
    + intros ? ? Hx. by apply elem_of_nil in Hx.
    + apply Hin. destruct Hedge as (Hi & sq & Hsq & _).
      apply lookup_lt_Some in Hsq. unfold len. lia.
  - intros Hnn. apply NoDup_Permutation; [done|apply NoDup_seqZ|].
    intros x. unfold range. rewrite elem_of_seqZ. split.
    + intros Hx. apply Hrange in Hx; [lia|done|].
      intros ? Hy. by apply elem_of_nil in Hy.
    + intros Hx. apply Hin. lia.
Qed.

End PlannerFacts.

(** The inner function returns at once on a node that is on the stack. *)
Lemma dfs_on_stack (sub_queries : list SubQuery.t) (fuel : nat) (node : Z)
    (st : IntelligentQueryDecomposer.PlanState) :
  node ∈ IntelligentQueryDecomposer.temp_visited st ->
  IntelligentQueryDecomposer.dfs sub_queries (S fuel) node st = Some st.
Proof. intros H. rewrite dfs_unfold. by rewrite decide_True. Qed.

(** C1 (the code departs from the claim).  A sub-query whose [depends_on]
    holds [-1] passes the planner's test [dep < len(sub_queries)]: the
    plan for this single sub-query is [[-1; 0]], which is not a
    permutation of [range(1)]. *)
Theorem plan_with_negative_dependency :
  let sub_queries := [SubQuery.mk (u8 "q") (u8 "") 1 (Some [-1]) false] in
  IntelligentQueryDecomposer._generate_execution_plan sub_queries = Some [-1; 0] /\
  ~ [-1; 0] ≡ₚ range (len sub_queries).
Proof.
  split; [by vm_compute|].
  intros H. apply Permutation_length in H. by vm_compute in H.
Qed.

(** C2.  For every list of sub-queries the planner returns a plan, in
    which no entry occurs twice and every sub-query index occurs (hence
    exactly once), whatever cycles [depends_on] holds; a node met again
    while it is on the traversal stack is left at once, with the state
    unchanged; and two sub-queries that depend on each other are planned
    once each. *)
Theorem planner_terminates_on_cycles (sub_queries : list SubQuery.t) :
  (exists plan,
     IntelligentQueryDecomposer._generate_execution_plan sub_queries = Some plan /\
     NoDup plan /\
     forall i, 0 <= i < len sub_queries -> count_occ Z.eq_dec plan i = 1%nat) /\
  (forall fuel node st,
     node ∈ IntelligentQueryDecomposer.temp_visited st ->
     IntelligentQueryDecomposer.dfs sub_queries (S fuel) node st = Some st) /\
  (forall q0 i0 c0 q1 i1 c1,
     IntelligentQueryDecomposer._generate_execution_plan
       [SubQuery.mk q0 i0 1 (Some [1]) c0; SubQuery.mk q1 i1 1 (Some [0]) c1]
     = Some [1; 0]).
Proof.
  split; [|split].
  - destruct (generate_execution_plan_spec sub_queries)
      as (plan & Hplan & Hnd & Hin & _).
    exists plan. split; [done|]. split; [done|].
    intros i Hi. apply NoDup_count_occ'; [by apply NoDup_ListNoDup|].
    apply list_elem_of_In. by apply Hin.
  - intros fuel node st. apply dfs_on_stack.
  - intros. by vm_compute.
Qed.

(* --------------------------------------------------------------------- *)
(** ** The rule-based intent estimator and the decomposer                 *)
(* --------------------------------------------------------------------- *)

Lemma count_present_nonneg (words : list str) (query : str) :
  0 <= count_present words query.
Proof. apply len_nonneg. Qed.

Lemma count_char_nonneg (c : N) (s : str) : 0 <= count_char c s.
Proof. induction s as [|a s IH]; simpl; [done|]. destruct (a =? c)%N; lia. Qed.

Lemma add_for_each_present_sum (words : list str) (bonus : Q) (query : str) (score : Q) :
  IntelligentQueryDecomposer.add_for_each_present words bonus query score =
  add_times (Z.to_nat (count_present words query)) bonus score.
Proof.
  unfold IntelligentQueryDecomposer.add_for_each_present, count_present, len, add_times.
  rewrite Nat2Z.id. revert score.
  induction words as [|w words IH]; intros score; [done|].
  cbn [foldl]. rewrite filter_cons. destruct (contains w query) eqn:E.
  - rewrite decide_True by done. cbn [length]. by rewrite Nat.iter_succ_r, IH.
  - rewrite decide_False by congruence. apply IH.
Qed.

(** The score before the cap is the sum the comments of the code name,
    taken in the order of the code. *)
Lemma raw_complexity_score_sum (query : str) :
  IntelligentQueryDecomposer.raw_complexity_score query =
  Float.add
    (add_times
       (Z.to_nat (count_present IntelligentQueryDecomposer.connectors query)) 1.0
       (add_times
          (Z.to_nat (count_present IntelligentQueryDecomposer.complex_keywords query)) 1.5
          (Float.add 0.0 (fmin (Float.div_int (len query) 50) 3.0))))
    (Float.add (Float.mul (Float.of_int (count_char 63 query)) 0.5)
               (Float.mul (Float.of_int (count_char 65311 query)) 0.5)).
Proof.
  unfold IntelligentQueryDecomposer.raw_complexity_score.
  by rewrite !add_for_each_present_sum.
Qed.

Lemma inject_Z_nonneg (z : Z) : 0 <= z -> (0 <= inject_Z z)%Q.
Proof. intros H. change 0%Q with (inject_Z 0). by rewrite <- Zle_Qle. Qed.

Lemma add_times_nonneg (n : nat) (bonus score : Q) :
  (0 <= bonus)%Q -> (0 <= score)%Q -> (0 <= add_times n bonus score)%Q.
Proof.
  intros Hb Hs. unfold add_times. induction n as [|n IH]; [done|].
  rewrite Nat.iter_succ. apply round_nonneg. lra.
Qed.

Lemma raw_complexity_score_nonneg (query : str) :
  (0 <= IntelligentQueryDecomposer.raw_complexity_score query)%Q.
Proof.
  rewrite raw_complexity_score_sum.
  pose proof (inject_Z_nonneg _ (len_nonneg query)) as Hlen.
  assert (forall c, 0 <= Float.mul (Float.of_int (count_char c query)) 0.5)%Q as Hq.
  { intros c. apply round_nonneg.
    pose proof (round_nonneg _ (inject_Z_nonneg _ (count_char_nonneg c query))) as H.
    unfold Float.of_int. lra. }
  assert (0 <= fmin (Float.div_int (len query) 50) 3.0)%Q as Hmin.
  { apply fmin_glb; [|done]. apply round_nonneg.
    apply Qle_shift_div_l; [done|]. lra. }
  apply round_nonneg.
  pose proof (Hq 63%N). pose proof (Hq 65311%N).
  assert (0 <= Float.add (Float.mul (Float.of_int (count_char 63 query)) 0.5)
                         (Float.mul (Float.of_int (count_char 65311 query)) 0.5))%Q
    by (apply round_nonneg; lra).
  assert (0 <= add_times
                 (Z.to_nat (count_present IntelligentQueryDecomposer.connectors query)) 1.0
                 (add_times
                    (Z.to_nat
                       (count_present IntelligentQueryDecomposer.complex_keywords query))
                    1.5 (Float.add 0.0 (fmin (Float.div_int (len query) 50) 3.0))))%Q.
  { apply add_times_nonneg; [done|]. apply add_times_nonneg; [done|].
    apply round_nonneg. lra. }
  lra.
Qed.

(** The decomposer returns for every question: the planner never runs out
    of fuel. *)
Lemma analyze_and_decompose_returns (llm : option IntelligentQueryDecomposer.LLM)
    (config : IntelligentQueryDecomposer.Config) (query : str) :
  is_Some (IntelligentQueryDecomposer.analyze_and_decompose llm config query).
Proof.
  unfold IntelligentQueryDecomposer.analyze_and_decompose.
  destruct (negb _); [done|].
  destruct (generate_execution_plan_spec
              (IntelligentQueryDecomposer._decompose_query llm config query
                 (IntelligentQueryDecomposer._analyze_query_intent llm config query)))
    as (plan & -> & _).
  done.
Qed.

(** On the rule-based path a question whose sum stays below the threshold
    is not decomposed. *)
Lemma below_threshold_not_decomposed (config : IntelligentQueryDecomposer.Config)
    (query : str) :
  (IntelligentQueryDecomposer.raw_complexity_score query <
   IntelligentQueryDecomposer.decomposition_threshold config)%Q ->
  QueryIntent.requires_decomposition
    (IntelligentQueryDecomposer._analyze_query_intent None config query) = false.
Proof.
  intros Hlt. simpl.
  destruct (Qle_bool _ _) eqn:E; [|done].
  apply Qle_bool_iff in E. exfalso. by apply (Qlt_not_le _ _ Hlt).
Qed.

(** C5.  The rule-based estimator starts from the length share
    [min(len/50, 3.0)], adds 1.5 once for each comparison/analysis keyword
    present, 1.0 once for each connective present and 0.5 for each question
    mark, in double precision and in this order; the score it reports is
    that sum capped at 10 and lies in [0,10].  [requires_decomposition]
    holds exactly when the sum reaches the threshold; for a threshold in
    the range 0-10 that [agent.py] documents (the default is 6.0) this is
    the same as the reported score reaching the threshold. *)
Theorem rule_based_complexity (config : IntelligentQueryDecomposer.Config) (query : str) :
  let raw := IntelligentQueryDecomposer.raw_complexity_score query in
  let intent := IntelligentQueryDecomposer._rule_based_intent_analysis config query in
  let threshold := IntelligentQueryDecomposer.decomposition_threshold config in
  raw =
    Float.add
      (add_times
         (Z.to_nat (count_present IntelligentQueryDecomposer.connectors query)) 1.0
         (add_times
            (Z.to_nat (count_present IntelligentQueryDecomposer.complex_keywords query))
            1.5
            (Float.add 0.0 (fmin (Float.div_int (len query) 50) 3.0))))
      (Float.add (Float.mul (Float.of_int (count_char 63 query)) 0.5)
                 (Float.mul (Float.of_int (count_char 65311 query)) 0.5)) /\
  QueryIntent.complexity_score intent = fmin raw 10.0 /\
  (0 <= QueryIntent.complexity_score intent <= 10)%Q /\
  (QueryIntent.requires_decomposition intent = true <-> (threshold <= raw)%Q) /\
  ((threshold <= 10)%Q ->
   (QueryIntent.requires_decomposition intent = true <->
    (threshold <= QueryIntent.complexity_score intent)%Q)).
Proof.
  intros raw intent threshold.
  pose proof (raw_complexity_score_nonneg query) as Hnn. fold raw in Hnn.
  split; [apply raw_complexity_score_sum|].
  split; [done|].
  split.
  { simpl. split; [apply fmin_glb; [done|lra]|].
    eapply Qle_trans; [apply fmin_le_r|]. lra. }
  split; [apply Qle_bool_iff|].
  intros Hth. simpl. rewrite Qle_bool_iff. fold raw threshold.
  split.
  - intros H. apply fmin_glb; [done|lra].
  - intros H. eapply Qle_trans; [exact H|]. apply fmin_le_l.
Qed.

(** The theorem at the default configuration and a short question. *)
Lemma rule_based_complexity_witness :
  QueryIntent.requires_decomposition
    (IntelligentQueryDecomposer._rule_based_intent_analysis
       IntelligentQueryDecomposer.default_config (u8 "比较A和B的优缺点")) = true <->
  (6.0 <= QueryIntent.complexity_score
            (IntelligentQueryDecomposer._rule_based_intent_analysis
               IntelligentQueryDecomposer.default_config (u8 "比较A和B的优缺点")))%Q.
Proof.
  apply (rule_based_complexity IntelligentQueryDecomposer.default_config
           (u8 "比较A和B的优缺点")).
  by vm_compute.
Defined.

(** The sums are the doubles of the code: the question of nine characters
    with one keyword and one connective scores [0.18 + 1.5 + 1.0], the
    float below 2.68, and so stays below a threshold of 2.68; the report
    prints it as 2.7. *)
Example complexity_score_in_double_precision :
  let query := u8 "比较A和B的优缺点" in
  let intent :=
    IntelligentQueryDecomposer._rule_based_intent_analysis
      (IntelligentQueryDecomposer.mkConfig (Float.lit 2.68) 5) query in
  (QueryIntent.complexity_score intent == 377176468792279 # 140737488355328)%Q /\
  (QueryIntent.complexity_score intent < Float.lit 2.68)%Q /\
  QueryIntent.requires_decomposition intent = false /\
  QueryIntent.reasoning intent = u8 "基于规则分析，复杂度评分: 2.7".
Proof. by vm_compute. Qed.

(** Above the documented range the flag follows the sum and not the
    reported score: with the threshold 10.5, a question holding eight of
    the keywords scores 12.34 before the cap; it requires decomposition
    although its reported score, 10, is below the threshold. *)
Example requires_decomposition_above_cap :
  let config := IntelligentQueryDecomposer.mkConfig 10.5 5 in
  let intent :=
    IntelligentQueryDecomposer._rule_based_intent_analysis config
      (u8 "比较对比分析评估总结归纳如何为什么") in
  ~ (QueryIntent.requires_decomposition intent = true <->
     (IntelligentQueryDecomposer.decomposition_threshold config
      <= QueryIntent.complexity_score intent)%Q).
Proof.
  intros config intent [H _].
  assert (QueryIntent.requires_decomposition intent = true) as Hreq by (by vm_compute).
  apply H in Hreq. vm_compute in Hreq. by apply Hreq.
Qed.

(** C6.  When the intent of a question does not require decomposition,
    whichever path produced it, the decomposer returns the question itself
    as its only sub-query, with no dependencies, and the plan [[0]]. *)
Theorem no_decomposition_single_sub_query
    (llm : option IntelligentQueryDecomposer.LLM)
    (config : IntelligentQueryDecomposer.Config) (query : str) :
  let intent := IntelligentQueryDecomposer._analyze_query_intent llm config query in
  QueryIntent.requires_decomposition intent = false ->
  exists sub_query,
    IntelligentQueryDecomposer.analyze_and_decompose llm config query =
      Some (DecompositionResult.mk query intent [sub_query] [0]) /\
    SubQuery.query sub_query = query /\
    SubQuery.depends_on sub_query = None /\
    IntelligentQueryDecomposer.deps_of sub_query = [].
Proof.
  intros intent Hreq.
  exists (SubQuery.mk query (u8 "simple") 1 None false).
  unfold IntelligentQueryDecomposer.analyze_and_decompose.
  fold intent. by rewrite Hreq.
Qed.

Lemma no_decomposition_single_sub_query_witness :
  exists sub_query,
    IntelligentQueryDecomposer.analyze_and_decompose None
      IntelligentQueryDecomposer.default_config (u8 "比较A和B的优缺点") =
      Some (DecompositionResult.mk (u8 "比较A和B的优缺点")
              (IntelligentQueryDecomposer._analyze_query_intent None
                 IntelligentQueryDecomposer.default_config (u8 "比较A和B的优缺点"))
              [sub_query] [0]) /\
    SubQuery.query sub_query = u8 "比较A和B的优缺点" /\
    SubQuery.depends_on sub_query = None /\
    IntelligentQueryDecomposer.deps_of sub_query = [].
Proof.
  apply (no_decomposition_single_sub_query None
           IntelligentQueryDecomposer.default_config (u8 "比较A和B的优缺点")).
  by vm_compute.
Defined.

(** The plan of the three sub-queries the comparative rule emits. *)
Lemma comparative_plan (q0 i0 q1 i1 q2 i2 : str) :
  IntelligentQueryDecomposer._generate_execution_plan
    [SubQuery.mk q0 i0 1 None false; SubQuery.mk q1 i1 1 None false;
     SubQuery.mk q2 i2 2 (Some [0; 1]) true] = Some [0; 1; 2].
Proof. by vm_compute. Qed.

(** C9 as stated fails: on the rule-based path the question scores
    [0.18 + 1.5 + 1.0], the float 2.6799999999999997 below the default
    threshold 6.0, and holds no white space, so that it
    is its own single key concept.  The decomposer returns it as one
    sub-query with the plan [[0]], and the comparative rule, were it
    applied to this intent, would emit no sub-query at all. *)
Lemma compare_A_B_is_not_decomposed :
  let query := u8 "比较A和B的优缺点" in
  let config := IntelligentQueryDecomposer.default_config in
  let intent := IntelligentQueryDecomposer._rule_based_intent_analysis config query in
  IntelligentQueryDecomposer.analyze_and_decompose None config query =
    Some (DecompositionResult.mk query intent
            [SubQuery.mk query (u8 "simple") 1 None false] [0]) /\
  (QueryIntent.complexity_score intent == 377176468792279 # 140737488355328)%Q /\
  QueryIntent.key_concepts intent = [query] /\
  IntelligentQueryDecomposer._decompose_comparative_query query intent = [].
Proof. by vm_compute. Qed.

(** C9 (amended).  On the rule-based path the question "比较A和B的优缺点"
    stays below the default threshold and is returned as one sub-query
    with the plan [[0]].  A question whose intent is comparative, requires
    decomposition and has at least two key concepts [c0], [c1] is
    decomposed into exactly three sub-queries: one for [c0], one for [c1],
    and a comparison that depends on both with [context_needed] set; the
    planner places the comparison last. *)
Theorem comparative_decomposition :
  (let query := u8 "比较A和B的优缺点" in
   let config := IntelligentQueryDecomposer.default_config in
   IntelligentQueryDecomposer.analyze_and_decompose None config query =
     Some (DecompositionResult.mk query
             (IntelligentQueryDecomposer._rule_based_intent_analysis config query)
             [SubQuery.mk query (u8 "simple") 1 None false] [0])) /\
  (forall (config : IntelligentQueryDecomposer.Config) (query c0 c1 : str)
          (rest : list str),
     let intent := IntelligentQueryDecomposer._rule_based_intent_analysis config query in
     QueryIntent.intent_type intent = u8 "comparative" ->
     QueryIntent.requires_decomposition intent = true ->
     QueryIntent.key_concepts intent = c0 :: c1 :: rest ->
     IntelligentQueryDecomposer.analyze_and_decompose None config query =
       Some (DecompositionResult.mk query intent
               [SubQuery.mk (c0 ++ u8 "的特点和属性")
                            (u8 "了解" ++ c0 ++ u8 "的基本信息") 1 None false;
                SubQuery.mk (c1 ++ u8 "的特点和属性")
                            (u8 "了解" ++ c1 ++ u8 "的基本信息") 1 None false;
                SubQuery.mk (c0 ++ u8 "和" ++ c1 ++ u8 "的比较分析")
                            (u8 "比较分析两者的差异") 2 (Some [0; 1]) true]
               [0; 1; 2])).
Proof.
  split; [by vm_compute|].
  intros config query c0 c1 rest intent Htype Hreq Hconcepts.
  unfold IntelligentQueryDecomposer.analyze_and_decompose,
    IntelligentQueryDecomposer._analyze_query_intent.
  fold intent. rewrite Hreq. cbn [negb].
  unfold IntelligentQueryDecomposer._decompose_query,
    IntelligentQueryDecomposer._rule_based_decomposition.
  rewrite decide_True by done.
  unfold IntelligentQueryDecomposer._decompose_comparative_query.
  rewrite Hconcepts.
  assert ((2 <=? len (c0 :: c1 :: rest)) = true) as ->.
  { apply Z.leb_le. unfold len. simpl length. lia. }
  change (slice_to 2 (c0 :: c1 :: rest)) with [c0; c1].
  cbn [map app].
  unfold IntelligentQueryDecomposer.SubQuery_default.
  by rewrite comparative_plan.
Qed.

(** The theorem at a question that the default configuration decomposes:
    its key concepts are its words of more than two characters. *)
Lemma comparative_decomposition_witness :
  let query := u8 "比较分析 Python 与 Java 的性能差异 以及 原因和影响" in
  let config := IntelligentQueryDecomposer.default_config in
  let intent := IntelligentQueryDecomposer._rule_based_intent_analysis config query in
  IntelligentQueryDecomposer.analyze_and_decompose None config query =
    Some (DecompositionResult.mk query intent
            [SubQuery.mk (u8 "比较分析的特点和属性") (u8 "了解比较分析的基本信息") 1 None false;
             SubQuery.mk (u8 "Python的特点和属性") (u8 "了解Python的基本信息") 1 None false;
             SubQuery.mk (u8 "比较分析和Python的比较分析") (u8 "比较分析两者的差异")
                         2 (Some [0; 1]) true]
            [0; 1; 2]).
Proof.
  intros query config intent.
  apply (proj2 comparative_decomposition config query (u8 "比较分析") (u8 "Python")
           [u8 "Java"; u8 "的性能差异"; u8 "原因和影响"]);
    by vm_compute.
Defined.

(* --------------------------------------------------------------------- *)
(** ** The merge step of the hybrid retriever                             *)
(* --------------------------------------------------------------------- *)

Lemma StronglySorted_filter {A} (R : A -> A -> Prop) (P : A -> Prop)
    `{!forall a, Decision (P a)} (l : list A) :
  StronglySorted R l -> StronglySorted R (filter P l).
Proof.
  induction 1 as [|x l Hs IH Hx]; [constructor|].
  rewrite filter_cons. case_decide; [|done].
  constructor; [done|].
  apply List.Forall_forall. intros y Hy%list_elem_of_In.
  apply list_elem_of_filter in Hy as [_ Hy].
  rewrite List.Forall_forall in Hx. by apply Hx, list_elem_of_In.
Qed.

Lemma filter_ext_elem {A} (P Q : A -> Prop) `{!forall a, Decision (P a)}
    `{!forall a, Decision (Q a)} (l : list A) :
  (forall x, x ∈ l -> P x <-> Q x) -> filter P l = filter Q l.
Proof.
  induction l as [|a l IH]; intros Hext; [done|].
  rewrite !filter_cons, IH by (intros x Hx; apply Hext; by right).
  destruct (decide (P a)) as [Hp|Hp], (decide (Q a)) as [Hq|Hq]; try done.
  - exfalso. apply Hq, Hext; [left|done].
  - exfalso. apply Hp, Hext; [left|done].
Qed.

Lemma filter_False {A} (l : list A) : filter (fun _ => False) l = [].
Proof.
  induction l as [|a l IH]; [done|].
  rewrite filter_cons. by destruct (decide False).
Qed.

Section MergeFacts.
Import HybridRetriever.
Variable hash : str -> Z.
Local Abbreviation content_key := (MergeSpec.content_key hash).
Local Abbreviation dedup_from := (MergeSpec.dedup_from hash).
Local Abbreviation descending := SortSpec.descending.

Lemma foldl_dedup_step (l : list Chunk.t) (seen : gset Z) (merged : list Chunk.t) :
  (foldl (dedup_step hash) (seen, merged) l).2 = merged ++ dedup_from seen l.
Proof.
  revert seen merged. induction l as [|r l IH]; intros seen merged; simpl.
  - by rewrite app_nil_r.
  - unfold dedup_step at 2. simpl.
    change (hash (default [] (Chunk.content r))) with (content_key r).
    case_decide; [apply IH|].
    rewrite IH. by rewrite <- app_assoc.
Qed.

Lemma merge_results_unfold (results : list Chunk.t) :
  _merge_results hash results =
  dedup_from ∅ (sort_reverse_by combined_key (map with_combined_score results)).
Proof. unfold _merge_results. by rewrite foldl_dedup_step. Qed.

Lemma dedup_from_sublist (seen : gset Z) (l : list Chunk.t) :
  dedup_from seen l `sublist_of` l.
Proof.
  revert seen. induction l as [|r l IH]; intros seen; simpl; [done|].
  case_decide; [by apply sublist_cons|by apply sublist_skip].
Qed.

(** Of the results with a given key, the loop keeps the first one, unless
    the key was seen before. *)
Lemma dedup_from_filter (h : Z) (seen : gset Z) (l : list Chunk.t) :
  filter (fun r => content_key r = h) (dedup_from seen l) =
  if decide (h ∈ seen) then [] else take 1 (filter (fun r => content_key r = h) l).
Proof.
  revert seen. induction l as [|r l IH]; intros seen; simpl.
  { by case_decide. }
  destruct (decide (content_key r ∈ seen)) as [Hr|Hr].
  - rewrite IH. case_decide as Hh; [done|].
    rewrite (filter_cons _ r). rewrite decide_False; [done|]. congruence.
  - rewrite !(filter_cons _ r), IH.
    destruct (decide (content_key r = h)) as [Heq|Hne].
    + rewrite (decide_True (P := h ∈ {[content_key r]} ∪ seen)) by set_solver.
      rewrite (decide_False (P := h ∈ seen)) by congruence. done.
    + destruct (decide (h ∈ seen)) as [H1|H1].
      * rewrite decide_True by set_solver. done.
      * rewrite decide_False by set_solver. done.
Qed.

Lemma combined_score_of_plain (r : Chunk.t) :
  Chunk.content_category r <> Some (u8 "references") ->
  combined_score_of r =
  Float.mul (default 0%Q (Chunk.score r))
    (Float.add (Float.lit 0.7)
       (Float.mul (Float.lit 0.3) (default 0.5%Q (Chunk.priority_score r)))).
Proof.
  intros H. unfold combined_score_of. case_decide as E; [|done].
  destruct (Chunk.content_category r) as [c|]; simpl in E; [congruence|done].
Qed.

Lemma combined_score_of_references (r : Chunk.t) :
  Chunk.content_category r = Some (u8 "references") ->
  combined_score_of r =
  Float.mul (default 0%Q (Chunk.score r))
    (Float.add (Float.lit 0.7)
       (Float.mul (Float.lit 0.3)
          (Float.mul (default 0.5%Q (Chunk.priority_score r)) (Float.lit 0.3)))).
Proof. intros H. unfold combined_score_of. rewrite H. by rewrite decide_True. Qed.

Lemma content_key_with_combined_score (r : Chunk.t) :
  content_key (with_combined_score r) = content_key r.
Proof. done. Qed.

Lemma combined_key_with_combined_score (r : Chunk.t) :
  combined_key (with_combined_score r) = combined_score_of r.
Proof. done. Qed.

Lemma with_combined_score_idem (r : Chunk.t) :
  with_combined_score (with_combined_score r) = with_combined_score r.
Proof. by destruct r. Qed.

Lemma dedup_from_idem (seen : gset Z) (l : list Chunk.t) :
  dedup_from seen (dedup_from seen l) = dedup_from seen l.
Proof.
  revert seen. induction l as [|r l IH]; intros seen; simpl; [done|].
  destruct (decide (content_key r ∈ seen)) as [Hr|Hr]; [apply IH|].
  simpl. rewrite decide_False by done. by rewrite IH.
Qed.

Lemma StronglySorted_sublist {A} (R : A -> A -> Prop) (l k : list A) :
  l `sublist_of` k -> StronglySorted R k -> StronglySorted R l.
Proof.
  induction 1 as [|x l k Hsub IH|x l k Hsub IH]; intros Hk; [done| |].
  - apply StronglySorted_inv in Hk as [Hk Hx].
    constructor; [by apply IH|].
    rewrite List.Forall_forall in *. intros y Hy%list_elem_of_In.
    apply Hx, list_elem_of_In. by eapply elem_of_sublist.
  - apply StronglySorted_inv in Hk as [Hk _]. by apply IH.
Qed.

Lemma Qltb_irrefl (a : Q) : Qltb a a = false.
Proof. apply Qltb_ge, Qle_refl. Qed.

(** C3.  The merge step gives every hit the combined score
    [retrieval_score * (0.7 + 0.3 * priority_score)], computed in double
    precision, where the priority defaults to 0.5 and is multiplied by 0.3
    for the category [references]; it sorts the hits by descending combined score and keeps,
    for every content hash, exactly the first hit of the sorted list, whose
    combined score is the highest among the hits with that hash; a hit
    merged twice survives once, and merging the merged list again returns
    it unchanged.  When no two distinct contents of the input share a
    hash, exactly the first hit of each content is kept. *)
Theorem merge_results_keeps_first_by_hash (results : list Chunk.t) :
  let sorted := sort_reverse_by combined_key (map with_combined_score results) in
  let merged := _merge_results hash results in
  (forall r,
     Chunk.combined_score (with_combined_score r) = Some (combined_score_of r) /\
     combined_score_of r =
       Float.mul (default 0%Q (Chunk.score r))
         (Float.add (Float.lit 0.7)
            (Float.mul (Float.lit 0.3)
               (if decide (Chunk.content_category r = Some (u8 "references"))
                then Float.mul (default 0.5%Q (Chunk.priority_score r)) (Float.lit 0.3)
                else default 0.5%Q (Chunk.priority_score r))))) /\
  sorted ≡ₚ map with_combined_score results /\
  StronglySorted (descending combined_key) sorted /\
  merged `sublist_of` sorted /\
  (forall h,
     filter (fun r => content_key r = h) merged =
     take 1 (filter (fun r => content_key r = h) sorted)) /\
  (forall kept r,
     kept ∈ merged -> r ∈ sorted -> content_key r = content_key kept ->
     (combined_key r <= combined_key kept)%Q) /\
  (forall r,
     r ∈ results ->
     length (filter (fun x => content_key x = content_key r) merged) = 1%nat) /\
  (forall r, _merge_results hash [r; r] = [with_combined_score r]) /\
  _merge_results hash merged = merged /\
  ((forall r1 r2, r1 ∈ results -> r2 ∈ results ->
      content_key r1 = content_key r2 -> content_of r1 = content_of r2) ->
   forall c,
     filter (fun r => content_of r = c) merged =
     take 1 (filter (fun r => content_of r = c) sorted)).
Proof.
  intros sorted merged.
  assert (merged = dedup_from ∅ sorted) as Hmerged
    by apply merge_results_unfold.
  assert (merged `sublist_of` sorted) as Hsub
    by (rewrite Hmerged; apply dedup_from_sublist).
  assert (forall h,
    filter (fun r => content_key r = h) merged =
    take 1 (filter (fun r => content_key r = h) sorted)) as Hfirst.
  { intros h. unfold merged. rewrite merge_results_unfold.
    rewrite dedup_from_filter. by rewrite decide_False by set_solver. }
  assert (StronglySorted (descending combined_key) sorted) as Hsorted
    by apply sort_reverse_by_sorted.
  split.
  { intros r. split; [done|]. case_decide as E.
    - by apply combined_score_of_references.
    - by apply combined_score_of_plain. }
  split; [apply sort_reverse_by_perm|].
  split; [done|].
  split; [done|].
  split; [done|].
  split; [|split; [|split; [|split]]].
  - intros kept r Hkept Hr Hkey.
    assert (kept ∈ filter (fun r => content_key r = content_key kept) merged) as Hk.
    { by apply list_elem_of_filter. }
    rewrite Hfirst in Hk.
    assert (r ∈ filter (fun r => content_key r = content_key kept) sorted) as Hr'.
    { by apply list_elem_of_filter. }
    pose proof (StronglySorted_filter _ (fun r => content_key r = content_key kept)
                  _ Hsorted) as Hs.
    destruct (filter (fun r => content_key r = content_key kept) sorted)
      as [|first rest]; [by apply elem_of_nil in Hr'|].
    simpl in Hk. apply list_elem_of_singleton in Hk as ->.
    apply elem_of_cons in Hr' as [->|Hr']; [apply Qle_refl|].
    apply StronglySorted_inv in Hs as [_ Hall].
    rewrite List.Forall_forall in Hall. by apply Hall, list_elem_of_In.
  - intros r Hr. rewrite Hfirst.
    assert (with_combined_score r ∈
            filter (fun x => content_key x = content_key r) sorted) as Hin.
    { apply list_elem_of_filter. split; [done|].
      unfold sorted. rewrite sort_reverse_by_perm. by apply list_elem_of_fmap_2. }
    by destruct (filter (fun x => content_key x = content_key r) sorted);
      [apply elem_of_nil in Hin|].
  - intros r. rewrite merge_results_unfold.
    cbn [map]. unfold sort_reverse_by, stable_sort. cbn [foldr insert_stable].
    rewrite Qltb_irrefl. cbn [dedup_from].
    rewrite decide_False by set_solver. by rewrite decide_True by set_solver.
  - rewrite merge_results_unfold.
    assert (map with_combined_score merged = merged) as ->.
    { rewrite <- (list_fmap_id merged) at 2. apply list_fmap_ext.
      intros i x Hx%list_elem_of_lookup_2.
      assert (x ∈ sorted) as Hxs by (by eapply elem_of_sublist).
      unfold sorted in Hxs. rewrite sort_reverse_by_perm in Hxs.
      apply list_elem_of_fmap in Hxs as (r & -> & _).
      apply with_combined_score_idem. }
    rewrite sort_reverse_by_of_sorted.
    + rewrite Hmerged. apply dedup_from_idem.
    + apply StronglySorted_Sorted. by eapply StronglySorted_sublist.
  - intros Hinj c.
    assert (forall x, x ∈ sorted -> exists r, r ∈ results /\ x = with_combined_score r)
      as Hfrom.
    { intros x Hx. unfold sorted in Hx. rewrite sort_reverse_by_perm in Hx.
      apply list_elem_of_fmap in Hx as (r & -> & Hr). eauto. }
    destruct (decide (Exists (fun r0 => content_of r0 = c) results))
      as [(r0 & Hr0 & Hc)%Exists_exists|Hnex].
    2: assert (forall r, r ∈ results -> content_of r <> c) as Hnone
         by (intros r Hr Hrc; apply Hnex, Exists_exists; eauto).
    + assert (forall x, x ∈ sorted -> content_of x = c <-> content_key x = hash c)
        as Hiff.
      { intros x (r & Hr & ->)%Hfrom. split.
        - intros <-. done.
        - intros Hk. change (content_of r = c). rewrite <- Hc.
          apply (Hinj r r0 Hr Hr0).
          change (content_key r = hash (content_of r0)). by rewrite Hc. }
      rewrite (filter_ext_elem _ (fun r => content_key r = hash c) merged).
      * rewrite (filter_ext_elem _ (fun r => content_key r = hash c) sorted) by done.
        apply Hfirst.
      * intros x Hx. apply Hiff. by eapply elem_of_sublist.
    + rewrite (filter_ext_elem _ (fun _ => False) merged).
      * rewrite (filter_ext_elem _ (fun _ => False) sorted).
        { by rewrite !filter_False. }
        intros x (r & Hr & ->)%Hfrom. split; [|done].
        intros Hx. by apply (Hnone r).
      * intros x Hx. assert (x ∈ sorted) as (r & Hr & ->)%Hfrom
          by (by eapply elem_of_sublist).
        split; [|done]. intros Hx'. by apply (Hnone r).
Qed.

End MergeFacts.

(** Three hits of which two share their content: the one with the lower
    combined score is dropped, and the rest is in descending order. *)
Example merge_three_hits :
  HybridRetriever._merge_results sum_hash
    [hit (u8 "x") 1.0; hit (u8 "y") 3.0; hit (u8 "x") 2.0] =
  [with_combined_score (hit (u8 "y") 3.0); with_combined_score (hit (u8 "x") 2.0)].
Proof. by vm_compute. Qed.

(** The combined scores are the doubles of the code.  A hit with score
    1.0 and priority 0.3 gets [1.0 * (0.7 + 0.3 * 0.3)], the float
    0.7899999999999999, and a hit with score 0.79 and priority 1.0 gets
    0.79: the second hit is placed first, although the two products are
    equal as real numbers.  Of two such hits with one content the second
    is the one that is kept. *)
Example merge_in_double_precision :
  let a c :=
    Chunk.mk (Some c) None (Some 1.0%Q) (Some (Float.lit 0.3)) None None None None
             None None None None None None in
  let b c :=
    Chunk.mk (Some c) None (Some (Float.lit 0.79)) (Some 1.0%Q) None None None None
             None None None None None None in
  (HybridRetriever.combined_score_of (a (u8 "a"))
   == 7115687411245383 # 9007199254740992)%Q /\
  (HybridRetriever.combined_score_of (b (u8 "b")) == Float.lit 0.79)%Q /\
  (HybridRetriever.combined_score_of (a (u8 "a"))
   < HybridRetriever.combined_score_of (b (u8 "b")))%Q /\
  HybridRetriever._merge_results sum_hash [a (u8 "a"); b (u8 "b")] =
    [with_combined_score (b (u8 "b")); with_combined_score (a (u8 "a"))] /\
  HybridRetriever._merge_results sum_hash [a (u8 "c"); b (u8 "c")] =
    [with_combined_score (b (u8 "c"))].
Proof. by vm_compute. Qed.

(* --------------------------------------------------------------------- *)
(** ** The reranker                                                       *)
(* --------------------------------------------------------------------- *)

Section RerankFacts.
Import Reranker.
Variable rerank_model : option (str -> str -> option Q).
Variable ln : positive -> Q.
Variable _extract_keywords : str -> list str.
Variable _calculate_keyword_position_bonus : list str -> str -> Q.
Variable _calculate_keyword_frequency_bonus : list str -> str -> Q.
Local Abbreviation semantic_score_of := (RerankSpec.semantic_score_of rerank_model).
Local Abbreviation keyword_sub_score :=
  (RerankSpec.keyword_sub_score _extract_keywords _calculate_keyword_position_bonus
     _calculate_keyword_frequency_bonus).
Local Abbreviation weighted_score :=
  (RerankSpec.weighted_score rerank_model ln _extract_keywords
     _calculate_keyword_position_bonus _calculate_keyword_frequency_bonus).
Local Abbreviation scored :=
  (RerankSpec.scored rerank_model ln _extract_keywords
     _calculate_keyword_position_bonus _calculate_keyword_frequency_bonus).
Local Abbreviation descending := SortSpec.descending.

Lemma at_index_map {A} (f : A -> Q) (l : list A) (i : nat) (x : A) :
  l !! i = Some x -> at_index (map f l) i = f x.
Proof.
  intros H. unfold at_index. change (map f l) with (f <$> l).
  by rewrite list_lookup_fmap, H.
Qed.

Lemma semantic_scores_at (query : str) (results : list Chunk.t) (i : nat) (r : Chunk.t) :
  results !! i = Some r ->
  at_index (_calculate_semantic_scores rerank_model query results) i =
  semantic_score_of query results r.
Proof.
  intros Hr. unfold _calculate_semantic_scores, semantic_score_of, original_scores.
  pose proof (at_index_map (fun r => default 0.0%Q (Chunk.score r)) _ _ _ Hr) as Horig.
  destruct rerank_model as [model|]; [|done].
  destruct (mapM _ results) as [sims|] eqn:E.
  - rewrite decide_True.
    + apply mapM_Some_1 in E.
      destruct (Forall2_lookup_l _ _ _ _ _ E Hr) as (y & Hy & ->).
      unfold at_index. by rewrite Hy.
    + unfold model_encodes.
      apply (mapM_is_Some (fun r => model query (default [] (Chunk.content r)))).
      by rewrite E.
  - rewrite decide_False; [done|].
    unfold model_encodes.
    intros H%(mapM_is_Some (fun r => model query (default [] (Chunk.content r)))).
    rewrite E in H. by destruct H.
Qed.

(** [rerank] attaches the scores and sorts. *)
Lemma rerank_unfold (query : str) (results : list Chunk.t) :
  rerank rerank_model ln _extract_keywords _calculate_keyword_position_bonus
    _calculate_keyword_frequency_bonus query results =
  sort_reverse_by rerank_key (map (scored query results) results).
Proof.
  unfold rerank. destruct results as [|r0 rs] eqn:E; [done|]. rewrite <- E.
  f_equal. rewrite <- imap_const. apply imap_ext. intros i r Hr.
  unfold const, scored, weighted_score.
  rewrite (semantic_scores_at _ _ _ _ Hr).
  unfold _calculate_keyword_scores, _calculate_content_type_scores,
    _calculate_position_scores.
  rewrite (at_index_map (position_score_of ln) _ _ _ Hr).
  rewrite (at_index_map (fun r => content_type_weights_get
                                    (default (u8 "text") (Chunk.chunk_type r))) _ _ _ Hr).
  rewrite (at_index_map
             (fun r => keyword_score_of _extract_keywords
                         _calculate_keyword_position_bonus
                         _calculate_keyword_frequency_bonus
                         (_extract_keywords query) (default [] (Chunk.content r)))
             _ _ _ Hr).
  done.
Qed.

(** Encoding reads the content only, and not the order of the candidates. *)
Lemma model_encodes_sorted_map (model : str -> str -> option Q) (query : str)
    (f : Chunk.t -> Chunk.t) (results : list Chunk.t) :
  (forall r, Chunk.content (f r) = Chunk.content r) ->
  model_encodes model query (sort_reverse_by rerank_key (map f results)) <->
  model_encodes model query results.
Proof.
  intros Hf. unfold model_encodes. rewrite sort_reverse_by_perm.
  change (map f results) with (f <$> results).
  rewrite Forall_fmap. apply Forall_proper; [|done].
  intros r. simpl. by rewrite Hf.
Qed.

Lemma semantic_score_of_scored (query : str) (results : list Chunk.t) (r : Chunk.t) :
  semantic_score_of query
    (sort_reverse_by rerank_key (map (scored query results) results))
    (scored query results r) =
  semantic_score_of query results r.
Proof.
  unfold RerankSpec.semantic_score_of. destruct rerank_model as [model|]; [|done].
  match goal with
  | |- context [sort_reverse_by rerank_key (map ?f results)] =>
    pose proof (model_encodes_sorted_map model query f results (fun _ => eq_refl))
      as Hiff
  end.
  destruct (decide (model_encodes model query results)) as [H|H].
  - rewrite decide_True by (by apply Hiff). done.
  - rewrite decide_False; [done|]. intros H'. by apply H, Hiff.
Qed.

(** Scoring a candidate that carries its scores changes nothing. *)
Lemma scored_idem (query : str) (results : list Chunk.t) (r : Chunk.t) :
  scored query (sort_reverse_by rerank_key (map (scored query results) results))
    (scored query results r) =
  scored query results r.
Proof.
  unfold scored at 1. unfold weighted_score at 1.
  rewrite semantic_score_of_scored. done.
Qed.

(** C4.  The reranker returns its candidates, each with its sub-scores
    and their weighted sum [semantic*0.4 + keyword*0.3 + content_type*0.2
    + position*0.1], computed in double precision from left to right,
    attached and none dropped or added, in descending order of the
    weighted sum, candidates of equal sum in the order they had in the
    input; reranking the output again returns it unchanged. *)
Theorem rerank_is_stable_sorted_permutation (query : str) (results : list Chunk.t) :
  let rerank' :=
    rerank rerank_model ln _extract_keywords _calculate_keyword_position_bonus
      _calculate_keyword_frequency_bonus query in
  let reranked := rerank' results in
  map without_rerank_scores reranked ≡ₚ map without_rerank_scores results /\
  reranked ≡ₚ map (scored query results) results /\
  (forall r,
     r ∈ reranked ->
     exists semantic keyword content_type position,
       Chunk.semantic_score r = Some semantic /\
       Chunk.keyword_score r = Some keyword /\
       Chunk.content_type_score r = Some content_type /\
       Chunk.position_score r = Some position /\
       Chunk.rerank_score r =
         Some (Float.add
                 (Float.add
                    (Float.add (Float.mul semantic (Float.lit 0.4))
                               (Float.mul keyword (Float.lit 0.3)))
                    (Float.mul content_type (Float.lit 0.2)))
                 (Float.mul position (Float.lit 0.1)))) /\
  StronglySorted (descending rerank_key) reranked /\
  (forall v,
     filter (fun r => rerank_key r == v)%Q reranked =
     filter (fun r => rerank_key r == v)%Q (map (scored query results) results)) /\
  rerank' reranked = reranked.
Proof.
  intros rerank' reranked.
  assert (reranked = sort_reverse_by rerank_key (map (scored query results) results))
    as Hr by apply rerank_unfold.
  assert (reranked ≡ₚ map (scored query results) results) as Hperm
    by (rewrite Hr; apply sort_reverse_by_perm).
  split.
  { rewrite Hperm.
    change (map without_rerank_scores (map (scored query results) results))
      with (without_rerank_scores <$> (scored query results <$> results)).
    by rewrite <- list_fmap_compose. }
  split; [done|].
  split.
  { intros r Hin. rewrite Hperm in Hin.
    apply list_elem_of_fmap in Hin as (r0 & -> & _).
    by eexists _, _, _, _. }
  split; [rewrite Hr; apply sort_reverse_by_sorted|].
  split; [intros v; rewrite Hr; apply sort_reverse_by_stable|].
  unfold rerank'. rewrite rerank_unfold. fold rerank'. fold reranked.
  assert (map (scored query reranked) reranked = reranked) as ->.
  { rewrite <- (list_fmap_id reranked) at 3. apply list_fmap_ext.
    intros i x Hx%list_elem_of_lookup_2. rewrite Hperm in Hx.
    apply list_elem_of_fmap in Hx as (r0 & -> & _).
    rewrite Hr. apply scored_idem. }
  rewrite Hr. apply sort_reverse_by_idem.
Qed.

(** C10.  A candidate whose [chunk_type] is none of [text], [table] and
    [image] gets the content-type sub-score 0.5, which is below the weight
    of each of the three types; a candidate without [chunk_type] counts as
    [text] and gets 1.0. *)
Theorem content_type_score_default (results : list Chunk.t) (i : nat) (r : Chunk.t) :
  results !! i = Some r ->
  (forall t,
     Chunk.chunk_type r = Some t ->
     t <> u8 "text" -> t <> u8 "table" -> t <> u8 "image" ->
     _calculate_content_type_scores results !! i = Some 0.5%Q) /\
  (Chunk.chunk_type r = None ->
   _calculate_content_type_scores results !! i = Some 1.0%Q) /\
  (0.5 < content_type_weights_get (u8 "image") /\
   content_type_weights_get (u8 "image") < content_type_weights_get (u8 "table") /\
   content_type_weights_get (u8 "table") < content_type_weights_get (u8 "text"))%Q.
Proof.
  intros Hr. unfold _calculate_content_type_scores.
  change (map ?f results) with (f <$> results).
  rewrite list_lookup_fmap, Hr. simpl.
  split; [|split].
  - intros t -> H1 H2 H3. simpl. unfold content_type_weights_get.
    by rewrite !decide_False.
  - intros ->. done.
  - by vm_compute.
Qed.

Lemma content_type_score_default_witness :
  let r := Chunk.mk (Some (u8 "x")) (Some (u8 "audio")) None None None None None None
                    None None None None None None in
  _calculate_content_type_scores [r] !! 0%nat = Some 0.5%Q.
Proof.
  intros r.
  apply (proj1 (content_type_score_default [r] 0 r eq_refl) (u8 "audio"));
    by vm_compute.
Defined.

End RerankFacts.

(** The weighted sums are the doubles of the code.  For an empty query,
    no embedding model and two candidates on page 1, one of an unknown
    type with score 0.625 and a text with score 0.375, both sums are 0.45
    as real numbers; the code computes 0.44999999999999996 for the first
    and 0.45000000000000007 for the second and places the second first. *)
Example rerank_in_double_precision :
  let a := Chunk.mk (Some (u8 "a")) (Some (u8 "audio")) (Some 0.625%Q) None None None None
                    None None None None None None None in
  let b := Chunk.mk (Some (u8 "b")) (Some (u8 "text")) (Some 0.375%Q) None None None None
                    None None None None None None None in
  let reranked :=
    Reranker.rerank None (fun _ => 0%Q) (fun _ => []) (fun _ _ => 0.0%Q)
      (fun _ _ => 0.0%Q) [] [a; b] in
  map Chunk.content reranked = [Some (u8 "b"); Some (u8 "a")] /\
  map Chunk.rerank_score reranked =
    [Some (4053239664633447 # 9007199254740992)%Q;
     Some (2026619832316723 # 4503599627370496)%Q].
Proof. by vm_compute. Qed.

(* --------------------------------------------------------------------- *)
(** ** The multi-step executor                                            *)
(* --------------------------------------------------------------------- *)

Lemma getitem_ok {A} (l : list A) (i : Z) :
  - len l <= i < len l -> exists a, getitem l i = Ok a.
Proof.
  intros Hi. unfold getitem.
  set (j := if 0 <=? i then i else len l + i).
  assert (0 <= j < len l) as Hj.
  { unfold j. destruct (Z.leb_spec 0 i); lia. }
  rewrite (proj2 (Z.leb_le 0 j)) by lia.
  destruct (lookup_lt_is_Some_2 l (Z.to_nat j)) as [a ->]; [unfold len in Hj; lia|].
  eauto.
Qed.

Lemma getitem_ok_inv {A} (l : list A) (i : Z) (a : A) :
  getitem l i = Ok a -> - len l <= i.
Proof.
  unfold getitem. destruct (Z.leb_spec 0 i) as [Hi|Hi].
  - pose proof (len_nonneg l). lia.
  - destruct (Z.leb_spec 0 (len l + i)); [lia|done].
Qed.

Section ExecutorFacts.
Import MultiStepQueryExecutor.
Variable Retriever : Type.
Variable retrieve : Retriever -> str -> Retriever * result (list Chunk.t).
Variable config : Config.

Lemma execute_step_ok (decomposition : DecompositionResult.t) (st : State Retriever)
    (step query_idx : Z) :
  - len (DecompositionResult.sub_queries decomposition) <= query_idx ->
  exists st', execute_step Retriever retrieve config decomposition st (step, query_idx)
              = Ok st'.
Proof.
  intros Hidx. unfold execute_step.
  destruct (Z.leb_spec (len (DecompositionResult.sub_queries decomposition)) query_idx)
    as [Hge|Hlt]; [eauto|].
  destruct (getitem_ok (DecompositionResult.sub_queries decomposition) query_idx)
    as [sub_query ->]; [lia|].
  simpl. destruct (retrieve _ _) as [retriever' [results|e]]; simpl; eauto.
Qed.

Lemma execute_steps_ok (decomposition : DecompositionResult.t) (steps : list (Z * Z))
    (st : State Retriever) :
  (forall s, s ∈ steps ->
     - len (DecompositionResult.sub_queries decomposition) <= s.2) ->
  exists st', execute_steps Retriever retrieve config decomposition steps st = Ok st'.
Proof.
  revert st. induction steps as [|[step query_idx] steps IH]; intros st Hsteps;
    cbn [execute_steps].
  - eauto.
  - destruct (execute_step_ok decomposition st step query_idx) as [st1 ->].
    { apply (Hsteps (step, query_idx)). left. }
    cbn [bind]. apply IH. intros s Hs. apply Hsteps. by right.
Qed.

(** The only exception that leaves a step is the [IndexError] of
    [sub_queries[query_idx]]: what the retriever raises is caught. *)
Lemma execute_step_raises (decomposition : DecompositionResult.t) (st : State Retriever)
    (step query_idx : Z) (e : exn) :
  execute_step Retriever retrieve config decomposition st (step, query_idx) = Raise e ->
  e = IndexError /\
  query_idx < - len (DecompositionResult.sub_queries decomposition).
Proof.
  unfold execute_step.
  destruct (Z.leb_spec (len (DecompositionResult.sub_queries decomposition)) query_idx)
    as [Hge|Hlt]; [done|].
  destruct (getitem _ query_idx) as [sub_query|e'] eqn:Hget; simpl.
  - destruct (retrieve _ _) as [retriever' [results|e']]; done.
  - intros [= <-]. unfold getitem in Hget.
    destruct (Z.leb_spec 0 query_idx) as [H0|H0].
    + rewrite (proj2 (Z.leb_le 0 query_idx)) in Hget by done.
      destruct (lookup_lt_is_Some_2 (DecompositionResult.sub_queries decomposition)
                  (Z.to_nat query_idx)) as [a Ha]; [unfold len in Hlt; lia|].
      by rewrite Ha in Hget.
    + destruct (Z.leb_spec 0 (len (DecompositionResult.sub_queries decomposition)
                              + query_idx)) as [H1|H1].
      * destruct (lookup_lt_is_Some_2 (DecompositionResult.sub_queries decomposition)
                    (Z.to_nat (len (DecompositionResult.sub_queries decomposition)
                               + query_idx))) as [a Ha]; [unfold len in *; lia|].
        by rewrite Ha in Hget.
      * injection Hget as <-. split; [done|lia].
Qed.

Lemma execute_steps_raises (decomposition : DecompositionResult.t) (steps : list (Z * Z))
    (st : State Retriever) (e : exn) :
  execute_steps Retriever retrieve config decomposition steps st = Raise e ->
  e = IndexError /\
  exists s, s ∈ steps /\ s.2 < - len (DecompositionResult.sub_queries decomposition).
Proof.
  revert st. induction steps as [|[step query_idx] steps IH]; intros st Hrun;
    cbn [execute_steps] in Hrun; [done|].
  destruct (execute_step _ _ _ _ st _) as [st1|e'] eqn:Hstep; cbn [bind] in Hrun.
  - destruct (IH st1 Hrun) as (-> & s & Hs & Hlt).
    split; [done|]. exists s. split; [by right|done].
  - injection Hrun as ->. apply execute_step_raises in Hstep as [-> Hlt].
    split; [done|]. exists (step, query_idx). split; [left|done].
Qed.

(** A step whose retrieval call returns records its results under the
    index of the sub-query and appends them to the accumulator. *)
Lemma successful_step_is_recorded (decomposition : DecompositionResult.t)
    (st : State Retriever) (step query_idx : Z) (sub_query : SubQuery.t)
    (retriever' : Retriever) (results : list Chunk.t) :
  query_idx < len (DecompositionResult.sub_queries decomposition) ->
  getitem (DecompositionResult.sub_queries decomposition) query_idx = Ok sub_query ->
  retrieve (retriever st)
    (_build_query_context config (execution_context st) sub_query query_idx)
    = (retriever', Ok results) ->
  execute_step Retriever retrieve config decomposition st (step, query_idx) =
  Ok (mkState retriever'
        (<[query_idx := mkEntry (SubQuery.query sub_query) results step]>
           (execution_context st))
        (accumulated_results st ++ results)).
Proof.
  intros Hlt Hget Hret. unfold execute_step.
  rewrite (proj2 (Z.leb_gt _ _)) by done.
  rewrite Hget. simpl. by rewrite Hret.
Qed.

(** The keys of the execution context are indices that were used on the
    list of sub-queries. *)
Lemma execute_steps_context_keys (decomposition : DecompositionResult.t)
    (steps : list (Z * Z)) (st st' : State Retriever) :
  execute_steps Retriever retrieve config decomposition steps st = Ok st' ->
  (forall k, is_Some (execution_context st !! k) ->
     - len (DecompositionResult.sub_queries decomposition) <= k
       < len (DecompositionResult.sub_queries decomposition)) ->
  forall k, is_Some (execution_context st' !! k) ->
    - len (DecompositionResult.sub_queries decomposition) <= k
      < len (DecompositionResult.sub_queries decomposition).
Proof.
  revert st. induction steps as [|[step query_idx] steps IH]; intros st Hrun Hst;
    cbn [execute_steps] in Hrun.
  { by injection Hrun as <-. }
  destruct (execute_step _ _ _ _ st _) as [st1|e] eqn:Hstep; [|done].
  cbn [bind] in Hrun. apply (IH st1 Hrun).
  unfold execute_step in Hstep.
  destruct (Z.leb_spec (len (DecompositionResult.sub_queries decomposition)) query_idx)
    as [Hge|Hlt]; [by injection Hstep as <-|].
  destruct (getitem _ query_idx) as [sub_query|e] eqn:Hget; [|done].
  apply getitem_ok_inv in Hget. simpl in Hstep.
  destruct (retrieve _ _) as [retriever' [results|e]]; simpl in Hstep;
    injection Hstep as <-; simpl; [|done].
  intros k. rewrite lookup_insert_is_Some. intros [<-|[_ Hk]]; [lia|by apply Hst].
Qed.

(** C7.  When the retrieval call of a step raises, the step leaves the
    execution context and the accumulator as they were and the loop goes
    on with the remaining steps; whatever the retriever raises, a plan
    whose indices can be used on the list of sub-queries is executed to
    its end and the fused results are returned; and the only exception
    that can leave the call is the [IndexError] of a plan index below
    [-len(sub_queries)]. *)
Theorem failed_step_is_skipped (decomposition : DecompositionResult.t)
    (st : State Retriever) (step query_idx : Z) (sub_query : SubQuery.t)
    (retriever' : Retriever) (e : exn) (rest : list (Z * Z)) :
  query_idx < len (DecompositionResult.sub_queries decomposition) ->
  getitem (DecompositionResult.sub_queries decomposition) query_idx = Ok sub_query ->
  retrieve (retriever st)
    (_build_query_context config (execution_context st) sub_query query_idx)
    = (retriever', Raise e) ->
  let st' := mkState retriever' (execution_context st) (accumulated_results st) in
  execute_step Retriever retrieve config decomposition st (step, query_idx) = Ok st' /\
  execute_steps Retriever retrieve config decomposition ((step, query_idx) :: rest) st =
    execute_steps Retriever retrieve config decomposition rest st' /\
  (plan_indexable decomposition ->
   forall r, exists final results,
     execute_decomposed_query Retriever retrieve config r decomposition
     = Ok (final, results)) /\
  (forall r e',
     execute_decomposed_query Retriever retrieve config r decomposition = Raise e' ->
     e' = IndexError /\
     exists idx,
       idx ∈ DecompositionResult.execution_plan decomposition /\
       idx < - len (DecompositionResult.sub_queries decomposition)).
Proof.
  intros Hlt Hget Hraise st'.
  assert (execute_step Retriever retrieve config decomposition st (step, query_idx)
          = Ok st') as Hstep.
  { unfold execute_step.
    rewrite (proj2 (Z.leb_gt _ _)) by done.
    rewrite Hget. simpl. by rewrite Hraise. }
  split; [done|]. split; [cbn [execute_steps]; by rewrite Hstep|]. split.
  - intros Hplan r. unfold execute_decomposed_query.
    destruct (execute_steps_ok decomposition
                (enumerate (DecompositionResult.execution_plan decomposition))
                (mkState r ∅ [])) as [final ->].
    + intros [i idx] Hin. apply Hplan. unfold enumerate in Hin.
      by apply elem_of_zip_r in Hin.
    + simpl. eauto.
  - intros r e' Hrun. unfold execute_decomposed_query in Hrun.
    destruct (execute_steps _ _ _ _ _ _) as [final|e''] eqn:Hsteps; [done|].
    injection Hrun as ->.
    apply execute_steps_raises in Hsteps as (-> & [i idx] & Hin & Hidx).
    split; [done|]. exists idx. split; [|done].
    unfold enumerate in Hin. by apply elem_of_zip_r in Hin.
Qed.

End ExecutorFacts.

(** Three steps of which the second times out: the retriever is called
    three times, the context holds the first and the third step, and the
    third query carries the context of the first step alone. *)
Example one_failing_step_of_three :
  match
    MultiStepQueryExecutor.execute_decomposed_query nat flaky_retrieve
      MultiStepQueryExecutor.default_config 0%nat three_step_decomposition
  with
  | Ok (final, results) =>
    MultiStepQueryExecutor.retriever final = 3%nat /\
    dom (MultiStepQueryExecutor.execution_context final) = {[0; 2]} /\
    results =
      [hit (u8 "about alpha") 1.0;
       hit (u8 "about 相关信息: about alpha" ++ [10; 10]%N ++ u8 "基于以上信息，both") 1.0]
  | Raise _ => False
  end.
Proof. by vm_compute. Qed.

(** The theorem at a retriever whose backend is down, for a plan of one
    step. *)
Lemma failed_step_is_skipped_witness :
  let retrieve := fun (_ : unit) (_ : str) =>
    (tt, Raise (A := list Chunk.t) (RetrieverError (u8 "backend down"))) in
  let config := MultiStepQueryExecutor.default_config in
  let sub_query := SubQuery.mk (u8 "q") (u8 "simple") 1 None false in
  let decomposition :=
    DecompositionResult.mk (u8 "q")
      (QueryIntent.mk (u8 "simple") 0.2 [] (u8 "factual") false []) [sub_query] [0] in
  let st := MultiStepQueryExecutor.mkState tt ∅ [] in
  MultiStepQueryExecutor.execute_step unit retrieve config decomposition st (0, 0)
    = Ok st /\
  MultiStepQueryExecutor.execute_decomposed_query unit retrieve config tt decomposition
    = Ok (st, []).
Proof.
  intros retrieve config sub_query decomposition st.
  destruct (failed_step_is_skipped unit retrieve config decomposition st 0 0 sub_query
              tt (RetrieverError (u8 "backend down")) [])
    as (Hstep & _ & _ & _); [by vm_compute|by vm_compute|by vm_compute|].
  split; [exact Hstep|]. by vm_compute.
Defined.

(* --------------------------------------------------------------------- *)
(** ** The result synthesizer                                             *)
(* --------------------------------------------------------------------- *)

Section SynthesizerFacts.
Import ResultSynthesizer.
Variable llm : option (str -> ChatOutcome).
Variable config : Config.
Variable _llm_generate_simple_answer : str -> list Chunk.t -> str.

Lemma collect_parts_nothing {A} (body : A -> result (list str)) (l : list A) :
  (forall a, a ∈ l -> body a = Ok []) -> collect_parts body l = Ok [].
Proof.
  induction l as [|a l IH]; intros Hbody; cbn [collect_parts]; [done|].
  rewrite (Hbody a) by left. cbn [bind].
  rewrite IH; [done|]. intros b Hb. apply Hbody. by right.
Qed.

Section EmptyCorpus.
Variable decomposition : DecompositionResult.t.
Variable sub_results : gmap Z (list Chunk.t).
Hypothesis Hempty : all_empty sub_results.
Hypothesis Hkeys : keys_index decomposition sub_results.

Lemma comparative_step_nothing (query_idx : Z) :
  comparative_step decomposition sub_results query_idx = Ok [].
Proof.
  unfold comparative_step.
  destruct (sub_results !! query_idx) as [results|] eqn:E; [|done].
  rewrite (Hempty _ _ E).
  destruct (getitem_ok (DecompositionResult.sub_queries decomposition) query_idx)
    as [sub_query ->]; [apply Hkeys; by rewrite E|].
  done.
Qed.

Lemma multi_aspect_step_nothing (query_idx : Z) :
  multi_aspect_step decomposition sub_results query_idx = Ok [].
Proof.
  unfold multi_aspect_step.
  destruct (sub_results !! query_idx) as [results|] eqn:E; [|done].
  rewrite (Hempty _ _ E).
  destruct (query_idx <? _); [|done].
  destruct (getitem_ok (DecompositionResult.sub_queries decomposition) query_idx)
    as [sub_query ->]; [apply Hkeys; by rewrite E|].
  done.
Qed.

Lemma general_step_nothing (query_idx : Z) :
  general_step sub_results query_idx = Ok [].
Proof.
  unfold general_step.
  destruct (sub_results !! query_idx) as [results|] eqn:E; [|done].
  by rewrite (Hempty _ _ E).
Qed.

(** Without a hit the rule-based synthesis has no part to join. *)
Lemma rule_based_synthesize_nothing (original_query : str) :
  _rule_based_synthesize original_query decomposition sub_results
  = Ok sorry_cannot_answer.
Proof.
  unfold _rule_based_synthesize.
  assert (_synthesize_comparative_results decomposition sub_results = Ok []) as Hc.
  { unfold _synthesize_comparative_results.
    rewrite collect_parts_nothing by (intros; apply comparative_step_nothing).
    cbn [bind].
    destruct (last _) as [last_idx|]; [|done].
    destruct (sub_results !! last_idx) as [results|] eqn:E; [|done].
    by rewrite (Hempty _ _ E). }
  assert (_synthesize_multi_aspect_results decomposition sub_results = Ok []) as Hm.
  { unfold _synthesize_multi_aspect_results.
    apply collect_parts_nothing. intros. apply multi_aspect_step_nothing. }
  assert (_synthesize_general_results decomposition sub_results = Ok []) as Hg.
  { unfold _synthesize_general_results.
    apply collect_parts_nothing. intros. apply general_step_nothing. }
  repeat case_decide; by rewrite ?Hc, ?Hm, ?Hg.
Qed.

(** The prompt of the synthesis is built without an exception. *)
Lemma prompt_steps_ok (steps : list (Z * Z)) :
  exists body, prompt_steps decomposition sub_results steps = Ok body.
Proof.
  induction steps as [|[i query_idx] steps [rest IH]]; cbn [prompt_steps]; [by eexists|].
  assert (exists lines,
            prompt_step decomposition sub_results (i, query_idx) = Ok lines)
    as [lines ->].
  { unfold prompt_step.
    destruct (sub_results !! query_idx) as [results|] eqn:E; [|by eexists].
    destruct (query_idx <? _); [|by eexists].
    destruct (getitem_ok (DecompositionResult.sub_queries decomposition) query_idx)
      as [sub_query ->]; [apply Hkeys; by rewrite E|].
    by eexists. }
  rewrite IH. by eexists.
Qed.

Lemma build_synthesis_prompt_ok (original_query : str) :
  exists prompt,
    _build_synthesis_prompt config original_query decomposition sub_results = Ok prompt.
Proof.
  unfold _build_synthesis_prompt.
  destruct (prompt_steps_ok (enumerate (DecompositionResult.execution_plan decomposition)))
    as [body ->].
  by eexists.
Qed.

(** C8 (amended).  On an empty corpus the synthesizer does not raise.
    With at most one step recorded it returns the fixed text "no relevant
    information found"; with two or more steps and no language model it
    returns the fixed text "no relevant information found to answer your
    question"; both texts are non-empty.  With two or more steps and a
    language model, the prompt is built and sent: when the model replies
    with an assistant message the synthesizer returns that reply,
    stripped and post-processed, whatever it is; when the call fails or
    yields no assistant message it returns the second fixed text. *)
Theorem synthesize_on_empty_corpus (original_query : str) :
  exists answer,
    synthesize_results llm config _llm_generate_simple_answer
      original_query decomposition sub_results = Ok answer /\
    ((size sub_results <= 1)%nat -> answer = sorry_nothing_found) /\
    ((2 <= size sub_results)%nat -> llm = None -> answer = sorry_cannot_answer) /\
    ((2 <= size sub_results)%nat ->
     forall model, llm = Some model ->
       exists prompt,
         _build_synthesis_prompt config original_query decomposition sub_results
           = Ok prompt /\
         (forall content,
            model prompt = ChatReply true content ->
            answer = _post_process_answer config (strip content)) /\
         ((forall content, model prompt <> ChatReply true content) ->
          answer = sorry_cannot_answer)) /\
    sorry_nothing_found <> [] /\ sorry_cannot_answer <> [].
Proof.
  unfold synthesize_results.
  pose proof (length_map_to_list sub_results) as Hsize.
  destruct (map_to_list sub_results) as [|[k results] rest] eqn:E.
  { exists sorry_nothing_found. simpl in Hsize.
    split; [done|]. split; [done|]. split; [intros; lia|].
    split; [intros; lia|]. by split. }
  destruct rest as [|kr rest].
  { exists sorry_nothing_found. simpl in Hsize.
    assert (results = []) as ->.
    { apply (Hempty k). apply elem_of_map_to_list. rewrite E. left. }
    split; [done|]. split; [done|]. split; [intros; lia|].
    split; [intros; lia|]. by split. }
  simpl in Hsize.
  destruct llm as [model|].
  - unfold _llm_synthesize, llm_synthesize_try.
    destruct (build_synthesis_prompt_ok original_query) as [prompt Hprompt].
    rewrite Hprompt. cbn [bind try_except].
    destruct (model prompt) as [e| |[|] content] eqn:Hreply; cbn [bind try_except].
    1, 2, 4:
      exists sorry_cannot_answer; split; [apply rule_based_synthesize_nothing|];
      split; [intros; lia|]; split; [done|];
      split; [|by split];
      intros _ m' [= <-]; exists prompt; split; [done|];
      split; [intros c Hc; by rewrite Hreply in Hc|done].
    exists (_post_process_answer config (strip content)).
    split; [done|]. split; [intros; lia|]. split; [done|].
    split; [|by split].
    intros _ m' [= <-]. exists prompt. split; [done|]. split.
    + intros c Hc. rewrite Hreply in Hc. by injection Hc as <-.
    + intros Hno. by destruct (Hno content).
  - exists sorry_cannot_answer. split; [apply rule_based_synthesize_nothing|].
    split; [intros; lia|]. split; [done|]. split; [done|]. by split.
Qed.

End EmptyCorpus.

End SynthesizerFacts.

Lemma two_empty_results_all_empty : all_empty two_empty_results.
Proof.
  intros k results H. unfold two_empty_results in H.
  apply lookup_insert_Some in H as [[_ <-]|[_ H]]; [done|].
  apply lookup_insert_Some in H as [[_ <-]|[_ H]]; done.
Qed.

Lemma two_empty_results_keys_index : keys_index two_step_decomposition two_empty_results.
Proof.
  intros k [results H]. unfold two_empty_results in H.
  apply lookup_insert_Some in H as [[<- _]|[_ H]]; [by vm_compute|].
  apply lookup_insert_Some in H as [[<- _]|[_ H]]; [by vm_compute|done].
Qed.

(** C8 as stated fails when a language model is configured: on an empty
    corpus with two recorded steps the synthesizer returns what the model
    replies.  A model that replies with the empty string makes it return
    the empty string, and a model that replies "42" makes it return "42",
    which is not a "no relevant information" text. *)
Lemma synthesizer_returns_the_reply_on_empty_corpus :
  all_empty two_empty_results /\
  ResultSynthesizer.synthesize_results
    (Some (fun _ => ResultSynthesizer.ChatReply true (u8 "")))
    ResultSynthesizer.default_config (fun _ _ => [])
    (u8 "Q") two_step_decomposition two_empty_results = Ok [] /\
  ResultSynthesizer.synthesize_results
    (Some (fun _ => ResultSynthesizer.ChatReply true (u8 "42")))
    ResultSynthesizer.default_config (fun _ _ => [])
    (u8 "Q") two_step_decomposition two_empty_results = Ok (u8 "42").
Proof.
  split; [apply two_empty_results_all_empty|]. split; by vm_compute.
Qed.

(** The theorem without a language model: the rule-based synthesis of two
    empty steps. *)
Lemma synthesize_on_empty_corpus_witness :
  exists answer,
    ResultSynthesizer.synthesize_results None ResultSynthesizer.default_config
      (fun _ _ => []) (u8 "Q") two_step_decomposition two_empty_results = Ok answer /\
    answer = ResultSynthesizer.sorry_cannot_answer.
Proof.
  destruct (synthesize_on_empty_corpus None ResultSynthesizer.default_config
              (fun _ _ => []) two_step_decomposition two_empty_results
              two_empty_results_all_empty two_empty_results_keys_index (u8 "Q"))
    as (answer & Hrun & _ & Hrule & _).
  exists answer. split; [exact Hrun|].
  apply Hrule; [by vm_compute|done].
Defined.

(* --------------------------------------------------------------------- *)
(** ** The planner: order of the plan                                     *)
(* --------------------------------------------------------------------- *)

(** X1.  When no [depends_on] holds a negative index, the plan is a
    permutation of [range(len(sub_queries))], and a dependency that is the
    index of a sub-query comes before the sub-query that names it, unless
    it depends on that sub-query in turn, directly or through others. *)
Theorem plan_respects_dependencies (sub_queries : list SubQuery.t) :
  PlanSpec.nonneg_deps sub_queries ->
  exists plan,
    IntelligentQueryDecomposer._generate_execution_plan sub_queries = Some plan /\
    plan ≡ₚ range (len sub_queries) /\
    forall i j,
      PlanSpec.edge sub_queries i j -> ~ PlanSpec.reach sub_queries j i ->
      PlanSpec.before_in plan j i.
Proof.
  intros Hnn.
  destruct (generate_execution_plan_spec sub_queries)
    as (plan & Hplan & _ & _ & Horder & Hperm).
  exists plan. split; [done|]. split; [by apply Hperm|done].
Qed.

Lemma three_step_nonneg_deps :
  PlanSpec.nonneg_deps (DecompositionResult.sub_queries three_step_decomposition).
Proof.
  intros sq d Hsq Hd. simpl in Hsq.
  repeat (apply elem_of_cons in Hsq as [->|Hsq]); simpl in Hd;
    try (by apply elem_of_nil in Hd); try (by apply elem_of_nil in Hsq).
  repeat (apply elem_of_cons in Hd as [->|Hd]); try done.
  by apply elem_of_nil in Hd.
Qed.

(** The theorem at two sub-queries and a third that depends on both. *)
Lemma plan_respects_dependencies_witness :
  exists plan,
    IntelligentQueryDecomposer._generate_execution_plan
      (DecompositionResult.sub_queries three_step_decomposition) = Some plan /\
    plan ≡ₚ [0; 1; 2].
Proof.
  destruct (plan_respects_dependencies
              (DecompositionResult.sub_queries three_step_decomposition)
              three_step_nonneg_deps) as (plan & Hplan & Hperm & _).
  exists plan. split; [exact Hplan|exact Hperm].
Defined.

Lemma priority_at_sorted_range (sub_queries : list SubQuery.t) :
  let nodes := sorted_by_key (priority_at sub_queries) (range (len sub_queries)) in
  NoDup nodes /\ (forall x, x ∈ nodes <-> 0 <= x < len sub_queries).
Proof.
  intros nodes. split.
  - unfold nodes, sorted_by_key. rewrite stable_sort_perm. apply NoDup_seqZ.
  - intros x. unfold nodes, sorted_by_key. rewrite stable_sort_elem_of.
    unfold range. rewrite elem_of_seqZ. lia.
Qed.

(** A node without dependencies is emitted at once. *)
Lemma dfs_leaf (sub_queries : list SubQuery.t) (fuel : nat) (node : Z)
    (plan : list Z) :
  default [] (IntelligentQueryDecomposer.build_dependency_graph sub_queries !! node) = [] ->
  node ∉ plan ->
  IntelligentQueryDecomposer.dfs sub_queries (S fuel) node
    (IntelligentQueryDecomposer.mkPlanState plan (list_to_set plan) ∅) =
  Some (IntelligentQueryDecomposer.mkPlanState (plan ++ [node])
          (list_to_set (plan ++ [node])) ∅).
Proof.
  intros Hdeps Hnode. rewrite dfs_unfold. simpl.
  rewrite decide_False by set_solver.
  rewrite decide_False by set_solver.
  rewrite Hdeps. simpl. f_equal. f_equal.
  - rewrite list_to_set_app_L. set_solver.
  - set_solver.
Qed.

Lemma no_deps_graph (sub_queries : list SubQuery.t) (node : Z) :
  no_deps sub_queries ->
  default [] (IntelligentQueryDecomposer.build_dependency_graph sub_queries !! node) = [].
Proof.
  intros Hno. rewrite dependency_graph_lookup. case_decide; [|done].
  destruct (sub_queries !! Z.to_nat node) as [sq|] eqn:E; [|done].
  simpl. apply Hno. by eapply list_elem_of_lookup_2.
Qed.

Lemma plan_loop_no_deps (sub_queries : list SubQuery.t) (nodes plan : list Z) :
  no_deps sub_queries -> NoDup (plan ++ nodes) ->
  for_each
    (fun node st =>
       if decide (node ∈ IntelligentQueryDecomposer.visited st) then Some st
       else IntelligentQueryDecomposer.dfs sub_queries
              (IntelligentQueryDecomposer.dfs_fuel sub_queries) node st)
    nodes (IntelligentQueryDecomposer.mkPlanState plan (list_to_set plan) ∅) =
  Some (IntelligentQueryDecomposer.mkPlanState (plan ++ nodes)
          (list_to_set (plan ++ nodes)) ∅).
Proof.
  intros Hno. revert plan. induction nodes as [|node nodes IH]; intros plan Hnd;
    cbn [for_each].
  { by rewrite app_nil_r. }
  assert (node ∉ plan) as Hnode.
  { apply NoDup_app in Hnd as (_ & Hdisj & _). intros Hin.
    apply (Hdisj node Hin). left. }
  cbn [IntelligentQueryDecomposer.visited].
  rewrite decide_False by set_solver.
  unfold IntelligentQueryDecomposer.dfs_fuel.
  rewrite dfs_leaf by (try done; by apply no_deps_graph).
  rewrite IH by (by rewrite <- app_assoc).
  by rewrite <- app_assoc.
Qed.

Lemma sorted_by_key_sorted {A} (key : A -> Z) (l : list A) :
  StronglySorted (fun x y => key x <= key y) (sorted_by_key key l).
Proof.
  unfold sorted_by_key.
  eapply (StronglySorted_weaken (SortSpec.in_order (fun y x => key y <? key x)));
    [|apply stable_sort_strongly_sorted].
  - intros x y. unfold SortSpec.in_order. rewrite Z.ltb_ge. lia.
  - intros x y. rewrite Z.ltb_lt, Z.ltb_ge. lia.
  - intros x y z. unfold SortSpec.in_order. rewrite !Z.ltb_ge. lia.
Qed.

(** The planner without its shortcut for the empty list. *)
Lemma generate_execution_plan_unfold (sub_queries : list SubQuery.t) :
  IntelligentQueryDecomposer._generate_execution_plan sub_queries =
  IntelligentQueryDecomposer.execution_plan <$>
    for_each
      (fun node st =>
         if decide (node ∈ IntelligentQueryDecomposer.visited st) then Some st
         else IntelligentQueryDecomposer.dfs sub_queries
                (IntelligentQueryDecomposer.dfs_fuel sub_queries) node st)
      (sorted_by_key (priority_at sub_queries) (range (len sub_queries)))
      (IntelligentQueryDecomposer.mkPlanState [] ∅ ∅).
Proof. by destruct sub_queries. Qed.

(** X2.  When no sub-query names a dependency, the plan is the list of
    the indices in ascending order of priority, sub-queries of equal
    priority in the order of the list. *)
Theorem plan_without_dependencies (sub_queries : list SubQuery.t) :
  no_deps sub_queries ->
  let plan := sorted_by_key (priority_at sub_queries) (range (len sub_queries)) in
  IntelligentQueryDecomposer._generate_execution_plan sub_queries = Some plan /\
  plan ≡ₚ range (len sub_queries) /\
  StronglySorted (fun x y => priority_at sub_queries x <= priority_at sub_queries y) plan /\
  forall p,
    filter (fun x => priority_at sub_queries x = p) plan =
    filter (fun x => priority_at sub_queries x = p) (range (len sub_queries)).
Proof.
  intros Hno plan. split; [|split; [|split]].
  - rewrite generate_execution_plan_unfold. fold plan.
    destruct (priority_at_sorted_range sub_queries) as [Hnd _].
    change ∅ with (list_to_set (C := gset Z) []) at 1.
    by rewrite (plan_loop_no_deps sub_queries plan []).
  - unfold plan, sorted_by_key. apply stable_sort_perm.
  - apply sorted_by_key_sorted.
  - intros p. unfold plan, sorted_by_key.
    apply stable_sort_filter. intros a b -> ->. apply Z.ltb_irrefl.
Qed.

(** The theorem at two independent sub-queries, the second more urgent. *)
Lemma plan_without_dependencies_witness :
  IntelligentQueryDecomposer._generate_execution_plan
    [SubQuery.mk (u8 "a") (u8 "simple") 2 None false;
     SubQuery.mk (u8 "b") (u8 "simple") 1 (Some []) false] = Some [1; 0].
Proof.
  apply (plan_without_dependencies
           [SubQuery.mk (u8 "a") (u8 "simple") 2 None false;
            SubQuery.mk (u8 "b") (u8 "simple") 1 (Some []) false]).
  intros sq Hsq.
  repeat (apply elem_of_cons in Hsq as [->|Hsq]); try done.
  by apply elem_of_nil in Hsq.
Defined.

(* --------------------------------------------------------------------- *)
(** ** The rule-based decompositions                                      *)
(* --------------------------------------------------------------------- *)

Lemma len_take_le {A} (k : nat) (l : list A) : len (take k l) <= Z.of_nat k.
Proof. unfold len. rewrite length_take. lia. Qed.

Lemma len_slice_to_le {A} (k : Z) (l : list A) : 0 <= k -> len (slice_to k l) <= k.
Proof.
  intros Hk. unfold slice_to. rewrite (proj2 (Z.leb_le 0 k)) by done.
  pose proof (len_take_le (Z.to_nat k) l). lia.
Qed.

Lemma len_slice_to_le_len {A} (k : Z) (l : list A) : len (slice_to k l) <= len l.
Proof.
  unfold slice_to, len. destruct (0 <=? k); rewrite length_take; lia.
Qed.

Lemma backward_deps_from_nil (k : Z) :
  forall i sq d,
    ([] : list SubQuery.t) !! i = Some sq ->
    d ∈ IntelligentQueryDecomposer.deps_of sq -> 0 <= d < k + Z.of_nat i.
Proof. intros i sq d E. by rewrite lookup_nil in E. Qed.

Lemma backward_deps_from_cons (k : Z) (sq0 : SubQuery.t) (l : list SubQuery.t) :
  (forall d, d ∈ IntelligentQueryDecomposer.deps_of sq0 -> 0 <= d < k) ->
  (forall i sq d,
     l !! i = Some sq ->
     d ∈ IntelligentQueryDecomposer.deps_of sq -> 0 <= d < (k + 1) + Z.of_nat i) ->
  forall i sq d,
    (sq0 :: l) !! i = Some sq ->
    d ∈ IntelligentQueryDecomposer.deps_of sq -> 0 <= d < k + Z.of_nat i.
Proof.
  intros H0 Hl [|i] sq d E Hd.
  - injection E as <-. specialize (H0 d Hd). lia.
  - specialize (Hl i sq d E Hd). lia.
Qed.

Lemma backward_deps_from_0 (l : list SubQuery.t) :
  (forall i sq d,
     l !! i = Some sq ->
     d ∈ IntelligentQueryDecomposer.deps_of sq -> 0 <= d < 0 + Z.of_nat i) ->
  backward_deps l.
Proof. intros H i sq d E Hd. specialize (H i sq d E Hd). lia. Qed.

(** Decides [backward_deps] of a list whose spine and [depends_on] fields
    are explicit, without looking at the texts. *)
Ltac backward_deps_of_list :=
  apply backward_deps_from_0;
  repeat (apply backward_deps_from_cons;
          [let d := fresh "d" in
           let Hd := fresh "Hd" in
           intros d Hd;
           unfold IntelligentQueryDecomposer.deps_of,
                  IntelligentQueryDecomposer.SubQuery_default in Hd;
           cbn [SubQuery.depends_on] in Hd;
           repeat (apply elem_of_cons in Hd as [->|Hd]; [lia|]);
           by apply elem_of_nil in Hd|]);
  apply backward_deps_from_nil.

(** What the rules emit, whatever the intent: at most four sub-queries,
    dependencies on earlier sub-queries only, planned in the order of the
    list. *)
Lemma rule_based_decomposition_shape (query : str) (intent : QueryIntent.t) :
  let sub_queries := IntelligentQueryDecomposer._rule_based_decomposition query intent in
  len sub_queries <= 4 /\
  backward_deps sub_queries /\
  IntelligentQueryDecomposer._generate_execution_plan sub_queries =
    Some (range (len sub_queries)).
Proof.
  unfold IntelligentQueryDecomposer._rule_based_decomposition.
  destruct intent as [intent_type score concepts question_type req reasoning].
  cbn [QueryIntent.intent_type].
  repeat case_decide.
  - unfold IntelligentQueryDecomposer._decompose_comparative_query.
    cbn [QueryIntent.key_concepts].
    destruct concepts as [|c0 [|c1 rest]];
      try (split; [by vm_compute|split; [backward_deps_of_list|by vm_compute]]).
    assert ((2 <=? len (c0 :: c1 :: rest)) = true) as ->.
    { apply Z.leb_le. unfold len. simpl length. lia. }
    change (slice_to 2 (c0 :: c1 :: rest)) with [c0; c1].
    split; [by vm_compute|split; [backward_deps_of_list|by vm_compute]].
  - unfold IntelligentQueryDecomposer._decompose_multi_aspect_query.
    cbn [QueryIntent.key_concepts].
    destruct concepts as [|c0 [|c1 [|c2 rest]]];
      try (split; [by vm_compute|split; [backward_deps_of_list|by vm_compute]]).
    assert ((1 <? len (c0 :: c1 :: c2 :: rest)) = true) as ->.
    { apply Z.ltb_lt. unfold len. simpl length. lia. }
    change (slice_to 3 (c0 :: c1 :: c2 :: rest)) with [c0; c1; c2].
    split; [by vm_compute|split; [backward_deps_of_list|by vm_compute]].
  - unfold IntelligentQueryDecomposer._decompose_complex_query.
    cbn [QueryIntent.key_concepts QueryIntent.question_type].
    repeat case_decide;
      destruct concepts as [|c0 [|c1 rest]];
      (split; [by vm_compute|split; [backward_deps_of_list|by vm_compute]]).
  - split; [by vm_compute|split; [backward_deps_of_list|by vm_compute]].
Qed.

(** The decomposer without a language model. *)
Lemma analyze_and_decompose_rules (config : IntelligentQueryDecomposer.Config)
    (query : str) :
  exists r,
    IntelligentQueryDecomposer.analyze_and_decompose None config query = Some r /\
    len (DecompositionResult.sub_queries r) <= 4 /\
    backward_deps (DecompositionResult.sub_queries r) /\
    DecompositionResult.execution_plan r =
      range (len (DecompositionResult.sub_queries r)).
Proof.
  unfold IntelligentQueryDecomposer.analyze_and_decompose.
  destruct (negb _).
  - eexists. split; [done|]. simpl.
    split; [by vm_compute|]. split; [backward_deps_of_list|done].
  - cbn [IntelligentQueryDecomposer._decompose_query].
    destruct (rule_based_decomposition_shape query
                (IntelligentQueryDecomposer._analyze_query_intent None config query))
      as (Hlen & Hback & ->).
    eexists. split; [done|]. by simpl.
Qed.

(** X3.  Without a language model the decomposer returns at most four
    sub-queries, each of which depends on earlier sub-queries of the list
    only, and the plan runs them in the order of the list. *)
Theorem rule_based_plan_is_identity (config : IntelligentQueryDecomposer.Config)
    (query : str) :
  exists r,
    IntelligentQueryDecomposer.analyze_and_decompose None config query = Some r /\
    len (DecompositionResult.sub_queries r) <= 4 /\
    backward_deps (DecompositionResult.sub_queries r) /\
    DecompositionResult.execution_plan r =
      range (len (DecompositionResult.sub_queries r)).
Proof. apply analyze_and_decompose_rules. Qed.



(* --------------------------------------------------------------------- *)
(** ** The key concepts of the rule-based estimator                       *)
(* --------------------------------------------------------------------- *)

(** The words [s.split()] returns are the non-empty runs of characters
    that are not white space. *)
Lemma split_go_words (s cur w : str) :
  (forall c, c ∈ cur -> isspace c = false) ->
  w ∈ split_go s cur ->
  (forall c, c ∈ w -> isspace c = false) /\ w <> [] /\
  exists pre post, cur ++ s = pre ++ w ++ post.
Proof.
  revert cur. induction s as [|c s IH]; intros cur Hcur Hw; simpl in Hw.
  - destruct cur as [|a cur]; [by apply elem_of_nil in Hw|].
    apply list_elem_of_singleton in Hw as ->.
    split; [done|]. split; [done|]. exists [], []. by rewrite !app_nil_r.
  - destruct (isspace c) eqn:Hc.
    + destruct cur as [|a cur].
      * apply (IH []) in Hw as (Hns & Hne & pre & post & Heq);
          [|intros ? H; by apply elem_of_nil in H].
        split; [done|]. split; [done|]. exists (c :: pre), post.
        simpl in *. by rewrite Heq.
      * apply elem_of_cons in Hw as [->|Hw].
        { split; [done|]. split; [done|]. exists [], (c :: s). done. }
        apply (IH []) in Hw as (Hns & Hne & pre & post & Heq);
          [|intros ? H; by apply elem_of_nil in H].
        split; [done|]. split; [done|].
        exists ((a :: cur) ++ c :: pre), post.
        simpl in Heq. rewrite Heq. by rewrite <- !app_assoc.
    + apply IH in Hw as (Hns & Hne & pre & post & Heq).
      * split; [done|]. split; [done|]. exists pre, post.
        rewrite <- Heq. by rewrite <- app_assoc.
      * intros a [Ha| ->%list_elem_of_singleton]%elem_of_app; [by apply Hcur|done].
Qed.

(** A string without white space is its own single word. *)
Lemma split_go_no_space (s cur : str) :
  (forall c, c ∈ s -> isspace c = false) ->
  split_go s cur = match cur ++ s with [] => [] | _ => [cur ++ s] end.
Proof.
  revert cur. induction s as [|c s IH]; intros cur Hs; simpl.
  - rewrite app_nil_r. by destruct cur.
  - rewrite (Hs c) by left. rewrite IH by (intros a Ha; apply Hs; by right).
    by rewrite <- app_assoc.
Qed.

Lemma elem_of_slice_to {A} (k : Z) (l : list A) (x : A) :
  x ∈ slice_to k l -> x ∈ l.
Proof.
  unfold slice_to. destruct (0 <=? k); intros H;
    by eapply elem_of_sublist; [|apply sublist_take].
Qed.

(** X5.  The rules take at most five key concepts; each is a word of the
    question, that is a run of more than two characters none of which is
    white space, and none is one of the five question words.  A question
    without white space has no key concept but itself. *)
Theorem key_concepts_are_words (config : IntelligentQueryDecomposer.Config)
    (query : str) :
  let concepts :=
    QueryIntent.key_concepts
      (IntelligentQueryDecomposer._rule_based_intent_analysis config query) in
  len concepts <= 5 /\
  (forall w,
     w ∈ concepts ->
     2 < len w /\ (w ∉ question_words) /\
     (forall c, c ∈ w -> isspace c = false) /\
     exists pre post, query = pre ++ w ++ post) /\
  ((forall c, c ∈ query -> isspace c = false) ->
   concepts = [] \/ concepts = [query]).
Proof.
  intros concepts. unfold concepts. cbn [IntelligentQueryDecomposer._rule_based_intent_analysis
    QueryIntent.key_concepts].
  split; [by apply len_slice_to_le|]. split.
  - intros w Hw%elem_of_slice_to.
    apply list_elem_of_filter in Hw as [[Hlen Hq] Hw].
    split; [done|]. split; [done|].
    apply (split_go_words query []) in Hw as (Hns & _ & pre & post & Heq);
      [|intros ? H; by apply elem_of_nil in H].
    split; [done|]. by exists pre, post.
  - intros Hns. unfold split. rewrite split_go_no_space by done.
    destruct query as [|c query]; [by left|].
    cbn [app]. rewrite filter_cons, filter_nil.
    case_decide; [by right|by left].
Qed.

(* --------------------------------------------------------------------- *)
(** ** The executor: fusion, context and bookkeeping                      *)
(* --------------------------------------------------------------------- *)

Section FuseFacts.
Import MultiStepQueryExecutor.
Local Abbreviation fingerprint := FuseSpec.fingerprint.
Local Abbreviation score_key := FuseSpec.score_key.
Local Abbreviation first_seen := FuseSpec.first_seen.

Lemma foldl_fuse_step (l : list Chunk.t) (seen : gset str) (unique : list Chunk.t) :
  (foldl fuse_step (seen, unique) l).2 = unique ++ first_seen seen l.
Proof.
  revert seen unique. induction l as [|r l IH]; intros seen unique; simpl.
  - by rewrite app_nil_r.
  - unfold fuse_step at 2. simpl.
    change (slice_to 100 (default [] (Chunk.content r))) with (fingerprint r).
    destruct (decide (fingerprint r ∈ seen)) as [Hr|Hr]; case_decide as Hr';
      try (by destruct (Hr Hr')); try (by destruct (Hr' Hr)); [apply IH|].
    rewrite IH. by rewrite <- app_assoc.
Qed.

Lemma first_seen_sublist (seen : gset str) (l : list Chunk.t) :
  first_seen seen l `sublist_of` l.
Proof.
  revert seen. induction l as [|r l IH]; intros seen; simpl; [done|].
  case_decide; [by apply sublist_cons|by apply sublist_skip].
Qed.

Lemma first_seen_filter (f : str) (seen : gset str) (l : list Chunk.t) :
  filter (fun r => fingerprint r = f) (first_seen seen l) =
  if decide (f ∈ seen) then [] else take 1 (filter (fun r => fingerprint r = f) l).
Proof.
  revert seen. induction l as [|r l IH]; intros seen; simpl.
  { by case_decide. }
  destruct (decide (fingerprint r ∈ seen)) as [Hr|Hr].
  - rewrite IH. case_decide as Hf; [done|].
    rewrite (filter_cons _ r). rewrite decide_False; [done|]. congruence.
  - rewrite !(filter_cons _ r), IH.
    destruct (decide (fingerprint r = f)) as [Heq|Hne].
    + rewrite (decide_True (P := f ∈ {[fingerprint r]} ∪ seen)) by set_solver.
      rewrite (decide_False (P := f ∈ seen)) by congruence. done.
    + destruct (decide (f ∈ seen)) as [H1|H1].
      * rewrite decide_True by set_solver. done.
      * rewrite decide_False by set_solver. done.
Qed.

Lemma first_seen_fresh (seen : gset str) (l : list Chunk.t) (r : Chunk.t) :
  r ∈ first_seen seen l -> fingerprint r ∉ seen.
Proof.
  revert seen. induction l as [|x l IH]; intros seen; simpl.
  { by intros ?%elem_of_nil. }
  case_decide as Hx; [apply IH|].
  intros [->|Hr]%elem_of_cons; [done|]. apply IH in Hr. set_solver.
Qed.

Lemma first_seen_NoDup (seen : gset str) (l : list Chunk.t) :
  NoDup (map fingerprint (first_seen seen l)).
Proof.
  revert seen. induction l as [|x l IH]; intros seen; simpl; [constructor|].
  case_decide as Hx; [apply IH|].
  simpl. constructor; [|apply IH].
  intros Hin. change (map fingerprint ?l) with (fingerprint <$> l) in Hin.
  apply list_elem_of_fmap in Hin as (r & Heq & Hr).
  apply first_seen_fresh in Hr. set_solver.
Qed.

(** Results with distinct new fingerprints are all kept. *)
Lemma first_seen_of_NoDup (seen : gset str) (l : list Chunk.t) :
  NoDup (map fingerprint l) ->
  (forall r, r ∈ l -> fingerprint r ∉ seen) ->
  first_seen seen l = l.
Proof.
  revert seen. induction l as [|x l IH]; intros seen Hnd Hfresh; simpl; [done|].
  simpl in Hnd. apply NoDup_cons in Hnd as [Hx Hnd].
  rewrite decide_False by (apply Hfresh; left).
  f_equal. apply IH; [done|].
  intros r Hr. apply not_elem_of_union. split.
  - intros Heq%elem_of_singleton. apply Hx. rewrite <- Heq.
    change (map fingerprint l) with (fingerprint <$> l).
    apply list_elem_of_fmap. by exists r.
  - apply Hfresh. by right.
Qed.

Lemma Permutation_short {A} (l k : list A) :
  l ≡ₚ k -> (length k <= 1)%nat -> l = k.
Proof.
  intros Hp Hk. destruct k as [|a [|b k]]; simpl in Hk; [| |lia].
  - by apply Permutation_nil_r in Hp.
  - by apply Permutation_singleton_r in Hp.
Qed.

(** X6.  With result fusion switched off the executor returns the
    accumulated results as they are.  With fusion on it keeps, of the
    results that share their first 100 characters, the one accumulated
    first, whatever its score, and returns the kept results in descending
    order of their retrieval score, equal scores in the order of
    arrival; fusing the fused list again changes nothing. *)
Theorem fuse_results_keeps_first_seen (config : Config) (results : list Chunk.t) :
  let fused := _fuse_results config results in
  let unique := first_seen ∅ results in
  (enable_result_fusion config = false -> fused = results) /\
  (enable_result_fusion config = true ->
   fused ≡ₚ unique /\
   unique `sublist_of` results /\
   StronglySorted (SortSpec.descending score_key) fused /\
   (forall v,
      filter (fun r => score_key r == v)%Q fused =
      filter (fun r => score_key r == v)%Q unique) /\
   (forall f,
      filter (fun r => fingerprint r = f) fused =
      take 1 (filter (fun r => fingerprint r = f) results)) /\
   _fuse_results config fused = fused).
Proof.
  intros fused unique. unfold fused, _fuse_results.
  split; [by intros ->|]. intros ->. cbn [negb].
  rewrite foldl_fuse_step. cbn [app]. fold unique.
  assert (sort_reverse_by score_key unique ≡ₚ unique) as Hperm
    by apply sort_reverse_by_perm.
  split; [done|]. split; [apply first_seen_sublist|].
  split; [apply sort_reverse_by_sorted|].
  split; [intros v; apply sort_reverse_by_stable|].
  split.
  - intros f. apply Permutation_short.
    + rewrite Hperm. unfold unique. rewrite first_seen_filter.
      by rewrite decide_False by set_solver.
    + rewrite length_take. lia.
  - rewrite foldl_fuse_step. cbn [app].
    rewrite first_seen_of_NoDup; [apply sort_reverse_by_idem| |set_solver].
    change (map fingerprint ?l) with (fingerprint <$> l).
    rewrite Hperm. apply first_seen_NoDup.
Qed.

End FuseFacts.

Section ContextFacts.
Import MultiStepQueryExecutor.
Variable config : Config.

Lemma len_app {A} (l k : list A) : len (l ++ k) = len l + len k.
Proof. unfold len. rewrite length_app. lia. Qed.

Lemma join_cons_nonempty (sep s : str) (l : list str) :
  s <> [] -> join sep (s :: l) <> [].
Proof. intros Hs. destruct l; simpl; [done|]. by destruct s. Qed.

(** The context lines of one dependency. *)
Lemma context_part_nonempty (ctx : gmap Z ContextEntry) (deps : list Z) (p : str) :
  p ∈ flat_map
        (fun dep_idx =>
           match ctx !! dep_idx with
           | Some dep_context =>
             flat_map
               (fun result =>
                  match Chunk.content result with
                  | Some content => [u8 "相关信息: " ++ slice_to 200 content]
                  | None => []
                  end)
               (slice_to 2 (entry_results dep_context))
           | None => []
           end)
        deps ->
  exists d e r content,
    d ∈ deps /\ ctx !! d = Some e /\ r ∈ slice_to 2 (entry_results e) /\
    Chunk.content r = Some content /\
    p = u8 "相关信息: " ++ slice_to 200 content.
Proof.
  intros Hp%list_elem_of_In%in_flat_map. destruct Hp as (d & Hd & Hp).
  destruct (ctx !! d) as [e|] eqn:He; [|done].
  apply in_flat_map in Hp as (r & Hr & Hp).
  destruct (Chunk.content r) as [content|] eqn:Hc; [|done].
  destruct Hp as [<-|[]].
  exists d, e, r, content. by rewrite <- !list_elem_of_In in *.
Qed.

(** X7.  The query a step retrieves with is the text of its sub-query,
    or that text behind a context and the words "based on the
    information above": the query always ends with the text of the
    sub-query.  The context is never empty and, for a non-negative
    [max_context_length], never longer than that length plus the three
    dots that mark a cut.  No context is added when the sub-query does not
    ask for it, and none when no dependency has a recorded result that
    holds a content: a dependency that was skipped or has failed adds
    nothing. *)
Theorem build_query_context_shape (ctx : gmap Z ContextEntry) (sub_query : SubQuery.t)
    (query_idx : Z) :
  let query := SubQuery.query sub_query in
  let query_with_context := _build_query_context config ctx sub_query query_idx in
  (query_with_context = query \/
   exists context,
     query_with_context = context ++ context_joint ++ query /\
     context <> [] /\
     (0 <= max_context_length config ->
      len context <= max_context_length config + 3)) /\
  (SubQuery.context_needed sub_query = false -> query_with_context = query) /\
  ((forall d e r,
      d ∈ IntelligentQueryDecomposer.deps_of sub_query -> ctx !! d = Some e ->
      r ∈ slice_to 2 (entry_results e) -> Chunk.content r = None) ->
   query_with_context = query).
Proof.
  intros query query_with_context. unfold query_with_context, _build_query_context.
  fold query.
  destruct (SubQuery.context_needed sub_query) eqn:Hneed;
    [|split; [by left|by split]].
  unfold IntelligentQueryDecomposer.deps_of.
  destruct (SubQuery.depends_on sub_query) as [[|d ds]|] eqn:Hdeps;
    try (split; [by left|by split]).
  match goal with
  | |- context [match ?parts with [] => _ | _ :: _ => _ end] =>
    destruct parts as [|p ps] eqn:Hparts
  end.
  { split; [by left|by split]. }
  assert (p ∈ p :: ps) as Hp by left. rewrite <- Hparts in Hp.
  apply context_part_nonempty in Hp as (d' & e & r & content & Hd' & He & Hr & Hc & ->).
  split; [|split; [done|]].
  - right. eexists. split; [reflexivity|].
    split.
    + case_match; [|by apply join_cons_nonempty].
      intros [_ Hdots]%app_eq_nil. by vm_compute in Hdots.
    + intros Hmax. case_match eqn:Hlt.
      * rewrite len_app.
        match goal with
        | |- context [len (slice_to ?m ?c)] => pose proof (len_slice_to_le m c Hmax)
        end.
        change (len (u8 "...")) with 3. lia.
      * apply Z.ltb_ge in Hlt. lia.
  - intros Hnone. by rewrite (Hnone d' e r Hd' He Hr) in Hc.
Qed.

End ContextFacts.

Lemma elem_of_enumerate {A} (l : list A) (i : Z) (x : A) :
  (i, x) ∈ enumerate l -> 0 <= i /\ l !! Z.to_nat i = Some x.
Proof.
  unfold enumerate, range. intros (j & Hj)%list_elem_of_lookup_1.
  apply lookup_zip_with_Some in Hj as (i' & x' & [= <- <-] & Hi & Hx).
  apply lookup_seqZ in Hi as [-> _].
  split; [lia|]. by replace (Z.to_nat (0 + Z.of_nat j)) with j by lia.
Qed.

Lemma fuse_results_elem_of (config : MultiStepQueryExecutor.Config)
    (results : list Chunk.t) (x : Chunk.t) :
  x ∈ MultiStepQueryExecutor._fuse_results config results -> x ∈ results.
Proof.
  unfold MultiStepQueryExecutor._fuse_results.
  destruct (negb _); [done|].
  rewrite foldl_fuse_step, sort_reverse_by_perm. cbn [app].
  intros Hx. eapply elem_of_sublist; [done|apply first_seen_sublist].
Qed.

Section BookkeepingFacts.
Import MultiStepQueryExecutor.
Variable Retriever : Type.
Variable retrieve : Retriever -> str -> Retriever * result (list Chunk.t).
Variable config : Config.
Variable decomposition : DecompositionResult.t.

Lemma execute_step_consistent (st st' : State Retriever) (step query_idx : Z) :
  0 <= step ->
  DecompositionResult.execution_plan decomposition !! Z.to_nat step = Some query_idx ->
  execute_step Retriever retrieve config decomposition st (step, query_idx) = Ok st' ->
  context_consistent decomposition (execution_context st) (accumulated_results st) ->
  context_consistent decomposition (execution_context st') (accumulated_results st').
Proof.
  intros Hstep Hplan Hrun Hinv. unfold execute_step in Hrun.
  destruct (len (DecompositionResult.sub_queries decomposition) <=? query_idx);
    [by injection Hrun as <-|].
  destruct (getitem _ query_idx) as [sub_query|e] eqn:Hget; [|done].
  simpl in Hrun.
  destruct (retrieve _ _) as [retriever' [results|e]]; simpl in Hrun;
    injection Hrun as <-; simpl; [|done].
  intros k e [[<- <-]|[Hne He]]%lookup_insert_Some; simpl.
  - split; [done|]. split; [done|]. split; [by exists sub_query|].
    exists (accumulated_results st), []. by rewrite app_nil_r.
  - destruct (Hinv k e He) as (H0 & Hp & Hsq & before & after & Hacc).
    split; [done|]. split; [done|]. split; [done|].
    exists before, (after ++ results). rewrite Hacc. by rewrite <- !app_assoc.
Qed.

Lemma execute_steps_consistent (steps : list (Z * Z)) (st st' : State Retriever) :
  (forall s, s ∈ steps ->
     0 <= s.1 /\
     DecompositionResult.execution_plan decomposition !! Z.to_nat s.1 = Some s.2) ->
  execute_steps Retriever retrieve config decomposition steps st = Ok st' ->
  context_consistent decomposition (execution_context st) (accumulated_results st) ->
  context_consistent decomposition (execution_context st') (accumulated_results st').
Proof.
  revert st. induction steps as [|[step query_idx] steps IH]; intros st Hsteps Hrun Hinv;
    cbn [execute_steps] in Hrun.
  { by injection Hrun as <-. }
  destruct (execute_step _ _ _ _ st _) as [st1|e] eqn:Hstep; [|done].
  cbn [bind] in Hrun. apply (IH st1); [|done|].
  - intros s Hs. apply Hsteps. by right.
  - destruct (Hsteps (step, query_idx)) as [H0 Hp]; [left|].
    by apply (execute_step_consistent st st1 step query_idx).
Qed.

(** X8.  When the executor returns, every entry of its execution context
    stands under an index of the plan, records the position of that index
    in the plan and the text of the sub-query it names, and its results
    are a segment of the accumulated results; the returned list is the
    fusion of the accumulated results and holds nothing else. *)
Theorem execution_context_is_consistent (r : Retriever) (final : State Retriever)
    (results : list Chunk.t) :
  execute_decomposed_query Retriever retrieve config r decomposition
    = Ok (final, results) ->
  context_consistent decomposition (execution_context final)
    (accumulated_results final) /\
  results = _fuse_results config (accumulated_results final) /\
  (forall x, x ∈ results -> x ∈ accumulated_results final).
Proof.
  unfold execute_decomposed_query. intros Hrun.
  destruct (execute_steps _ _ _ _ _ _) as [st'|e] eqn:Hsteps; [|done].
  cbn [bind] in Hrun. injection Hrun as <- <-.
  split; [|split; [done|intros x; apply fuse_results_elem_of]].
  apply (execute_steps_consistent _ _ _ (fun s Hs =>
           elem_of_enumerate _ s.1 s.2 ltac:(by destruct s)) Hsteps).
  intros k e Hk. simpl in Hk. by rewrite lookup_empty in Hk.
Qed.

End BookkeepingFacts.

(** The theorem at three steps of which the second times out. *)
Lemma execution_context_is_consistent_witness :
  match
    MultiStepQueryExecutor.execute_decomposed_query nat flaky_retrieve
      MultiStepQueryExecutor.default_config 0%nat three_step_decomposition
  with
  | Ok (final, results) =>
    context_consistent three_step_decomposition
      (MultiStepQueryExecutor.execution_context final)
      (MultiStepQueryExecutor.accumulated_results final)
  | Raise _ => False
  end.
Proof.
  destruct (MultiStepQueryExecutor.execute_decomposed_query nat flaky_retrieve
              MultiStepQueryExecutor.default_config 0%nat three_step_decomposition)
    as [[final results]|e] eqn:E.
  - exact (proj1 (execution_context_is_consistent nat flaky_retrieve
                    MultiStepQueryExecutor.default_config three_step_decomposition
                    0%nat final results E)).
  - by vm_compute in E.
Defined.

(* --------------------------------------------------------------------- *)
(** ** Strings: stripping, splitting and joining                          *)
(* --------------------------------------------------------------------- *)

(** [lstrip] drops a run of white space. *)
Lemma lstrip_split (s : str) :
  exists sp, s = sp ++ lstrip s /\ Forall (fun c => isspace c = true) sp.
Proof.
  induction s as [|c s (sp & Hs & Hsp)]; simpl.
  - by exists [].
  - destruct (isspace c) eqn:Hc.
    + exists (c :: sp). split; [simpl; by rewrite <- Hs|by constructor].
    + by exists [].
Qed.

Lemma lstrip_head (s : str) (c : N) (t : str) :
  lstrip s = c :: t -> isspace c = false.
Proof.
  induction s as [|a s IH]; simpl; [done|].
  destruct (isspace a) eqn:Ha; [done|]. by intros [= <- _].
Qed.

Lemma lstrip_id (s : str) :
  match s with [] => True | c :: _ => isspace c = false end -> lstrip s = s.
Proof. destruct s as [|c s]; simpl; [done|]. by intros ->. Qed.

Lemma len_lstrip (s : str) : len (lstrip s) <= len s.
Proof.
  destruct (lstrip_split s) as (sp & Hs & _).
  rewrite Hs at 2. unfold len. rewrite length_app. lia.
Qed.

Lemma len_strip (s : str) : len (strip s) <= len s.
Proof.
  unfold strip. pose proof (len_lstrip s). pose proof (len_lstrip (rev (lstrip s))).
  unfold len in *. rewrite length_rev in *. lia.
Qed.

Lemma elem_of_lstrip (s : str) (c : N) : c ∈ lstrip s -> c ∈ s.
Proof.
  destruct (lstrip_split s) as (sp & Hs & _). rewrite Hs at 2.
  intros. apply elem_of_app. by right.
Qed.

Lemma elem_of_rev {A} (l : list A) (x : A) : x ∈ rev l <-> x ∈ l.
Proof. rewrite !list_elem_of_In. symmetry. apply in_rev. Qed.

Lemma elem_of_strip (s : str) (c : N) : c ∈ strip s -> c ∈ s.
Proof.
  unfold strip. rewrite elem_of_rev. intros H%elem_of_lstrip.
  rewrite elem_of_rev in H. by apply elem_of_lstrip.
Qed.

(** A stripped string starts and ends with a character that is not white
    space. *)
Lemma strip_ends (s : str) :
  match strip s with [] => True | c :: _ => isspace c = false end /\
  match rev (strip s) with [] => True | c :: _ => isspace c = false end.
Proof.
  unfold strip. rewrite rev_involutive.
  set (t := lstrip s). set (v := lstrip (rev t)).
  split.
  - destruct (lstrip_split (rev t)) as (sp & Hrev & _). fold v in Hrev.
    assert (t = rev v ++ rev sp) as Ht.
    { rewrite <- (rev_involutive t), Hrev. by rewrite rev_app_distr. }
    destruct (rev v) as [|c w] eqn:Hv; [done|].
    simpl in Ht. by apply (lstrip_head s c (w ++ rev sp)).
  - destruct v as [|c w] eqn:Hv; [done|]. by apply (lstrip_head (rev t) c w).
Qed.

Lemma strip_id (s : str) :
  match s with [] => True | c :: _ => isspace c = false end ->
  match rev s with [] => True | c :: _ => isspace c = false end ->
  strip s = s.
Proof.
  intros H1 H2. unfold strip.
  by rewrite (lstrip_id s), (lstrip_id (rev s)), rev_involutive.
Qed.

Lemma strip_stripped (s : str) : stripped (strip s).
Proof. destruct (strip_ends s). by apply strip_id. Qed.

Lemma join_cons_cons (sep s t : str) (l : list str) :
  join sep (s :: t :: l) = s ++ sep ++ join sep (t :: l).
Proof. done. Qed.

Lemma split_on_go_app (c : N) (l rest cur : str) :
  c ∉ l -> split_on_go c (l ++ rest) cur = split_on_go c rest (cur ++ l).
Proof.
  revert cur. induction l as [|a l IH]; intros cur Hc; simpl.
  - by rewrite app_nil_r.
  - destruct (N.eqb_spec a c) as [->|Hne]; [exfalso; apply Hc; left|].
    rewrite IH by (intros H; apply Hc; by right).
    by rewrite <- app_assoc.
Qed.

(** Splitting at a separator what was joined with it gives the pieces
    back. *)
Lemma split_on_join (c : N) (lines : list str) :
  lines <> [] -> (forall l, l ∈ lines -> c ∉ l) ->
  split_on c (join [c] lines) = lines.
Proof.
  unfold split_on. induction lines as [|l lines IH]; [done|]. intros _ Hfree.
  destruct lines as [|l2 lines].
  - simpl. rewrite <- (app_nil_r l) at 1.
    rewrite split_on_go_app by (apply Hfree; left). done.
  - rewrite join_cons_cons. rewrite split_on_go_app by (apply Hfree; left).
    simpl. rewrite N.eqb_refl. f_equal.
    apply IH; [done|]. intros l' Hl'. apply Hfree. by right.
Qed.

(** The pieces of a split hold no separator. *)
Lemma split_on_go_free (c : N) (s cur l : str) :
  c ∉ cur -> l ∈ split_on_go c s cur -> c ∉ l.
Proof.
  revert cur. induction s as [|a s IH]; intros cur Hcur; simpl.
  - by intros ->%list_elem_of_singleton.
  - destruct (N.eqb_spec a c) as [->|Hne].
    + intros [->|Hl]%elem_of_cons; [done|].
      apply (IH []); [by intros ?%elem_of_nil|done].
    + apply IH. intros [H| ->%list_elem_of_singleton]%elem_of_app; done.
Qed.

Lemma split_on_free (c : N) (s l : str) : l ∈ split_on c s -> c ∉ l.
Proof. apply split_on_go_free. by intros ?%elem_of_nil. Qed.

Lemma split_on_go_nonempty (c : N) (s cur : str) : split_on_go c s cur <> [].
Proof.
  revert cur. induction s as [|a s IH]; intros cur; simpl; [done|].
  destruct (a =? c)%N; [done|apply IH].
Qed.

(* --------------------------------------------------------------------- *)
(** ** The synthesizer: post-processing and the rule-based answers         *)
(* --------------------------------------------------------------------- *)

Section PostProcessFacts.
Import ResultSynthesizer.
Variable config : Config.

Lemma foldl_clean_step (lines : list str) (cleaned : list str) (prev_empty : bool) :
  (foldl clean_step (cleaned, prev_empty) lines).1 =
  cleaned ++ clean_from prev_empty lines.
Proof.
  revert cleaned prev_empty.
  induction lines as [|line lines IH]; intros cleaned prev_empty; simpl.
  - by rewrite app_nil_r.
  - unfold clean_step at 2. simpl.
    destruct (strip line) as [|c l] eqn:Hline.
    + destruct prev_empty; simpl; rewrite IH; [done|]. by rewrite <- app_assoc.
    + rewrite IH. by rewrite <- app_assoc.
Qed.

(** What the loop appends: stripped lines, of which a blank one neither
    follows a blank one nor comes first when the last line was blank. *)
Lemma clean_from_spec (prev_empty : bool) (lines : list str) :
  let cleaned := clean_from prev_empty lines in
  Forall stripped cleaned /\
  (forall l, l ∈ cleaned -> exists line, line ∈ lines /\ l = strip line) /\
  no_double_blank cleaned /\
  (prev_empty = true -> head cleaned <> Some []).
Proof.
  revert prev_empty. induction lines as [|line lines IH]; intros prev_empty; simpl.
  { split; [constructor|]. split; [by intros ? ?%elem_of_nil|]. split; [|done].
    intros i Hi. by rewrite lookup_nil in Hi. }
  destruct (strip line) as [|c l] eqn:Hline.
  - destruct prev_empty; simpl.
    + destruct (IH true) as (Hs & Hfrom & Hnd & Hhead).
      split; [done|]. split; [|by split].
      intros l Hl. destruct (Hfrom l Hl) as (line' & Hin & ->).
      exists line'. split; [by right|done].
    + destruct (IH true) as (Hs & Hfrom & Hnd & Hhead).
      split; [constructor; [done|exact Hs]|]. split; [|split; [|done]].
      * intros l [->|Hl]%elem_of_cons; [exists line; split; [left|done]|].
        destruct (Hfrom l Hl) as (line' & Hin & ->).
        exists line'. split; [by right|done].
      * intros [|i] Hi; simpl in *.
        { specialize (Hhead eq_refl). by destruct (clean_from true lines). }
        by apply Hnd.
  - destruct (IH false) as (Hs & Hfrom & Hnd & _).
    split; [constructor; [|exact Hs]|]. 
    { unfold stripped. rewrite <- Hline. apply strip_stripped. }
    split; [|split; [|done]].
    + intros l' [->|Hl]%elem_of_cons; [exists line; split; [left|done]|].
      destruct (Hfrom l' Hl) as (line' & Hin & ->).
      exists line'. split; [by right|done].
    + intros [|i] Hi; simpl in *; [done|by apply Hnd].
Qed.

(** The loop leaves clean lines as they are. *)
Lemma clean_from_id (prev_empty : bool) (lines : list str) :
  Forall stripped lines -> no_double_blank lines ->
  (prev_empty = true -> head lines <> Some []) ->
  clean_from prev_empty lines = lines.
Proof.
  revert prev_empty. induction lines as [|line lines IH];
    intros prev_empty Hs Hnd Hhead; simpl; [done|].
  apply Forall_cons in Hs as [Hline Hs]. rewrite Hline.
  destruct line as [|c l].
  - destruct prev_empty; [by destruct Hhead|]. simpl. f_equal.
    apply IH; [done| |].
    + intros i Hi. by apply (Hnd (S i)).
    + intros _ Hh. apply (Hnd 0%nat); [done|]. simpl. by destruct lines.
  - f_equal. apply IH; [done| |done].
    intros i Hi. by apply (Hnd (S i)).
Qed.

Lemma clean_from_nonempty (lines : list str) :
  lines <> [] -> clean_from false lines <> [].
Proof. destruct lines as [|line lines]; [done|]. intros _. simpl. by destruct (strip line). Qed.

(** X9.  The post-processed answer is, for a non-negative
    [max_synthesis_length], at most three characters longer than that
    length.  An answer that fits the length consists of lines that
    neither start nor end with white space, with no blank line after a
    blank line, and post-processing it again changes nothing. *)
Theorem post_process_answer_is_clean (answer : str) :
  let result := _post_process_answer config answer in
  (0 <= max_synthesis_length config -> len result <= max_synthesis_length config + 3) /\
  (len result <= max_synthesis_length config ->
   Forall stripped (split_on 10 result) /\
   no_double_blank (split_on 10 result) /\
   _post_process_answer config result = result).
Proof.
  intros result. unfold result, _post_process_answer.
  rewrite foldl_clean_step. cbn [app].
  set (cleaned := clean_from false (split_on 10 answer)).
  destruct (clean_from_spec false (split_on 10 answer))
    as (Hstripped & Hfrom & Hnd & _). fold cleaned in Hstripped, Hfrom, Hnd.
  assert (split_on 10 (join [10]%N cleaned) = cleaned) as Hsplit.
  { apply split_on_join.
    - apply clean_from_nonempty, split_on_go_nonempty.
    - intros l Hl. destruct (Hfrom l Hl) as (line & Hline & ->).
      intros Hin%elem_of_strip. by apply (split_on_free 10 answer line). }
  destruct (Z.ltb_spec (max_synthesis_length config) (len (join [10]%N cleaned)))
    as [Hlong|Hfits].
  - split.
    + intros Hmax. rewrite len_app.
      pose proof (len_slice_to_le (max_synthesis_length config)
                    (join [10]%N cleaned) Hmax).
      change (len (u8 "...")) with 3. lia.
    + intros Hlen. exfalso. rewrite len_app in Hlen.
      change (len (u8 "...")) with 3 in Hlen.
      pose proof (len_nonneg (slice_to (max_synthesis_length config)
                                (join [10]%N cleaned))).
      pose proof (len_nonneg (join [10]%N cleaned)).
      destruct (Z.le_gt_cases 0 (max_synthesis_length config)) as [Hpos|Hneg]; [|lia].
      unfold slice_to in Hlen.
      rewrite (proj2 (Z.leb_le 0 _) Hpos) in Hlen.
      unfold len in Hlen, Hlong. rewrite length_take in Hlen. lia.
  - split; [lia|]. intros _. rewrite Hsplit. split; [done|]. split; [done|].
    rewrite foldl_clean_step. cbn [app].
    rewrite clean_from_id by done.
    by rewrite (proj2 (Z.ltb_ge _ _) Hfits).
Qed.

End PostProcessFacts.

Lemma rfind_from_bounds (sub s : str) (i : Z) :
  rfind_from sub s i = -1 \/ i <= rfind_from sub s i < i + len s.
Proof.
  revert i. induction s as [|a s IH]; intros i; simpl; [by left|].
  rewrite len_cons. pose proof (len_nonneg s).
  destruct (Z.leb_spec 0 (rfind_from sub s (i + 1))) as [Hr|Hr].
  - destruct (IH (i + 1)) as [Heq|Hin]; [lia|]. right. lia.
  - destruct (startswith sub (a :: s)); [right; lia|by left].
Qed.

Lemma rfind_lt_len (sub s : str) : rfind sub s < len s.
Proof.
  unfold rfind. pose proof (len_nonneg s).
  destruct (rfind_from_bounds sub s 0); lia.
Qed.

Lemma length_flat_map_le {A B} (f : A -> list B) (l : list A) :
  (forall a, (length (f a) <= 1)%nat) -> (length (flat_map f l) <= length l)%nat.
Proof.
  intros Hf. induction l as [|a l IH]; simpl; [done|].
  rewrite length_app. specialize (Hf a). lia.
Qed.

Lemma Forall_flat_map {A B} (P : B -> Prop) (f : A -> list B) (l : list A) :
  (forall a, Forall P (f a)) -> Forall P (flat_map f l).
Proof.
  intros Hf. induction l as [|a l IH]; simpl; [constructor|].
  apply Forall_app. by split.
Qed.

(** The length of a joined list of pieces of bounded length. *)
Lemma len_join_le (sep : str) (bound : Z) (l : list str) :
  l <> [] -> Forall (fun p => len p <= bound) l ->
  len (join sep l) + len sep <= Z.of_nat (length l) * (bound + len sep).
Proof.
  induction l as [|p l IH]; [done|]. intros _ Hl.
  apply Forall_cons in Hl as [Hp Hl].
  destruct l as [|q l].
  - simpl. lia.
  - rewrite join_cons_cons, !len_app.
    specialize (IH ltac:(done) Hl).
    change (length (p :: q :: l)) with (S (length (q :: l))). lia.
Qed.

Lemma join_nonempty (sep : str) (l : list str) :
  l <> [] -> Forall (fun p => p <> []) l -> join sep l <> [].
Proof.
  destruct l as [|p l]; [done|]. intros _ Hl.
  apply Forall_cons in Hl as [Hp _]. by apply join_cons_nonempty.
Qed.

Lemma length_slice_to_le {A} (k : Z) (l : list A) :
  0 <= k -> (length (slice_to k l) <= Z.to_nat k)%nat.
Proof.
  intros Hk. pose proof (len_slice_to_le k l Hk). unfold len in *. lia.
Qed.

Section AnswerFacts.
Import ResultSynthesizer.

(** The quoted key content: at most two stripped excerpts of at most 200
    characters each, or a fixed placeholder. *)
Lemma extract_key_content_spec (results : list Chunk.t) :
  _extract_key_content results <> [] /\ len (_extract_key_content results) <= 401.
Proof.
  unfold _extract_key_content.
  destruct results as [|r0 rs] eqn:E; [by vm_compute|]. rewrite <- E. clear E.
  match goal with
  | |- context [flat_map ?f (slice_to 2 results)] =>
    set (contents := flat_map f (slice_to 2 results));
    assert (Forall (fun p => p <> [] /\ len p <= 200) contents) as Hall;
    [apply Forall_flat_map|
     assert ((length contents <= 2)%nat) as Hlen;
     [etrans; [apply length_flat_map_le|apply (length_slice_to_le 2); lia]|]]
  end.
  - intros r. destruct (default [] (Chunk.content r)) as [|c content]; [constructor|].
    destruct (strip (slice_to 200 (c :: content))) as [|c' content'] eqn:Hs;
      constructor; [|constructor].
    split; [done|]. rewrite <- Hs.
    pose proof (len_strip (slice_to 200 (c :: content))).
    pose proof (len_slice_to_le 200 (c :: content)). lia.
  - intros r. destruct (default [] (Chunk.content r)) as [|c content]; [simpl; lia|].
    destruct (strip _); simpl; lia.
  - destruct contents as [|p ps] eqn:E; [by vm_compute|]. rewrite <- E in *.
    split.
    + apply join_nonempty; [by rewrite E|].
      eapply Forall_impl; [exact Hall|]. by intros ? [? _].
    + pose proof (len_join_le (u8 "；") 200 contents) as Hjoin.
      change (len (u8 "；")) with 1 in Hjoin.
      assert (contents <> []) as Hne by (by rewrite E).
      assert (Forall (fun p => len p <= 200) contents) as Hbound.
      { eapply Forall_impl; [exact Hall|]. by intros ? [_ ?]. }
      specialize (Hjoin Hne Hbound). apply Nat2Z.inj_le in Hlen.
      unfold str in *. lia.
Qed.

(** X10.  The key content the rule-based synthesis quotes for a step is
    never empty and never longer than 401 characters: at most two
    stripped excerpts of at most 200 characters each, or a fixed
    placeholder. *)
Theorem extract_key_content_bounds (results : list Chunk.t) :
  _extract_key_content results <> [] /\ len (_extract_key_content results) <= 401.
Proof. apply extract_key_content_spec. Qed.

(** The direct rule-based answer: at most three excerpts of at most 503
    characters each, or a fixed apology. *)
Lemma rule_generate_simple_answer_spec (results : list Chunk.t) :
  _rule_generate_simple_answer results <> [] /\
  len (_rule_generate_simple_answer results) <= 1513.
Proof.
  unfold _rule_generate_simple_answer.
  match goal with
  | |- context [flat_map ?f (slice_to 3 results)] =>
    set (contents := flat_map f (slice_to 3 results));
    assert (Forall (fun p => p <> [] /\ len p <= 503) contents) as Hall;
    [apply Forall_flat_map|
     assert ((length contents <= 3)%nat) as Hlen;
     [etrans; [apply length_flat_map_le|apply (length_slice_to_le 3); lia]|]]
  end.
  - intros r. destruct (strip (default [] (Chunk.content r))) as [|c content];
      [constructor|].
    set (text := c :: content).
    destruct (Z.ltb_spec 500 (len text)) as [Hlong|Hshort].
    + set (truncated := slice_to 500 text).
      pose proof (rfind_lt_len (u8 "。") truncated) as Hp.
      pose proof (rfind_lt_len (u8 ". ") truncated) as Hd.
      pose proof (len_slice_to_le 500 text) as Ht. fold truncated in Ht.
      destruct (Z.ltb_spec 300 (Z.max (rfind (u8 "。") truncated)
                                      (rfind (u8 ". ") truncated))) as [Hcut|Hcut];
        (constructor; [|constructor]).
      * split.
        -- unfold slice_to. rewrite (proj2 (Z.leb_le 0 _)) by lia.
           intros Hnil%(f_equal length). rewrite length_take in Hnil.
           unfold len in Hlong. change (length (A := N) []) with 0%nat in Hnil. lia.
        -- match goal with
           | |- len (slice_to ?k _) <= _ => pose proof (len_slice_to_le k text)
           end. lia.
      * split; [intros [_ H]%app_eq_nil; by vm_compute in H|].
        rewrite len_app. change (len (u8 "...")) with 3. lia.
    + constructor; [|constructor]. split; [done|lia].
  - intros r. destruct (strip _) as [|c content]; [simpl; lia|].
    repeat case_match; simpl; lia.
  - destruct contents as [|p ps] eqn:E; [by vm_compute|]. rewrite <- E in *.
    split.
    + apply join_nonempty; [by rewrite E|].
      eapply Forall_impl; [exact Hall|]. by intros ? [? _].
    + pose proof (len_join_le [10; 10]%N 503 contents) as Hjoin.
      change (len [10; 10]%N) with 2 in Hjoin.
      assert (contents <> []) as Hne by (by rewrite E).
      assert (Forall (fun p => len p <= 503) contents) as Hbound.
      { eapply Forall_impl; [exact Hall|]. by intros ? [_ ?]. }
      specialize (Hjoin Hne Hbound). apply Nat2Z.inj_le in Hlen.
      unfold str in *. lia.
Qed.

(** X11.  The direct rule-based answer is never empty and never longer
    than 1513 characters: at most three excerpts, each cut at the last
    sentence end before its 500th character or after 500 characters and
    three dots, or a fixed apology. *)
Theorem rule_generate_simple_answer_bounds (results : list Chunk.t) :
  _rule_generate_simple_answer results <> [] /\
  len (_rule_generate_simple_answer results) <= 1513.
Proof. apply rule_generate_simple_answer_spec. Qed.

End AnswerFacts.

Lemma getitem_raises {A} (l : list A) (i : Z) (e : exn) :
  getitem l i = Raise e <-> e = IndexError /\ (i < - len l \/ len l <= i).
Proof.
  split.
  - intros Hget.
    destruct (decide (- len l <= i < len l)) as [Hin|Hout].
    + destruct (getitem_ok l i Hin) as [a Ha]. congruence.
    + split; [|lia]. unfold getitem in Hget.
      repeat case_match; congruence.
  - intros [-> Hout]. unfold getitem.
    destruct (Z.leb_spec 0 i) as [Hi|Hi].
    + rewrite (proj2 (Z.leb_le 0 i)) by done.
      rewrite lookup_ge_None_2; [done|]. unfold len in Hout. lia.
    + destruct (Z.leb_spec 0 (len l + i)) as [Hj|Hj]; [|done].
      rewrite lookup_ge_None_2; [done|]. unfold len in *. lia.
Qed.

Section RuleSynthesisFacts.
Import ResultSynthesizer.

Lemma collect_parts_ok {A} (P : str -> Prop) (body : A -> result (list str))
    (l : list A) :
  (forall a, a ∈ l -> exists parts, body a = Ok parts /\ Forall P parts) ->
  exists parts, collect_parts body l = Ok parts /\ Forall P parts.
Proof.
  induction l as [|a l IH]; intros Hbody; cbn [collect_parts].
  { exists []. by split. }
  destruct (Hbody a) as (parts & -> & Hparts); [left|].
  destruct IH as (rest & -> & Hrest); [intros b Hb; apply Hbody; by right|].
  cbn [bind]. exists (parts ++ rest). split; [done|]. by apply Forall_app.
Qed.

Lemma collect_parts_raises {A} (body : A -> result (list str)) (l : list A) (e : exn) :
  collect_parts body l = Raise e -> exists a, a ∈ l /\ body a = Raise e.
Proof.
  induction l as [|a l IH]; cbn [collect_parts]; [done|].
  destruct (body a) as [parts|e'] eqn:Ha; cbn [bind].
  - destruct (collect_parts body l) as [rest|e'']; cbn [bind]; [done|].
    intros [= ->]. destruct IH as (b & Hb & Hraise); [done|].
    exists b. split; [by right|done].
  - intros [= ->]. exists a. split; [left|done].
Qed.

Lemma collect_parts_raises_2 {A} (body : A -> result (list str)) (l : list A)
    (a : A) (e : exn) :
  a ∈ l -> body a = Raise e -> (forall b e', body b = Raise e' -> e' = e) ->
  collect_parts body l = Raise e.
Proof.
  intros Ha Hraise Hsame. induction l as [|b l IH]; [by apply elem_of_nil in Ha|].
  cbn [collect_parts].
  destruct (body b) as [parts|e'] eqn:Hb; cbn [bind].
  - apply elem_of_cons in Ha as [->|Ha]; [congruence|].
    by rewrite IH.
  - f_equal. by apply (Hsame b).
Qed.

Section Steps.
Variable decomposition : DecompositionResult.t.
Variable sub_results : gmap Z (list Chunk.t).
Local Abbreviation sub_queries := (DecompositionResult.sub_queries decomposition).

Lemma comparative_step_raises (query_idx : Z) (e : exn) :
  comparative_step decomposition sub_results query_idx = Raise e <->
  e = IndexError /\ is_Some (sub_results !! query_idx) /\
  (query_idx < - len sub_queries \/ len sub_queries <= query_idx).
Proof.
  unfold comparative_step.
  destruct (sub_results !! query_idx) as [results|] eqn:E.
  - destruct (getitem sub_queries query_idx) as [sub_query|e'] eqn:Hget; cbn [bind].
    + split; [by destruct results|]. intros (-> & _ & Hout).
      assert (getitem sub_queries query_idx = Raise IndexError) as Hr
        by (by apply getitem_raises). congruence.
    + apply getitem_raises in Hget as [-> Hout].
      split; [intros [= <-]; eauto|]. by intros (-> & _).
  - split; [done|]. by intros (_ & [? ?] & _).
Qed.

Lemma multi_aspect_step_raises (query_idx : Z) (e : exn) :
  multi_aspect_step decomposition sub_results query_idx = Raise e <->
  e = IndexError /\ is_Some (sub_results !! query_idx) /\
  query_idx < - len sub_queries.
Proof.
  unfold multi_aspect_step. pose proof (len_nonneg sub_queries) as Hlen.
  destruct (sub_results !! query_idx) as [results|] eqn:E.
  - destruct (Z.ltb_spec query_idx (len sub_queries)) as [Hlt|Hge].
    + destruct (getitem sub_queries query_idx) as [sub_query|e'] eqn:Hget; cbn [bind].
      * split; [by destruct results|]. intros (-> & _ & Hout).
        assert (getitem sub_queries query_idx = Raise IndexError) as Hr
          by (apply getitem_raises; split; [done|by left]).
        congruence.
      * apply getitem_raises in Hget as [-> Hout].
        split; [intros [= <-]; split; [done|split; [eauto|lia]]|]. by intros (-> & _).
    + split; [done|]. intros (_ & _ & Hout). lia.
  - split; [done|]. by intros (_ & [? ?] & _).
Qed.

Lemma general_step_ok (query_idx : Z) :
  exists parts,
    general_step sub_results query_idx = Ok parts /\ Forall (fun p => p <> []) parts.
Proof.
  unfold general_step.
  destruct (sub_results !! query_idx) as [[|r rs]|]; eauto.
  eexists. split; [done|]. constructor; [|constructor].
  apply extract_key_content_spec.
Qed.

Lemma app_nonempty_r {A} (l k : list A) : k <> [] -> l ++ k <> [].
Proof. intros Hk [_ ?]%app_eq_nil. done. Qed.

Lemma app_nonempty_l {A} (l k : list A) : l <> [] -> l ++ k <> [].
Proof. intros Hl [? _]%app_eq_nil. done. Qed.

Lemma comparative_step_ok (query_idx : Z) :
  keys_index decomposition sub_results ->
  exists parts,
    comparative_step decomposition sub_results query_idx = Ok parts /\
    Forall (fun p => p <> []) parts.
Proof.
  intros Hkeys.
  destruct (comparative_step decomposition sub_results query_idx) as [parts|e] eqn:E.
  - exists parts. split; [done|]. unfold comparative_step in E.
    destruct (sub_results !! query_idx) as [results|]; [|by injection E as <-].
    destruct (getitem sub_queries query_idx) as [sub_query|]; [|done].
    cbn [bind] in E. destruct results; injection E as <-; [done|].
    constructor; [|constructor]. done.
  - apply comparative_step_raises in E as (_ & Hkey & Hout).
    apply Hkeys in Hkey. lia.
Qed.

Lemma multi_aspect_step_ok (query_idx : Z) :
  keys_index decomposition sub_results ->
  exists parts,
    multi_aspect_step decomposition sub_results query_idx = Ok parts /\
    Forall (fun p => p <> []) parts.
Proof.
  intros Hkeys.
  destruct (multi_aspect_step decomposition sub_results query_idx) as [parts|e] eqn:E.
  - exists parts. split; [done|]. unfold multi_aspect_step in E.
    destruct (sub_results !! query_idx) as [results|]; [|by injection E as <-].
    destruct (query_idx <? _); [|by injection E as <-].
    destruct (getitem sub_queries query_idx) as [sub_query|]; [|done].
    cbn [bind] in E. destruct results; injection E as <-; [done|].
    constructor; [|constructor]. by apply app_nonempty_r.
  - apply multi_aspect_step_raises in E as (_ & Hkey & Hout).
    apply Hkeys in Hkey. lia.
Qed.

(** With keys that index the sub-queries the rule-based synthesis
    returns, and its answer is not empty. *)
Lemma rule_based_synthesize_nonempty (original_query : str) :
  keys_index decomposition sub_results ->
  exists answer,
    _rule_based_synthesize original_query decomposition sub_results = Ok answer /\
    answer <> [].
Proof.
  intros Hkeys. unfold _rule_based_synthesize.
  assert (exists parts,
    (if decide (QueryIntent.intent_type (DecompositionResult.intent decomposition)
                = u8 "comparative")
     then _synthesize_comparative_results decomposition sub_results
     else if decide (QueryIntent.intent_type (DecompositionResult.intent decomposition)
                     = u8 "multi_aspect")
     then _synthesize_multi_aspect_results decomposition sub_results
     else _synthesize_general_results decomposition sub_results) = Ok parts /\
    Forall (fun p => p <> []) parts) as (parts & -> & Hparts).
  { repeat case_decide.
    - unfold _synthesize_comparative_results.
      destruct (collect_parts_ok (fun p => p <> [])
                  (comparative_step decomposition sub_results)
                  (slice_to (-1) (DecompositionResult.execution_plan decomposition)))
        as (parts & -> & Hparts); [intros; by apply comparative_step_ok|].
      cbn [bind].
      destruct (last _) as [last_idx|]; [|eauto].
      destruct (sub_results !! last_idx) as [[|r rs]|]; eauto.
      eexists. split; [done|]. apply Forall_app. split; [done|].
      constructor; [|constructor]. apply app_nonempty_l. by vm_compute.
    - apply collect_parts_ok. intros. by apply multi_aspect_step_ok.
    - apply collect_parts_ok. intros. apply general_step_ok. }
  cbn [bind]. destruct parts as [|p parts]; [by eexists|].
  eexists. split; [done|]. by apply join_nonempty.
Qed.

End Steps.

(** Without a language model every branch of the synthesizer ends in a
    text that is not empty. *)
Lemma synthesize_results_nonempty (config : Config)
    (_llm_generate_simple_answer : str -> list Chunk.t -> str)
    (original_query : str) (decomposition : DecompositionResult.t)
    (sub_results : gmap Z (list Chunk.t)) :
  keys_index decomposition sub_results ->
  exists answer,
    synthesize_results None config _llm_generate_simple_answer
      original_query decomposition sub_results = Ok answer /\
    answer <> [].
Proof.
  intros Hkeys. unfold synthesize_results.
  destruct (map_to_list sub_results) as [|[k results] [|kr rest]].
  - by eexists.
  - eexists. split; [done|]. unfold _generate_simple_answer.
    destruct results; [done|]. apply rule_generate_simple_answer_spec.
  - by apply rule_based_synthesize_nonempty.
Qed.

(** X12.  Without a language model the synthesizer returns an answer
    that is not empty, for every question, decomposition and set of step
    results whose keys are indices of the sub-queries. *)
Theorem synthesis_without_model_is_never_empty (config : Config)
    (_llm_generate_simple_answer : str -> list Chunk.t -> str)
    (original_query : str) (decomposition : DecompositionResult.t)
    (sub_results : gmap Z (list Chunk.t)) :
  keys_index decomposition sub_results ->
  exists answer,
    synthesize_results None config _llm_generate_simple_answer
      original_query decomposition sub_results = Ok answer /\
    answer <> [].
Proof. apply synthesize_results_nonempty. Qed.

(** X13.  A language model whose call raises, produces nothing or ends
    with a message that is not the assistant's leaves the synthesis of
    several steps to the rules: the answer is the one the synthesizer
    gives without a model. *)
Theorem failed_model_falls_back (config : Config)
    (_llm_generate_simple_answer : str -> list Chunk.t -> str)
    (model : str -> ChatOutcome) (original_query : str)
    (decomposition : DecompositionResult.t) (sub_results : gmap Z (list Chunk.t)) :
  (forall prompt content, model prompt <> ChatReply true content) ->
  _llm_synthesize config model original_query decomposition sub_results =
    _rule_based_synthesize original_query decomposition sub_results /\
  ((2 <= size sub_results)%nat ->
   synthesize_results (Some model) config _llm_generate_simple_answer
     original_query decomposition sub_results =
   synthesize_results None config _llm_generate_simple_answer
     original_query decomposition sub_results).
Proof.
  intros Hfails.
  assert (_llm_synthesize config model original_query decomposition sub_results =
          _rule_based_synthesize original_query decomposition sub_results) as Hllm.
  { unfold _llm_synthesize, llm_synthesize_try.
    destruct (_build_synthesis_prompt config original_query decomposition sub_results)
      as [prompt|e]; cbn [bind try_except]; [|done].
    destruct (model prompt) as [e| |[|] content] eqn:Hreply; cbn [bind try_except];
      try done.
    by destruct (Hfails prompt content). }
  split; [done|]. intros Hsize. unfold synthesize_results.
  pose proof (length_map_to_list sub_results) as Hlen.
  destruct (map_to_list sub_results) as [|[k results] [|kr rest]];
    simpl in Hlen; [lia|lia|done].
Qed.

(** X14.  The rule-based synthesis raises nothing but [IndexError], and
    raises it exactly in two cases: for a comparative intent, when an
    index of the plan other than its last entry is a key of the step
    results and lies outside the list of sub-queries (this branch does not
    test the index); for a multi-aspect intent, when an index of the plan
    is a key of the step results and lies below [-len(sub_queries)] (this
    branch skips the indices that are too large). *)
Theorem rule_based_synthesis_raises (original_query : str)
    (decomposition : DecompositionResult.t) (sub_results : gmap Z (list Chunk.t))
    (e : exn) :
  let intent_type := QueryIntent.intent_type (DecompositionResult.intent decomposition) in
  let sub_queries := DecompositionResult.sub_queries decomposition in
  let plan := DecompositionResult.execution_plan decomposition in
  _rule_based_synthesize original_query decomposition sub_results = Raise e <->
  e = IndexError /\
  ((intent_type = u8 "comparative" /\
    exists idx, idx ∈ slice_to (-1) plan /\ is_Some (sub_results !! idx) /\
                (idx < - len sub_queries \/ len sub_queries <= idx)) \/
   (intent_type <> u8 "comparative" /\ intent_type = u8 "multi_aspect" /\
    exists idx, idx ∈ plan /\ is_Some (sub_results !! idx) /\
                idx < - len sub_queries)).
Proof.
  intros intent_type sub_queries plan. unfold _rule_based_synthesize.
  fold intent_type.
  destruct (decide (intent_type = u8 "comparative")) as [Hc|Hc];
    [|destruct (decide (intent_type = u8 "multi_aspect")) as [Hm|Hm]].
  - unfold _synthesize_comparative_results. fold plan.
    destruct (collect_parts _ (slice_to (-1) plan)) as [parts|e'] eqn:Hcollect;
      cbn [bind].
    + split.
      * destruct (last plan) as [last_idx|]; [|by destruct parts].
        destruct (sub_results !! last_idx) as [[|r rs]|]; cbn [bind];
          by destruct parts.
      * intros (-> & [(_ & idx & Hidx & Hkey & Hout)|(Hne & _)]); [|done].
        rewrite (collect_parts_raises_2 _ _ idx IndexError) in Hcollect; [done|done| |].
        -- by apply comparative_step_raises.
        -- by intros b e' (-> & _)%comparative_step_raises.
    + apply collect_parts_raises in Hcollect as (idx & Hidx & Hraise).
      apply comparative_step_raises in Hraise as (-> & Hkey & Hout).
      split; [intros [= <-]|by intros (-> & _)].
      split; [done|]. left. split; [done|]. by exists idx.
  - unfold _synthesize_multi_aspect_results. fold plan.
    destruct (collect_parts _ plan) as [parts|e'] eqn:Hcollect; cbn [bind].
    + split; [by destruct parts|].
      intros (-> & [(Heq & _)|(_ & _ & idx & Hidx & Hkey & Hout)]); [done|].
      rewrite (collect_parts_raises_2 _ _ idx IndexError) in Hcollect; [done|done| |].
      * by apply multi_aspect_step_raises.
      * by intros b e' (-> & _)%multi_aspect_step_raises.
    + apply collect_parts_raises in Hcollect as (idx & Hidx & Hraise).
      apply multi_aspect_step_raises in Hraise as (-> & Hkey & Hout).
      split; [intros [= <-]|by intros (-> & _)].
      split; [done|]. right. split; [done|]. split; [done|]. by exists idx.
  - unfold _synthesize_general_results. fold plan.
    destruct (collect_parts_ok (fun _ => True) (general_step sub_results) plan)
      as (parts & -> & _).
    { intros idx _. destruct (general_step_ok sub_results idx) as (parts & -> & _).
      exists parts. split; [done|]. by apply Forall_true. }
    cbn [bind]. split; [by destruct parts|].
    intros (_ & [(Heq & _)|(_ & Heq & _)]); done.
Qed.

End RuleSynthesisFacts.

Lemma two_hit_results_keys_index : keys_index two_step_decomposition two_hit_results.
Proof.
  intros k [results H]. unfold two_hit_results in H.
  apply lookup_insert_Some in H as [[<- _]|[_ H]]; [by vm_compute|].
  apply lookup_insert_Some in H as [[<- _]|[_ H]]; [by vm_compute|done].
Qed.

(** The theorem at two steps with one hit each. *)
Lemma synthesis_without_model_is_never_empty_witness :
  exists answer,
    ResultSynthesizer.synthesize_results None ResultSynthesizer.default_config
      (fun _ _ => []) (u8 "Q") two_step_decomposition two_hit_results = Ok answer /\
    answer <> [].
Proof.
  apply (synthesis_without_model_is_never_empty ResultSynthesizer.default_config
           (fun _ _ => []) (u8 "Q") two_step_decomposition two_hit_results).
  apply two_hit_results_keys_index.
Defined.

(** The theorem at a model whose backend refuses the connection. *)
Lemma failed_model_falls_back_witness :
  ResultSynthesizer._llm_synthesize ResultSynthesizer.default_config model_down
    (u8 "Q") two_step_decomposition two_hit_results =
  ResultSynthesizer._rule_based_synthesize (u8 "Q") two_step_decomposition
    two_hit_results.
Proof.
  refine (proj1 (failed_model_falls_back ResultSynthesizer.default_config
                   (fun _ _ => []) model_down (u8 "Q") two_step_decomposition
                   two_hit_results _)).
  intros prompt content. discriminate.
Defined.

(* --------------------------------------------------------------------- *)
(** ** The reranker: normalisation, keyword and position scores           *)
(* --------------------------------------------------------------------- *)

Example find_first_occurrence :
  find (u8 "ab") (u8 "xxabab") = 2 /\ find (u8 "z") (u8 "abc") = -1 /\
  find [] (u8 "abc") = 0 /\ find [] [] = 0.
Proof. by vm_compute. Qed.

Example count_without_overlap :
  count (u8 "aa") (u8 "aaaa") = 2 /\ count (u8 "aa") (u8 "aaa") = 1 /\
  count [] (u8 "ab") = 3 /\ count (u8 "比") (u8 "比较比") = 2.
Proof. by vm_compute. Qed.

Lemma list_min_spec (x : Q) (l : list Q) :
  (list_min x l <= x)%Q /\ Forall (fun y => list_min x l <= y)%Q l /\
  list_min x l ∈ x :: l.
Proof.
  unfold list_min. revert x. induction l as [|y l IH]; intros x; simpl.
  { split; [apply Qle_refl|]. split; [constructor|left]. }
  destruct (Qltb y x) eqn:E.
  - destruct (IH y) as (Hy & Hl & Hin). apply Qltb_lt in E.
    split; [eapply Qle_trans; [exact Hy|by apply Qlt_le_weak]|].
    split; [by constructor|]. by right.
  - destruct (IH x) as (Hx & Hl & Hin). apply Qltb_ge in E.
    split; [done|]. split; [constructor; [by eapply Qle_trans|done]|].
    apply elem_of_cons in Hin as [->|Hin]; [left|right; by right].
Qed.

Lemma list_max_spec (x : Q) (l : list Q) :
  (x <= list_max x l)%Q /\ Forall (fun y => y <= list_max x l)%Q l /\
  list_max x l ∈ x :: l.
Proof.
  unfold list_max. revert x. induction l as [|y l IH]; intros x; simpl.
  { split; [apply Qle_refl|]. split; [constructor|left]. }
  destruct (Qltb x y) eqn:E.
  - destruct (IH y) as (Hy & Hl & Hin). apply Qltb_lt in E.
    split; [eapply Qle_trans; [by apply Qlt_le_weak|exact Hy]|].
    split; [by constructor|]. by right.
  - destruct (IH x) as (Hx & Hl & Hin). apply Qltb_ge in E.
    split; [done|]. split; [constructor; [by eapply Qle_trans|done]|].
    apply elem_of_cons in Hin as [->|Hin]; [left|right; by right].
Qed.

Lemma Qdiv_unit_interval (a d : Q) :
  (0 <= a)%Q -> (a <= d)%Q -> (0 < d)%Q -> (0 <= a / d <= 1)%Q.
Proof.
  intros Ha Had Hd. split.
  - apply Qle_shift_div_l; [done|]. by rewrite Qmult_0_l.
  - apply Qle_shift_div_r; [done|]. by rewrite Qmult_1_l.
Qed.

(** X15.  Normalising a list of scores keeps its length and the order of
    its entries and maps every score into [0, 1]: a greatest score becomes
    1 and, unless all scores are equal, a least score becomes 0; when
    all scores are equal every entry becomes 1. *)
Theorem normalize_scores_spec (scores : list Q) :
  let normalized := RerankerScores._normalize_scores scores in
  length normalized = length scores /\
  Forall (fun s => 0 <= s <= 1)%Q normalized /\
  (forall i j a b a' b',
     scores !! i = Some a -> scores !! j = Some b ->
     normalized !! i = Some a' -> normalized !! j = Some b' ->
     (a <= b)%Q -> (a' <= b')%Q) /\
  (forall i a a',
     scores !! i = Some a -> normalized !! i = Some a' ->
     (forall b, b ∈ scores -> (b <= a)%Q) -> (a' == 1)%Q) /\
  (forall i a a',
     scores !! i = Some a -> normalized !! i = Some a' ->
     (forall b, b ∈ scores -> (a <= b)%Q) ->
     (exists b, b ∈ scores /\ ~ (b == a)%Q) -> (a' == 0)%Q).
Proof.
  intros normalized. unfold normalized, RerankerScores._normalize_scores.
  destruct scores as [|x l] eqn:E.
  { split; [done|]. split; [constructor|]. split; [|split]; intros i; intros;
      by rewrite lookup_nil in *. }
  rewrite <- E.
  destruct (list_min_spec x l) as (Hminx & Hminl & Hmin_in).
  destruct (list_max_spec x l) as (Hmaxx & Hmaxl & Hmax_in).
  set (lo := list_min x l) in *. set (hi := list_max x l) in *.
  rewrite <- E in Hmin_in, Hmax_in.
  assert (forall b, b ∈ scores -> (lo <= b <= hi)%Q) as Hrange.
  { intros b Hb. rewrite E in Hb. rewrite Forall_forall in Hminl, Hmaxl.
    apply elem_of_cons in Hb as [->|Hb]; [done|]. split; [by apply Hminl|by apply Hmaxl]. }
  destruct (decide (hi == lo)%Q) as [Heq|Hne].
  - split; [by rewrite length_replicate|].
    split; [apply Forall_replicate; lra|].
    split; [|split].
    + intros i j a b a' b' _ _ [-> _]%lookup_replicate [-> _]%lookup_replicate _.
      apply Qle_refl.
    + by intros i a a' _ [-> _]%lookup_replicate _.
    + intros i a a' Ha _ Hleast (b & Hb & Hba). exfalso. apply Hba.
      pose proof (Hrange a (list_elem_of_lookup_2 _ _ _ Ha)).
      pose proof (Hrange b Hb). pose proof (Hleast b Hb).
      apply Qle_antisym; lra.
  - assert (0 < hi - lo)%Q as Hpos.
    { destruct (Hrange lo Hmin_in) as [_ Hle].
      destruct (Qlt_le_dec lo hi) as [Hlt|Hge]; [lra|].
      exfalso. apply Hne. by apply Qle_antisym. }
    change (map ?f scores) with (f <$> scores).
    split; [by rewrite length_fmap|].
    assert (0 < Float.sub hi lo)%Q as Hd by (by apply round_positive).
    assert (forall a b, (a <= b)%Q -> (Float.sub a lo <= Float.sub b lo)%Q) as Hsub.
    { intros a b Hab. apply round_mono. lra. }
    assert (Float.sub lo lo = 0%Q) as Hzero by (apply round_of_zero; ring).
    split.
    { apply Forall_fmap, Forall_forall. intros s Hs. simpl.
      destruct (Hrange s Hs). apply div_unit_interval; [|by apply Hsub|done].
      rewrite <- Hzero. by apply Hsub. }
    split; [|split].
    + intros i j a b a' b' Ha Hb. rewrite !list_lookup_fmap, Ha, Hb.
      intros [= <-] [= <-] Hab. apply div_mono_l; [done|]. by apply Hsub.
    + intros i a a' Ha. rewrite list_lookup_fmap, Ha. intros [= <-] Hgreatest.
      pose proof (Hrange a (list_elem_of_lookup_2 _ _ _ Ha)) as [_ Hhi].
      pose proof (Hgreatest hi Hmax_in) as Hle.
      assert (Float.sub a lo = Float.sub hi lo) as ->.
      { apply round_comp. assert (a == hi)%Q as -> by (apply Qle_antisym; lra). done. }
      by apply div_same.
    + intros i a a' Ha. rewrite list_lookup_fmap, Ha. intros [= <-] Hleast _.
      pose proof (Hrange a (list_elem_of_lookup_2 _ _ _ Ha)) as [Hlo _].
      pose proof (Hleast lo Hmin_in) as Hle.
      assert (Float.sub a lo = 0%Q) as ->.
      { apply round_of_zero. assert (a == lo)%Q as -> by (apply Qle_antisym; lra). ring. }
      unfold Float.div. rewrite (round_of_zero (0 / Float.sub hi lo)); [done|].
      unfold Qdiv. ring.
Qed.

Lemma find_from_bounds (sub s : str) (i : Z) :
  find_from sub s i = -1 \/ i <= find_from sub s i <= i + len s.
Proof.
  revert i. induction s as [|a s IH]; intros i; simpl.
  - destruct (startswith sub []); [right; unfold len; simpl; lia|by left].
  - rewrite len_cons. pose proof (len_nonneg s).
    destruct (startswith sub (a :: s)); [right; lia|].
    destruct (IH (i + 1)) as [->|Hin]; [by left|right; lia].
Qed.

Lemma count_from_nonneg (sub s : str) (skip : nat) : 0 <= count_from sub s skip.
Proof.
  revert skip. induction s as [|a s IH]; intros skip; simpl; [done|].
  destruct skip; [|apply IH].
  destruct (startswith sub (a :: s)); [|apply IH].
  specialize (IH (length sub - 1)%nat). lia.
Qed.

Lemma count_nonneg (sub s : str) : 0 <= count sub s.
Proof.
  unfold count. destruct sub; [pose proof (len_nonneg s); lia|apply count_from_nonneg].
Qed.

Lemma inject_Z_pos (z : Z) : 0 < z -> (0 < inject_Z z)%Q.
Proof. intros H. change 0%Q with (inject_Z 0). by rewrite <- Zlt_Qlt. Qed.

Section KeywordFacts.
Variable lower : str -> str.
Variable ln : positive -> Q.
Variable _extract_keywords : str -> list str.
Local Abbreviation position_bonus :=
  (RerankerScores._calculate_keyword_position_bonus lower).
Local Abbreviation frequency_bonus :=
  (RerankerScores._calculate_keyword_frequency_bonus lower ln).

(** The ratio [1 - pos / len(content)] of a keyword found at [pos]. *)
Lemma position_ratio_bounds (pos n : Z) :
  0 <= pos <= n -> 0 < n ->
  (0 <= Float.sub 1 (Float.div_int pos n) <= 1)%Q.
Proof.
  intros Hpos Hn.
  assert (0 <= Float.div_int pos n <= 1)%Q as Hratio.
  { apply div_unit_interval.
    - apply inject_Z_nonneg. lia.
    - rewrite <- Zle_Qle. lia.
    - by apply inject_Z_pos. }
  apply round_unit_interval. lra.
Qed.

(** Counting in floats stops at 2^53. *)
Lemma float_count_step (j : Z) (total ratio : Q) :
  0 <= j ->
  (0 <= total <= inject_Z (Z.min j (2 ^ 53)))%Q -> (0 <= ratio <= 1)%Q ->
  (0 <= Float.add total ratio <= inject_Z (Z.min (j + 1) (2 ^ 53)))%Q.
Proof.
  intros Hj [H0 Hj'] [Hr0 Hr1]. split; [apply round_nonneg; lra|].
  destruct (Z.lt_ge_cases j (2 ^ 53)) as [Hlt|Hge].
  - rewrite Z.min_l in * by lia.
    apply round_le_float; [apply round_Z; lia|].
    rewrite inject_Z_plus. change (inject_Z 1) with 1%Q. lra.
  - rewrite Z.min_r in * by lia.
    eapply Qle_trans; [apply (round_mono _ (inject_Z (2 ^ 53 + 1)))|].
    + rewrite inject_Z_plus. change (inject_Z 1) with 1%Q. lra.
    + by vm_compute.
Qed.

(** The sum of the position ratios of the keywords found. *)
Lemma position_total_bounds (content : str) (keywords : list str) (j : Z) (total : Q) :
  content <> [] -> len (lower content) <= len content ->
  0 <= j ->
  (0 <= total <= inject_Z (Z.min j (2 ^ 53)))%Q ->
  let total' :=
    foldl
      (fun total_bonus keyword =>
         let pos := find (lower keyword) (lower content) in
         if decide (pos <> -1) then
           Float.add total_bonus (Float.sub 1 (Float.div_int pos (len content)))
         else total_bonus)
      total keywords in
  (0 <= total' <= inject_Z (Z.min (j + len keywords) (2 ^ 53)))%Q.
Proof.
  intros Hne Hlower. revert j total.
  assert (0 < len content) as Hlen.
  { destruct content; [done|]. rewrite len_cons. pose proof (len_nonneg content). lia. }
  cbn zeta.
  induction keywords as [|keyword keywords IH]; intros j total Hj Htotal; cbn [foldl].
  { unfold len. simpl. by rewrite Z.add_0_r. }
  rewrite len_cons. pose proof (len_nonneg keywords) as Hks.
  replace (j + (len keywords + 1)) with ((j + 1) + len keywords) by lia.
  apply IH; [lia|].
  case_decide as Hpos.
  - apply float_count_step; [done|done|].
    apply position_ratio_bounds; [|done].
    unfold find in *.
    destruct (find_from_bounds (lower keyword) (lower content) 0) as [?|Hin]; [done|lia].
  - destruct Htotal as [H0 H1]. split; [done|].
    eapply Qle_trans; [exact H1|]. rewrite <- Zle_Qle. lia.
Qed.

Lemma frequency_total_nonneg (content_lower : str) (keywords : list str) (total : Q) :
  (forall p, 0 <= ln p)%Q -> (0 <= total)%Q ->
  (0 <= foldl
          (fun total_frequency keyword =>
             Float.add total_frequency
               (ln (Z.to_pos (1 + count (lower keyword) content_lower))))
          total keywords)%Q.
Proof.
  intros Hln. revert total.
  induction keywords as [|keyword keywords IH]; intros total Htotal; simpl; [done|].
  apply IH, round_nonneg.
  pose proof (Hln (Z.to_pos (1 + count (lower keyword) content_lower))). lra.
Qed.

(** [float(n)] of a count is positive and not below the float count. *)
Lemma of_int_count (n : Z) :
  0 < n ->
  (0 < Float.of_int n)%Q /\ (inject_Z (Z.min n (2 ^ 53)) <= Float.of_int n)%Q.
Proof.
  intros Hn. split; [by apply round_positive, inject_Z_pos|].
  apply round_ge_float; [apply round_Z; lia|]. rewrite <- Zle_Qle. lia.
Qed.

Lemma position_bonus_bounds (keywords : list str) (content : str) :
  len (lower content) <= len content ->
  (0 <= position_bonus keywords content <= 1)%Q.
Proof.
  intros Hlower. unfold RerankerScores._calculate_keyword_position_bonus.
  destruct keywords as [|k ks] eqn:Ek; [lra|].
  destruct content as [|c cs] eqn:Ec; [lra|]. rewrite <- Ek, <- Ec in *.
  destruct (position_total_bounds content keywords 0 0.0) as [H0 H1];
    [by rewrite Ec|done|done|done|].
  assert (0 < len keywords) as Hlen.
  { rewrite Ek, len_cons. pose proof (len_nonneg ks). lia. }
  destruct (of_int_count (len keywords) Hlen) as [Hd Hge].
  cbn zeta in *. rewrite Z.add_0_l in H1.
  apply div_unit_interval; [done| |done].
  eapply Qle_trans; [exact H1|exact Hge].
Qed.

Lemma frequency_bonus_bounds (keywords : list str) (content : str) :
  (forall p, 0 <= ln p)%Q ->
  (0 <= frequency_bonus keywords content <= 1)%Q.
Proof.
  intros Hln. unfold RerankerScores._calculate_keyword_frequency_bonus.
  destruct keywords as [|k ks] eqn:Ek; [lra|].
  destruct content as [|c cs] eqn:Ec; [lra|]. rewrite <- Ek, <- Ec in *.
  assert (0 < len keywords) as Hlen.
  { rewrite Ek, len_cons. pose proof (len_nonneg ks). lia. }
  destruct (of_int_count (len keywords) Hlen) as [Hd _].
  split; [|eapply Qle_trans; [apply fmin_le_r|lra]].
  apply fmin_glb; [|lra].
  apply round_nonneg, Qle_shift_div_l; [done|]. rewrite Qmult_0_l.
  apply frequency_total_nonneg; [done|lra].
Qed.

Lemma mul_nonneg (a b : Q) : (0 <= a)%Q -> (0 <= b)%Q -> (0 <= Float.mul a b)%Q.
Proof. intros Ha Hb. by apply round_nonneg, Qmult_le_0_compat. Qed.

Lemma lit_nonneg (x : Q) : (0 <= x)%Q -> (0 <= Float.lit x)%Q.
Proof. apply round_nonneg. Qed.

(** X16.  When the logarithm is not negative on the positive integers and
    lower-casing does not lengthen the content of a candidate, the
    position bonus and the frequency bonus of the candidate lie in
    [0, 1], and so does its keyword score, which the code caps at 1 only. *)
Theorem keyword_scores_in_unit_interval (query : str) (results : list Chunk.t) :
  (forall p, 0 <= ln p)%Q ->
  (forall r, r ∈ results -> len (lower (content_of r)) <= len (content_of r)) ->
  (forall r keywords,
     r ∈ results ->
     (0 <= position_bonus keywords (content_of r) <= 1)%Q /\
     (0 <= frequency_bonus keywords (content_of r) <= 1)%Q) /\
  Forall (fun s => 0 <= s <= 1)%Q
    (Reranker._calculate_keyword_scores _extract_keywords position_bonus
       frequency_bonus query results).
Proof.
  intros Hln Hlower. split.
  - intros r keywords Hr.
    split; [by apply position_bonus_bounds, Hlower|by apply frequency_bonus_bounds].
  - unfold Reranker._calculate_keyword_scores.
    change (map ?f results) with (f <$> results).
    apply Forall_fmap, Forall_forall. intros r Hr. simpl.
    unfold Reranker.keyword_score_of.
    pose proof (position_bonus_bounds (_extract_keywords query) (content_of r)
                  (Hlower r Hr)) as Hp.
    pose proof (frequency_bonus_bounds (_extract_keywords query) (content_of r) Hln)
      as Hf.
    unfold content_of in Hp, Hf.
    split; [|eapply Qle_trans; [apply fmin_le_r|lra]].
    apply fmin_glb; [|lra].
    assert (0 <= match _extract_keywords query with
                 | [] => 0.0
                 | _ :: _ =>
                   Float.div_int
                     (Z.of_nat (size
                        (list_to_set (_extract_keywords query)
                         ∩ list_to_set (_extract_keywords (default [] (Chunk.content r)))
                         : gset str)))
                     (len (_extract_keywords query))
                 end)%Q as Hscore.
    { destruct (_extract_keywords query) as [|k ks] eqn:Ek; [lra|].
      apply round_nonneg, Qle_shift_div_l.
      - apply inject_Z_pos. rewrite len_cons. pose proof (len_nonneg ks). lia.
      - rewrite Qmult_0_l. apply inject_Z_nonneg. lia. }
    pose proof (mul_nonneg _ _ (proj1 Hp) (lit_nonneg 0.2 ltac:(done))) as Hpb.
    pose proof (mul_nonneg _ _ (proj1 Hf) (lit_nonneg 0.1 ltac:(done))) as Hfb.
    apply round_nonneg.
    match goal with
    | |- (0 <= Float.add ?a ?b + ?c)%Q =>
      assert (0 <= Float.add a b)%Q by (apply round_nonneg; lra)
    end.
    lra.
Qed.

End KeywordFacts.

Lemma len_ascii_lower (s : str) : len (ascii_lower s) = len s.
Proof. unfold ascii_lower, len. by rewrite length_map. Qed.

Lemma log2_floor_nonneg (p : positive) : (0 <= log2_floor p)%Q.
Proof. apply inject_Z_nonneg, Z.log2_nonneg. Qed.

(** The theorem at one candidate, with words split at white space. *)
Lemma keyword_scores_in_unit_interval_witness :
  Forall (fun s => 0 <= s <= 1)%Q
    (Reranker._calculate_keyword_scores split
       (RerankerScores._calculate_keyword_position_bonus ascii_lower)
       (RerankerScores._calculate_keyword_frequency_bonus ascii_lower log2_floor)
       (u8 "Alpha beta") [hit (u8 "the ALPHA and the beta") 1.0]).
Proof.
  apply (keyword_scores_in_unit_interval ascii_lower log2_floor split
           (u8 "Alpha beta") [hit (u8 "the ALPHA and the beta") 1.0]).
  - apply log2_floor_nonneg.
  - intros r _. rewrite len_ascii_lower. lia.
Defined.

Section PositionFacts.
Variable ln : positive -> Q.
Local Abbreviation page_of := (fun r : Chunk.t => default 1%positive (Chunk.page_num r)).
Local Abbreviation index_of := (fun r : Chunk.t => default 0%N (Chunk.chunk_index r)).

(** [1.0 / (1 + d)] for a [d] that is not negative. *)
Lemma recip_unit_interval (d : Q) :
  (0 <= d)%Q -> (0 < Float.div 1.0 (Float.add 1 d) <= 1)%Q.
Proof.
  intros Hd.
  assert (1 <= Float.add 1 d)%Q as H1 by (apply round_ge_float; [apply round_1|lra]).
  split.
  - apply round_positive, Qlt_shift_div_l; lra.
  - apply round_le_float; [apply round_1|]. apply Qle_shift_div_r; lra.
Qed.

Lemma recip_antitone (d d' : Q) :
  (0 <= d)%Q -> (d <= d')%Q ->
  (Float.div 1.0 (Float.add 1 d') <= Float.div 1.0 (Float.add 1 d))%Q.
Proof.
  intros Hd Hle.
  assert (1 <= Float.add 1 d)%Q as H1 by (apply round_ge_float; [apply round_1|lra]).
  assert (Float.add 1 d <= Float.add 1 d')%Q as H2 by (apply round_mono; lra).
  apply round_mono.
  set (e := Float.add 1 d) in *. set (e' := Float.add 1 d') in *. clearbody e e'.
  apply Qle_shift_div_l; [lra|].
  assert (1.0 / e' * e == e / e')%Q as -> by (field; lra).
  apply Qle_shift_div_r; lra.
Qed.

(** [(p + c) / 2] for two scores in (0, 1]. *)
Lemma mean_unit_interval (p c : Q) :
  (0 < p <= 1)%Q -> (0 < c <= 1)%Q -> (0 < Float.div (Float.add p c) 2 <= 1)%Q.
Proof.
  intros Hp Hc.
  assert (0 < Float.add p c <= 2)%Q as Hs.
  { split; [apply round_positive; lra|].
    apply round_le_float; [apply round_2|lra]. }
  split.
  - apply round_positive, Qlt_shift_div_l; lra.
  - apply round_le_float; [apply round_1|]. apply Qle_shift_div_r; lra.
Qed.

Lemma mean_mono (p p' c c' : Q) :
  (p' <= p)%Q -> (c' <= c)%Q ->
  (Float.div (Float.add p' c') 2 <= Float.div (Float.add p c) 2)%Q.
Proof.
  intros Hp Hc. apply div_mono_l; [done|]. apply round_mono. lra.
Qed.

Lemma index_share_mono (n n' : N) :
  (n <= n')%N ->
  (0 <= Float.mul (Float.of_int (Z.of_N n)) (Float.lit 0.1)
   <= Float.mul (Float.of_int (Z.of_N n')) (Float.lit 0.1))%Q.
Proof.
  intros Hle.
  pose proof (lit_nonneg 0.1 ltac:(done)) as Hlit.
  assert (0 <= Float.of_int (Z.of_N n))%Q as H0
    by (apply round_nonneg, inject_Z_nonneg; lia).
  assert (Float.of_int (Z.of_N n) <= Float.of_int (Z.of_N n'))%Q as H1
    by (apply round_mono; rewrite <- Zle_Qle; lia).
  split; [by apply mul_nonneg|].
  apply round_mono. by apply Qmult_le_compat_r.
Qed.

(** X17.  When the logarithm of a page number is not negative, the
    position score of a candidate is positive and at most 1; of two
    candidates on the same page the one with the smaller chunk index
    scores at least as high, and of two candidates with the same chunk
    index the one whose page number has the smaller logarithm scores at
    least as high. *)
Theorem position_score_bounds (r : Chunk.t) :
  (forall p, 0 <= ln p)%Q ->
  (0 < Reranker.position_score_of ln r <= 1)%Q /\
  (forall r',
     page_of r' = page_of r -> (index_of r <= index_of r')%N ->
     (Reranker.position_score_of ln r' <= Reranker.position_score_of ln r)%Q) /\
  (forall r',
     index_of r' = index_of r -> (ln (page_of r) <= ln (page_of r'))%Q ->
     (Reranker.position_score_of ln r' <= Reranker.position_score_of ln r)%Q).
Proof.
  intros Hln. unfold Reranker.position_score_of. cbn zeta.
  split; [|split].
  - apply mean_unit_interval.
    + apply recip_unit_interval, Hln.
    + apply recip_unit_interval, (index_share_mono _ _ (N.le_refl _)).
  - intros r' Hpage Hindex. rewrite Hpage.
    apply mean_mono; [apply Qle_refl|].
    destruct (index_share_mono _ _ Hindex) as [H0 H1].
    by apply recip_antitone.
  - intros r' Hindex Hpage. rewrite Hindex.
    apply mean_mono; [|apply Qle_refl].
    by apply recip_antitone.
Qed.

End PositionFacts.

(** The theorem at the first chunk of the first page, which scores 1. *)
Lemma position_score_bounds_witness :
  (0 < Reranker.position_score_of log2_floor (hit (u8 "x") 1.0) <= 1)%Q.
Proof.
  apply (position_score_bounds log2_floor (hit (u8 "x") 1.0)).
  apply log2_floor_nonneg.
Defined.

(* --------------------------------------------------------------------- *)
(** ** The hybrid retriever: BM25 search and retrieval                    *)
(* --------------------------------------------------------------------- *)

Lemma getitem_elem_of {A} (l : list A) (i : Z) (a : A) : getitem l i = Ok a -> a ∈ l.
Proof.
  unfold getitem. destruct (0 <=? _); [|done].
  destruct (l !! _) as [x|] eqn:E; [|done].
  intros [= <-]. by eapply list_elem_of_lookup_2.
Qed.

Section Bm25Facts.
Import HybridSearch.

Lemma bm25_collect_spec (scores : list Q) (chunks : list Chunk.t) (method : str)
    (top_indices : list Z) (results : list Chunk.t) :
  exists new,
    bm25_collect scores chunks method top_indices results = results ++ new /\
    (length new <= length top_indices)%nat /\
    Forall (fun r => exists score chunk,
                r = bm25_hit score method chunk /\ (0 < score)%Q /\ chunk ∈ chunks) new.
Proof.
  revert results. induction top_indices as [|idx rest IH]; intros results; simpl.
  { exists []. rewrite app_nil_r. split; [done|]. split; [done|constructor]. }
  destruct (getitem scores idx) as [score|e] eqn:Hs.
  2:{ exists []. rewrite app_nil_r. split; [done|]. split; [simpl; lia|constructor]. }
  destruct (Qltb 0 score) eqn:Hpos.
  - destruct (getitem chunks idx) as [chunk|e] eqn:Hc.
    2:{ exists []. rewrite app_nil_r. split; [done|]. split; [simpl; lia|constructor]. }
    destruct (IH (results ++ [bm25_hit score method chunk])) as (new & -> & Hlen & Hall).
    exists (bm25_hit score method chunk :: new).
    split; [by rewrite <- app_assoc|]. split; [simpl; lia|].
    constructor; [|done]. exists score, chunk.
    split; [done|]. split; [by apply Qltb_lt|by eapply getitem_elem_of].
  - destruct (IH results) as (new & -> & Hlen & Hall).
    exists new. split; [done|]. split; [lia|done].
Qed.

Lemma bm25_index_search_spec (index : option (list str -> result (list Q)))
    (chunks : list Chunk.t) (method : str) (query_tokens : list str) (top_k : Z)
    (results : list Chunk.t) :
  exists new,
    bm25_index_search index chunks method query_tokens top_k results = results ++ new /\
    (0 <= top_k -> len new <= top_k) /\
    Forall (fun r => exists score chunk,
                r = bm25_hit score method chunk /\ (0 < score)%Q /\ chunk ∈ chunks) new.
Proof.
  unfold bm25_index_search.
  assert (exists new : list Chunk.t, results = results ++ new /\
            (0 <= top_k -> len new <= top_k) /\
            Forall (fun r => exists score chunk,
              r = bm25_hit score method chunk /\ (0 < score)%Q /\ chunk ∈ chunks) new)
    as Hnone.
  { exists []. rewrite app_nil_r. split; [done|]. split; [done|constructor]. }
  destruct index as [get_scores|]; [|done].
  destruct (get_scores query_tokens) as [scores|e]; [|done].
  match goal with
  | |- context [bm25_collect _ _ _ ?top ?res] =>
    destruct (bm25_collect_spec scores chunks method top res) as (new & -> & Hlen & Hall);
    pose proof (fun H => len_slice_to_le top_k
      (sort_reverse_by (fun i => default 0%Q (scores !! Z.to_nat i)) (range (len scores))) H)
      as Htop
  end.
  exists new. split; [done|]. split; [|done].
  intros Hk. specialize (Htop Hk). unfold len in *. lia.
Qed.

(** X18.  The BM25 search returns stored chunks only, each with a score
    greater than zero and the mark of the index that found it, the hits of
    the text index before those of the image index; for a non-negative
    [top_k] it returns at most [top_k] hits from each index.  It returns
    nothing when [rank_bm25] is missing or the query has no token. *)
Theorem bm25_search_hits (_tokenize_text : str -> list str) (BM25_AVAILABLE : bool)
    (bm25_text_index bm25_image_index : option (list str -> result (list Q)))
    (text_chunks image_chunks : list Chunk.t)
    (query : str) (top_k : Z) (search_type : str) :
  let hits :=
    _bm25_search _tokenize_text BM25_AVAILABLE bm25_text_index bm25_image_index
      text_chunks image_chunks query top_k search_type in
  Forall (is_bm25_hit text_chunks image_chunks) hits /\
  (exists text_hits image_hits,
     hits = text_hits ++ image_hits /\
     Forall (fun r => Chunk.retrieval_method r = Some (u8 "bm25_text")) text_hits /\
     Forall (fun r => Chunk.retrieval_method r = Some (u8 "bm25_image")) image_hits /\
     (0 <= top_k -> len text_hits <= top_k /\ len image_hits <= top_k)) /\
  (BM25_AVAILABLE = false \/ _tokenize_text query = [] -> hits = []).
Proof.
  intros hits. unfold hits, _bm25_search.
  assert (forall P : Chunk.t -> Prop, Forall P []) as Hnil by constructor.
  assert (exists text_hits image_hits : list Chunk.t,
            [] = text_hits ++ image_hits /\
            Forall (fun r => Chunk.retrieval_method r = Some (u8 "bm25_text")) text_hits /\
            Forall (fun r => Chunk.retrieval_method r = Some (u8 "bm25_image")) image_hits /\
            (0 <= top_k -> len text_hits <= top_k /\ len image_hits <= top_k)) as Hempty.
  { exists [], []. split; [done|]. split; [done|]. split; [done|].
    unfold len. simpl. lia. }
  destruct BM25_AVAILABLE; cbn [negb]; [|by split; [|split]].
  destruct (_tokenize_text query) as [|t ts] eqn:Htokens; [by split; [|split]|].
  cbn zeta.
  set (text_part :=
    if decide (search_type ∈ [u8 "text"; u8 "both"])
    then bm25_index_search bm25_text_index text_chunks (u8 "bm25_text") (t :: ts) top_k []
    else []).
  assert (Forall (fun r => exists score chunk,
            r = bm25_hit score (u8 "bm25_text") chunk /\ (0 < score)%Q /\
            chunk ∈ text_chunks) text_part /\
          (0 <= top_k -> len text_part <= top_k)) as [Htext Htext_len].
  { unfold text_part. case_decide; [|split; [done|unfold len; simpl; lia]].
    destruct (bm25_index_search_spec bm25_text_index text_chunks (u8 "bm25_text")
                (t :: ts) top_k []) as (new & -> & Hlen & Hall).
    by split. }
  assert (exists image_part,
    (if decide (search_type ∈ [u8 "image"; u8 "both"])
     then bm25_index_search bm25_image_index image_chunks (u8 "bm25_image")
            (t :: ts) top_k text_part
     else text_part) = text_part ++ image_part /\
    (0 <= top_k -> len image_part <= top_k) /\
    Forall (fun r => exists score chunk,
              r = bm25_hit score (u8 "bm25_image") chunk /\ (0 < score)%Q /\
              chunk ∈ image_chunks) image_part) as (image_part & -> & Himage_len & Himage).
  { case_decide.
    - apply bm25_index_search_spec.
    - exists []. rewrite app_nil_r. split; [done|]. split; [|done].
      unfold len. simpl. lia. }
  split; [|split].
  - apply Forall_app. split.
    + eapply Forall_impl; [exact Htext|].
      intros r (score & chunk & -> & Hpos & Hin). exists score, (u8 "bm25_text"), chunk.
      split; [done|]. split; [done|]. left. by split.
    + eapply Forall_impl; [exact Himage|].
      intros r (score & chunk & -> & Hpos & Hin). exists score, (u8 "bm25_image"), chunk.
      split; [done|]. split; [done|]. right. by split.
  - exists text_part, image_part. split; [done|].
    split; [eapply Forall_impl; [exact Htext|]; by intros r (? & ? & -> & _)|].
    split; [eapply Forall_impl; [exact Himage|]; by intros r (? & ? & -> & _)|].
    intros Hk. split; [by apply Htext_len|by apply Himage_len].
  - intros [?|?]; done.
Qed.

End Bm25Facts.

Section RetrieveFacts.
Import HybridSearch.
Variable hash : str -> Z.
Variable _tokenize_text : str -> list str.
Variable BM25_AVAILABLE : bool.
Variable bm25_text_index bm25_image_index : option (list str -> result (list Q)).
Variable text_chunks image_chunks : list Chunk.t.
Variable vector_store_search :
  str -> Z -> str -> Q -> result (list (option str * Chunk.t)).
Variable rerank_model : option (str -> str -> option Q).
Variable ln : positive -> Q.
Variable _extract_keywords : str -> list str.
Variable _calculate_keyword_position_bonus : list str -> str -> Q.
Variable _calculate_keyword_frequency_bonus : list str -> str -> Q.
Variable config : Config.
Local Abbreviation content_key := (MergeSpec.content_key hash).
Local Abbreviation dedup_from := (MergeSpec.dedup_from hash).
Local Abbreviation bm25_search :=
  (_bm25_search _tokenize_text BM25_AVAILABLE bm25_text_index bm25_image_index
     text_chunks image_chunks).
Local Abbreviation vector_search := (_vector_search vector_store_search config).
Local Abbreviation retrieve' :=
  (retrieve hash _tokenize_text BM25_AVAILABLE bm25_text_index bm25_image_index
     text_chunks image_chunks vector_store_search rerank_model ln _extract_keywords
     _calculate_keyword_position_bonus _calculate_keyword_frequency_bonus config).
Local Abbreviation scored :=
  (RerankSpec.scored rerank_model ln _extract_keywords
     _calculate_keyword_position_bonus _calculate_keyword_frequency_bonus).

Lemma dedup_from_fresh (seen : gset Z) (l : list Chunk.t) (r : Chunk.t) :
  r ∈ dedup_from seen l -> content_key r ∉ seen.
Proof.
  revert seen. induction l as [|x l IH]; intros seen; simpl.
  { by intros ?%elem_of_nil. }
  case_decide as Hx; [apply IH|].
  intros [->|Hr]%elem_of_cons; [done|]. apply IH in Hr. set_solver.
Qed.

Lemma dedup_from_NoDup (seen : gset Z) (l : list Chunk.t) :
  NoDup (content_key <$> dedup_from seen l).
Proof.
  revert seen. induction l as [|x l IH]; intros seen; simpl; [constructor|].
  case_decide as Hx; [apply IH|].
  rewrite fmap_cons. constructor; [|apply IH].
  intros (r & Heq & Hr)%list_elem_of_fmap.
  apply dedup_from_fresh in Hr. set_solver.
Qed.

Lemma slice_to_sublist {A} (k : Z) (l : list A) : slice_to k l `sublist_of` l.
Proof. unfold slice_to. destruct (0 <=? k); apply sublist_take. Qed.

(** The merged hits: distinct content hashes, contents and retrieval
    scores of the hits that went in. *)
Lemma merge_results_from (hits : list Chunk.t) :
  NoDup (content_key <$> HybridRetriever._merge_results hash hits) /\
  forall r, r ∈ HybridRetriever._merge_results hash hits ->
    exists h, h ∈ hits /\ r = with_combined_score h.
Proof.
  rewrite merge_results_unfold. split; [apply dedup_from_NoDup|].
  intros r Hr. eapply elem_of_sublist in Hr; [|apply dedup_from_sublist].
  rewrite sort_reverse_by_perm in Hr.
  apply list_elem_of_fmap in Hr as (h & -> & Hh). by exists h.
Qed.

Lemma rerank_from (query : str) (results : list Chunk.t) :
  rerank rerank_model ln _extract_keywords _calculate_keyword_position_bonus
    _calculate_keyword_frequency_bonus query results
  ≡ₚ scored query results <$> results.
Proof. unfold rerank. rewrite rerank_unfold. apply sort_reverse_by_perm. Qed.

(** X19.  A retrieval returns, for a non-negative [top_k], at most [top_k]
    results.  No two of them have contents with the same hash, and each
    carries the content and the retrieval score of a hit of the BM25 or
    the vector search.  With reranking the results stand in descending
    order of their rerank score, without it they are the first [top_k]
    merged hits. *)
Theorem retrieve_returns_distinct_top_k (query : str) (top_k : option Z)
    (search_type : str) (enable_rerank : bool) :
  let k := effective_top_k config top_k in
  let hits := bm25_search query (k * 2) search_type
              ++ vector_search query (k * 2) search_type in
  let results := retrieve' query top_k search_type enable_rerank in
  (0 <= k -> len results <= k) /\
  NoDup (content_key <$> results) /\
  (forall r, r ∈ results ->
     exists h, h ∈ hits /\ Chunk.content r = Chunk.content h /\
               Chunk.score r = Chunk.score h /\
               Chunk.retrieval_method r = Chunk.retrieval_method h) /\
  (enable_rerank = true ->
   StronglySorted (SortSpec.descending rerank_key) results) /\
  (enable_rerank = false ->
   results = slice_to k (HybridRetriever._merge_results hash hits)).
Proof.
  intros k hits results. unfold results, retrieve. fold (effective_top_k config top_k).
  fold k. cbn [app]. fold hits.
  destruct (merge_results_from hits) as [Hnd Hfrom].
  set (merged := HybridRetriever._merge_results hash hits) in *.
  set (final :=
    match enable_rerank, merged with
    | true, _ :: _ =>
      rerank rerank_model ln _extract_keywords _calculate_keyword_position_bonus
        _calculate_keyword_frequency_bonus query
        (slice_to (default (Z.min (k * 2) (len merged)) (rerank_top_k config)) merged)
    | _, _ => merged
    end).
  assert (NoDup (content_key <$> final) /\
          (forall r, r ∈ final ->
             exists h, h ∈ hits /\ Chunk.content r = Chunk.content h /\
                       Chunk.score r = Chunk.score h /\
                       Chunk.retrieval_method r = Chunk.retrieval_method h) /\
          (enable_rerank = true -> StronglySorted (SortSpec.descending rerank_key) final) /\
          (enable_rerank = false -> final = merged)) as (Hfinal_nd & Hfinal_from & Hsorted & Hplain).
  { assert (forall r, r ∈ merged ->
              exists h, h ∈ hits /\ Chunk.content r = Chunk.content h /\
                        Chunk.score r = Chunk.score h /\
                        Chunk.retrieval_method r = Chunk.retrieval_method h) as Hmerged.
    { intros r (h & Hh & ->)%Hfrom. by exists h. }
    unfold final. destruct enable_rerank.
    2:{ split; [done|]. split; [done|]. by split. }
    destruct merged as [|m ms] eqn:Em.
    { split; [done|]. split; [done|]. split; [constructor|done]. }
    rewrite <- Em in *.
    set (top := slice_to _ merged).
    assert (top `sublist_of` merged) as Htop by apply slice_to_sublist.
    split; [|split; [|split; [|done]]].
    - rewrite rerank_from, <- list_fmap_compose.
      eapply sublist_NoDup; [exact Hnd|].
      change (content_key ∘ scored query top <$> top) with (content_key <$> top).
      by apply fmap_sublist.
    - intros r. rewrite rerank_from. intros (r0 & -> & Hr0)%list_elem_of_fmap.
      eapply elem_of_sublist in Hr0; [|exact Htop].
      destruct (Hmerged r0 Hr0) as (h & Hh & Hc & Hs & Hm). by exists h.
    - intros _. unfold rerank. rewrite rerank_unfold. apply sort_reverse_by_sorted. }
  split; [by apply len_slice_to_le|].
  split; [eapply sublist_NoDup; [exact Hfinal_nd|]; apply fmap_sublist, slice_to_sublist|].
  split.
  { intros r Hr. apply Hfinal_from. eapply elem_of_sublist; [done|apply slice_to_sublist]. }
  split.
  - intros Hr. eapply StronglySorted_sublist; [apply slice_to_sublist|by apply Hsorted].
  - intros Hr. by rewrite (Hplain Hr).
Qed.

End RetrieveFacts.

(* --------------------------------------------------------------------- *)
(** ** The query processor                                                *)
(* --------------------------------------------------------------------- *)

Example process_simple_question :
  match
    IntelligentQueryProcessor.process_query nat retrieve_one None (fun _ _ => [])
      IntelligentQueryProcessor.default_config 0%nat (u8 "比较A和B的优缺点")
  with
  | Some (calls, Ok outcome) =>
    calls = 1%nat /\
    IntelligentQueryProcessor.query_type outcome = u8 "simple" /\
    IntelligentQueryProcessor.answer outcome = u8 "about 比较A和B的优缺点"
  | _ => False
  end.
Proof. by vm_compute. Qed.

Section CombinationFacts.
Import IntelligentQueryProcessor.

Lemma combination_step_spec (contents : list str) (result : Chunk.t) :
  Forall (fun p => p <> [] /\ len p <= 300) contents ->
  Forall (fun p => p <> [] /\ len p <= 300) (combination_step contents result) /\
  (length (combination_step contents result) <= S (length contents))%nat.
Proof.
  intros Hall. unfold combination_step.
  destruct (default [] (Chunk.content result)) as [|c content]; [split; [done|lia]|].
  destruct (strip (slice_to 300 (c :: content))) as [|c' content'] eqn:Hs;
    [split; [done|lia]|].
  case_decide; [|split; [done|lia]].
  split; [|rewrite length_app; simpl; lia].
  apply Forall_app. split; [done|]. constructor; [|constructor].
  split; [done|]. rewrite <- Hs.
  pose proof (len_strip (slice_to 300 (c :: content))).
  pose proof (len_slice_to_le 300 (c :: content)). lia.
Qed.

Lemma foldl_combination_step (results : list Chunk.t) (contents : list str) :
  Forall (fun p => p <> [] /\ len p <= 300) contents ->
  Forall (fun p => p <> [] /\ len p <= 300) (foldl combination_step contents results) /\
  (length (foldl combination_step contents results)
   <= length contents + length results)%nat.
Proof.
  revert contents. induction results as [|r results IH]; intros contents Hall; simpl.
  { split; [done|lia]. }
  destruct (combination_step_spec contents r Hall) as [Hall' Hlen'].
  destruct (IH _ Hall') as [Hall'' Hlen'']. split; [done|lia].
Qed.

(** The plain combination of results: at most five stripped excerpts of
    at most 300 characters each, a blank line between them, or a fixed
    apology. *)
Lemma simple_result_combination_spec (results : list Chunk.t) :
  _simple_result_combination results <> [] /\
  len (_simple_result_combination results) <= 1508.
Proof.
  unfold _simple_result_combination.
  destruct results as [|r0 rs] eqn:E; [by vm_compute|]. rewrite <- E. clear E.
  destruct (foldl_combination_step (slice_to 5 results) []) as [Hall Hlen];
    [constructor|].
  pose proof (length_slice_to_le 5 results) as Hfive.
  destruct (foldl combination_step [] (slice_to 5 results)) as [|p ps] eqn:E;
    [by vm_compute|].
  rewrite <- E in *. split.
  - apply join_nonempty; [by rewrite E|].
    eapply Forall_impl; [exact Hall|]. by intros ? [? _].
  - pose proof (len_join_le [10; 10]%N 300
                  (foldl combination_step [] (slice_to 5 results))) as Hjoin.
    change (len [10; 10]%N) with 2 in Hjoin.
    assert (foldl combination_step [] (slice_to 5 results) <> []) as Hne
      by (by rewrite E).
    assert (Forall (fun p => len p <= 300)
              (foldl combination_step [] (slice_to 5 results))) as Hbound.
    { eapply Forall_impl; [exact Hall|]. by intros ? [_ ?]. }
    specialize (Hjoin Hne Hbound). simpl in Hlen.
    assert ((length (foldl combination_step [] (slice_to 5 results)) <= 5)%nat) as Hle
      by lia.
    apply Nat2Z.inj_le in Hle. unfold str in *. lia.
Qed.

(** X20.  The plain combination of results, which answers a decomposed
    question when synthesis is off or fewer than two steps have results,
    is never empty and never longer than 1508 characters: at most five
    stripped excerpts of at most 300 characters each, a blank line between
    them, or a fixed apology. *)
Theorem simple_result_combination_bounds (results : list Chunk.t) :
  _simple_result_combination results <> [] /\
  len (_simple_result_combination results) <= 1508.
Proof. apply simple_result_combination_spec. Qed.

End CombinationFacts.

Lemma Ok_inj {A} (a b : A) : Ok a = Ok b -> a = b.
Proof. by intros [= ->]. Qed.

Section ProcessorFacts.
Import IntelligentQueryProcessor.
Variable Retriever : Type.
Variable retrieve : Retriever -> str -> Retriever * result (list Chunk.t).
Variable _llm_generate_simple_answer : str -> list Chunk.t -> str.
Local Abbreviation execute_steps' :=
  (MultiStepQueryExecutor.execute_steps Retriever retrieve executor_config).
Local Abbreviation execute_step' :=
  (MultiStepQueryExecutor.execute_step Retriever retrieve executor_config).

(** The retriever the executor leaves behind is the one of its final
    state. *)
Lemma retriever_after_steps_ok (decomposition : DecompositionResult.t)
    (steps : list (Z * Z)) (st st' : MultiStepQueryExecutor.State Retriever) :
  execute_steps' decomposition steps st = Ok st' ->
  retriever_after_steps Retriever retrieve decomposition steps st =
  MultiStepQueryExecutor.retriever st'.
Proof.
  revert st. induction steps as [|s steps IH]; intros st;
    cbn [MultiStepQueryExecutor.execute_steps retriever_after_steps].
  { by intros [= <-]. }
  destruct (execute_step' decomposition st s) as [st1|e]; cbn [bind]; [apply IH|done].
Qed.

Section WithModel.
Variable llm : option Model.
Variable config : Config.
Local Abbreviation simple :=
  (_process_simple_query Retriever retrieve llm _llm_generate_simple_answer).
Local Abbreviation complex :=
  (_process_complex_query Retriever retrieve llm _llm_generate_simple_answer config).
Local Abbreviation process_query_try' :=
  (process_query_try Retriever retrieve llm _llm_generate_simple_answer config).
Local Abbreviation process_query' :=
  (process_query Retriever retrieve llm _llm_generate_simple_answer config).
Local Abbreviation decompose :=
  (IntelligentQueryDecomposer.analyze_and_decompose (decomposer_llm llm)
     (decomposer_config config)).

Lemma process_query_try_returns (r : Retriever) (query : str) :
  exists r' res,
    process_query_try' r query = Some (r', res) /\
    ((r', res) = simple r query \/
     exists decomposition,
       decompose query = Some decomposition /\
       QueryIntent.requires_decomposition (DecompositionResult.intent decomposition)
         = true /\
       1 < len (DecompositionResult.sub_queries decomposition) /\
       (r', res) = complex r query decomposition).
Proof.
  unfold process_query_try.
  destruct (enable_decomposition config).
  2:{ destruct (simple r query) as [r' res] eqn:E. exists r', res. split; [done|by left]. }
  destruct (analyze_and_decompose_returns (decomposer_llm llm) (decomposer_config config)
              query) as [decomposition ->].
  destruct (QueryIntent.requires_decomposition _) eqn:Hreq; cbn [andb].
  2:{ destruct (simple r query) as [r' res] eqn:E. exists r', res. split; [done|by left]. }
  destruct (Z.ltb_spec 1 (len (DecompositionResult.sub_queries decomposition))).
  2:{ destruct (simple r query) as [r' res] eqn:E. exists r', res. split; [done|by left]. }
  destruct (complex r query decomposition) as [r' res] eqn:E.
  exists r', res. split; [done|]. right. by exists decomposition.
Qed.

Lemma simple_answers (r : Retriever) (query : str) :
  retriever_answers retrieve ->
  exists r' hits,
    retrieve r query = (r', Ok hits) /\
    simple r query =
      (r', Ok (mkOutcome
                 (ResultSynthesizer._generate_simple_answer (synthesizer_llm llm)
                    _llm_generate_simple_answer query hits)
                 (u8 "simple") (Some query) (Some None)
                 [mkSubQueryInfo query (u8 "simple") 1 (len hits)]
                 (Some [0]) hits
                 (mkProcessingInfo (Some false) (Some false) (Some 1) (Some (len hits))
                    None None))).
Proof.
  intros Hanswers. destruct (Hanswers r query) as (r' & hits & Hret).
  exists r', hits. split; [done|]. unfold _process_simple_query. by rewrite Hret.
Qed.

Lemma simple_fails (r : Retriever) (query : str) :
  retriever_fails retrieve -> exists r' e, simple r query = (r', Raise e).
Proof.
  intros Hfails. destruct (Hfails r query) as (r' & e & Hret).
  exists r', e. unfold _process_simple_query. by rewrite Hret.
Qed.

(** The outcome of the [try] block, passed through the handler. *)
Lemma process_query_of_try (r r1 : Retriever) (query : str) (outcome : Outcome) :
  process_query_try' r query = Some (r1, Ok outcome) ->
  process_query' r query = Some (r1, Ok outcome).
Proof. unfold process_query. by intros ->. Qed.

End WithModel.

Lemma elem_of_range (n x : Z) : x ∈ range n <-> 0 <= x < n.
Proof. unfold range. rewrite elem_of_seqZ. lia. Qed.

(** Without a language model no step of the pipeline raises when the
    retriever does not, and every text it can end in is not empty. *)
Lemma process_query_try_without_model (config : Config) (r : Retriever) (query : str) :
  retriever_answers retrieve ->
  exists r' outcome,
    process_query_try Retriever retrieve None _llm_generate_simple_answer config r query
      = Some (r', Ok outcome) /\
    answer outcome <> [] /\
    (query_type outcome = u8 "simple" \/ query_type outcome = u8 "complex").
Proof.
  intros Hanswers.
  destruct (process_query_try_returns None config r query)
    as (r1 & res & Htry & [Hsimple|(decomposition & Hdec & _ & _ & Hcomplex)]).
  - destruct (simple_answers None r query Hanswers) as (r' & hits & _ & Heq).
    rewrite Heq in Hsimple. injection Hsimple as -> ->.
    eexists _, _. split; [exact Htry|]. split; [|by left].
    cbn [answer]. unfold ResultSynthesizer._generate_simple_answer.
    destruct hits; [done|]. apply rule_generate_simple_answer_spec.
  - destruct (analyze_and_decompose_rules (decomposer_config config) query)
      as (d & Hd & _ & _ & Hplan).
    cbn [decomposer_llm fmap option_fmap option_map] in Hdec.
    rewrite Hd in Hdec. injection Hdec as ->.
    unfold _process_complex_query in Hcomplex. injection Hcomplex as -> ->.
    unfold MultiStepQueryExecutor.execute_decomposed_query in *.
    destruct (execute_steps_ok Retriever retrieve executor_config decomposition
                (enumerate (DecompositionResult.execution_plan decomposition))
                (MultiStepQueryExecutor.mkState r ∅ [])) as [final Hfinal].
    { intros [i idx] Hin. unfold enumerate in Hin. apply elem_of_zip_r in Hin.
      rewrite Hplan in Hin. apply elem_of_range in Hin.
      pose proof (len_nonneg (DecompositionResult.sub_queries decomposition)).
      simpl. lia. }
    rewrite Hfinal in Htry. cbn [bind] in Htry.
    assert (keys_index decomposition
              (MultiStepQueryExecutor.entry_results
                 <$> MultiStepQueryExecutor.execution_context final)) as Hkeys.
    { intros k Hk. rewrite lookup_fmap, fmap_is_Some in Hk.
      apply (execute_steps_context_keys Retriever retrieve executor_config
               decomposition _ _ _ Hfinal); [|done].
      intros k' Hk'. simpl in Hk'. rewrite lookup_empty in Hk'. by destruct Hk'. }
    destruct (synthesize_results_nonempty synthesizer_config
                _llm_generate_simple_answer query decomposition _ Hkeys)
      as (synthesis & Hsynthesis & Hne).
    cbn [synthesizer_llm fmap option_fmap option_map] in Htry.
    rewrite Hsynthesis in Htry.
    destruct (enable_synthesis config && _) eqn:Hbranch; cbn [bind] in Htry.
    + eexists _, _. split; [exact Htry|]. split; [done|by right].
    + eexists _, _. split; [exact Htry|]. split; [|by right].
      apply simple_result_combination_spec.
Qed.

(** X21.  With a retriever that always returns its hits, the processor
    returns an outcome for every question and never raises, whatever the
    language model replies; when [fallback_to_simple] is on, the outcome
    is never the error record; and without a language model the outcome is
    that of the single-step or of the multi-step path and its answer is
    not empty. *)
Theorem process_query_returns (llm : option Model) (config : Config) (r : Retriever)
    (query : str) :
  retriever_answers retrieve ->
  exists r' outcome,
    process_query Retriever retrieve llm _llm_generate_simple_answer config r query
      = Some (r', Ok outcome) /\
    (fallback_to_simple config = true -> query_type outcome <> u8 "error") /\
    (llm = None ->
     answer outcome <> [] /\
     (query_type outcome = u8 "simple" \/ query_type outcome = u8 "complex")).
Proof.
  intros Hanswers.
  destruct llm as [model|].
  2:{ destruct (process_query_try_without_model config r query Hanswers)
        as (r' & outcome & Htry & Hne & Htype).
      exists r', outcome. split; [by apply process_query_of_try|].
      split; [|done]. intros _. by destruct Htype as [-> | ->]. }
  unfold process_query.
  destruct (process_query_try_returns (Some model) config r query)
    as (r1 & res & -> & Hpath).
  destruct res as [outcome|e].
  - exists r1, outcome. split; [done|]. split; [|done]. intros _.
    destruct Hpath as [Hsimple|(decomposition & _ & _ & _ & Hcomplex)].
    + destruct (simple_answers (Some model) r query Hanswers) as (r' & hits & _ & Heq).
      rewrite Heq in Hsimple. by injection Hsimple as _ ->.
    + unfold _process_complex_query in Hcomplex.
      injection Hcomplex as _ Hres.
      destruct (MultiStepQueryExecutor.execute_decomposed_query _ _ _ _ _)
        as [[executor all_results]|e]; cbn [bind] in Hres; [|done].
      match type of Hres with
      | _ = bind ?m _ => destruct m as [answer|e]; cbn [bind] in Hres; [|done]
      end.
      by injection Hres as ->.
  - destruct (fallback_to_simple config).
    + destruct (simple_answers (Some model) r1 query Hanswers) as (r' & hits & _ & ->).
      eexists _, _. split; [done|]. split; [by intros _|done].
    + eexists _, _. split; [done|]. split; [by intros|done].
Qed.

(** With a retriever that always raises no step is recorded. *)
Lemma execute_steps_all_fail (decomposition : DecompositionResult.t)
    (steps : list (Z * Z)) (st st' : MultiStepQueryExecutor.State Retriever) :
  retriever_fails retrieve ->
  execute_steps' decomposition steps st = Ok st' ->
  MultiStepQueryExecutor.execution_context st'
    = MultiStepQueryExecutor.execution_context st /\
  MultiStepQueryExecutor.accumulated_results st'
    = MultiStepQueryExecutor.accumulated_results st.
Proof.
  intros Hfails. revert st.
  induction steps as [|[step query_idx] steps IH]; intros st;
    cbn [MultiStepQueryExecutor.execute_steps].
  { by intros [= <-]. }
  destruct (execute_step' decomposition st (step, query_idx)) as [st1|e] eqn:Hstep;
    cbn [bind]; [|done].
  intros Hrun. destruct (IH st1 Hrun) as [-> ->].
  unfold MultiStepQueryExecutor.execute_step in Hstep.
  destruct (_ <=? query_idx); [by injection Hstep as <-|].
  destruct (getitem _ query_idx) as [sub_query|e]; [|done]. simpl in Hstep.
  match type of Hstep with
  | context [retrieve ?r ?q] => destruct (Hfails r q) as (r' & e & Hret)
  end.
  rewrite Hret in Hstep. simpl in Hstep. by injection Hstep as <-.
Qed.

(** X22.  With a retriever that always raises, a question that is
    processed in several steps is answered with the apology, as a
    [complex] outcome without chunks: the executor has swallowed every
    failure.  Any other question, and a plan with an unusable index, ends
    in the handler of the processor: when [fallback_to_simple] is on the
    handler retrieves once more and the call raises, when it is off the
    call returns the error record. *)
Theorem process_query_with_failing_retriever (llm : option Model) (config : Config)
    (r : Retriever) (query : str) :
  retriever_fails retrieve ->
  exists r' res,
    process_query Retriever retrieve llm _llm_generate_simple_answer config r query
      = Some (r', res) /\
    match res with
    | Ok outcome =>
      query_type outcome = u8 "complex" /\
      answer outcome = u8 "抱歉，没有找到相关信息。" /\
      retrieved_chunks outcome = [] \/
      query_type outcome = u8 "error" /\ fallback_to_simple config = false /\
      exists e, answer outcome = u8 "查询处理过程中出现错误: " ++ str_of_exn e
    | Raise e => fallback_to_simple config = true
    end.
Proof.
  intros Hfails. unfold process_query.
  destruct (process_query_try_returns llm config r query) as (r1 & res & -> & Hpath).
  assert (forall e,
    exists r' res',
      (if fallback_to_simple config
       then Some (_process_simple_query Retriever retrieve llm
                    _llm_generate_simple_answer r1 query)
       else Some (r1, Ok (mkOutcome (u8 "查询处理过程中出现错误: " ++ str_of_exn e)
                            (u8 "error") None None [] None []
                            (mkProcessingInfo None None None None (Some (str_of_exn e))
                               (Some false))))) = Some (r', res') /\
      match res' with
      | Ok outcome =>
        query_type outcome = u8 "complex" /\
        answer outcome = u8 "抱歉，没有找到相关信息。" /\
        retrieved_chunks outcome = [] \/
        query_type outcome = u8 "error" /\ fallback_to_simple config = false /\
        exists e, answer outcome = u8 "查询处理过程中出现错误: " ++ str_of_exn e
      | Raise e => fallback_to_simple config = true
      end) as Hhandler.
  { intros e. destruct (fallback_to_simple config) eqn:Hfb.
    - destruct (simple_fails llm r1 query Hfails) as (r' & e' & ->).
      by exists r', (Raise e').
    - eexists _, _. split; [done|]. right. split; [done|]. split; [done|]. by exists e. }
  destruct res as [outcome|e]; [|apply Hhandler].
  exists r1, (Ok outcome). split; [done|].
  destruct Hpath as [Hsimple|(decomposition & _ & _ & _ & Hcomplex)].
  { destruct (simple_fails llm r query Hfails) as (r' & e' & Heq).
    rewrite Heq in Hsimple. by injection Hsimple. }
  left. unfold _process_complex_query in Hcomplex. injection Hcomplex as _ Hres.
  unfold MultiStepQueryExecutor.execute_decomposed_query in Hres.
  destruct (execute_steps' decomposition _ _) as [final|e] eqn:Hfinal;
    cbn [bind] in Hres; [|done].
  destruct (execute_steps_all_fail _ _ _ _ Hfails Hfinal) as [Hctx Hacc].
  simpl in Hctx, Hacc. rewrite Hctx, Hacc, !fmap_empty, map_size_empty in Hres.
  rewrite andb_false_r in Hres. cbn [bind] in Hres.
  apply Ok_inj in Hres. rewrite Hres. cbn [query_type answer retrieved_chunks].
  split; [done|]. split; [done|].
  unfold MultiStepQueryExecutor._fuse_results, executor_config. by cbn.
Qed.

(** X23.  When decomposition is switched off, and when there is no
    language model and the complexity sum of the question is below the
    threshold, the processor answers from one retrieval with the question
    itself: the outcome is of type [simple], holds the hits of that
    retrieval and the direct answer written from them. *)
Theorem simple_question_takes_one_retrieval (llm : option Model) (config : Config)
    (r r' : Retriever) (query : str) (hits : list Chunk.t) :
  enable_decomposition config = false \/
  llm = None /\
  (IntelligentQueryDecomposer.raw_complexity_score query
   < decomposition_threshold config)%Q ->
  retrieve r query = (r', Ok hits) ->
  exists outcome,
    process_query Retriever retrieve llm _llm_generate_simple_answer config r query
      = Some (r', Ok outcome) /\
    query_type outcome = u8 "simple" /\
    retrieved_chunks outcome = hits /\
    answer outcome =
      ResultSynthesizer._generate_simple_answer (synthesizer_llm llm)
        _llm_generate_simple_answer query hits /\
    execution_plan outcome = Some [0].
Proof.
  intros Hsimple Hret.
  assert (process_query_try Retriever retrieve llm _llm_generate_simple_answer config
            r query
          = Some (_process_simple_query Retriever retrieve llm
                    _llm_generate_simple_answer r query)) as Htry.
  { unfold process_query_try.
    destruct Hsimple as [->|[-> Hlow]]; [done|].
    destruct (enable_decomposition config); [|done].
    destruct (analyze_and_decompose_returns None (decomposer_config config) query)
      as [decomposition Hdec].
    cbn [decomposer_llm fmap option_fmap option_map]. rewrite Hdec.
    assert (QueryIntent.requires_decomposition
              (DecompositionResult.intent decomposition) = false) as ->; [|done].
    pose proof (below_threshold_not_decomposed (decomposer_config config) query Hlow)
      as Hreq.
    unfold IntelligentQueryDecomposer.analyze_and_decompose in Hdec.
    rewrite Hreq in Hdec. cbn [negb] in Hdec. by injection Hdec as <-. }
  unfold process_query. rewrite Htry. unfold _process_simple_query. rewrite Hret.
  cbn [bind]. by eexists.
Qed.

End ProcessorFacts.

(** The theorem at a question below the threshold. *)
Lemma simple_question_takes_one_retrieval_witness :
  exists outcome,
    IntelligentQueryProcessor.process_query nat retrieve_one None (fun _ _ => [])
      IntelligentQueryProcessor.default_config 0%nat (u8 "比较A和B的优缺点")
      = Some (1%nat, Ok outcome) /\
    IntelligentQueryProcessor.query_type outcome = u8 "simple".
Proof.
  destruct (simple_question_takes_one_retrieval nat retrieve_one (fun _ _ => []) None
              IntelligentQueryProcessor.default_config 0%nat 1%nat
              (u8 "比较A和B的优缺点") [hit (u8 "about " ++ u8 "比较A和B的优缺点") 1.0])
    as (outcome & Hrun & Htype & _).
  - right. split; [reflexivity|]. by vm_compute.
  - reflexivity.
  - exists outcome. split; [exact Hrun|exact Htype].
Defined.

Lemma retrieve_one_answers : retriever_answers retrieve_one.
Proof. intros r query. by eexists _, _. Qed.

Lemma retrieve_down_fails : retriever_fails retrieve_down.
Proof. intros r query. by eexists _, _. Qed.

(** The theorem at a retriever that finds one hit for every query and a
    question the rules decompose. *)
Lemma process_query_returns_witness :
  exists calls outcome,
    IntelligentQueryProcessor.process_query nat retrieve_one None (fun _ _ => [])
      IntelligentQueryProcessor.default_config 0%nat
      (u8 "比较分析 Python 与 Java 的性能差异 以及 原因和影响")
      = Some (calls, Ok outcome) /\
    IntelligentQueryProcessor.answer outcome <> [].
Proof.
  destruct (process_query_returns nat retrieve_one (fun _ _ => []) None
              IntelligentQueryProcessor.default_config 0%nat
              (u8 "比较分析 Python 与 Java 的性能差异 以及 原因和影响")
              retrieve_one_answers) as (calls & outcome & Hrun & _ & Hplain).
  exists calls, outcome. split; [exact Hrun|]. by apply Hplain.
Defined.

(** The theorem at a retriever whose backend is down, with the fallback
    switched off. *)
Lemma process_query_with_failing_retriever_witness :
  exists calls res,
    IntelligentQueryProcessor.process_query nat retrieve_down None (fun _ _ => [])
      (IntelligentQueryProcessor.mkConfig true 6.0 5 true false) 0%nat (u8 "Q")
      = Some (calls, res).
Proof.
  destruct (process_query_with_failing_retriever nat retrieve_down (fun _ _ => []) None
              (IntelligentQueryProcessor.mkConfig true 6.0 5 true false) 0%nat (u8 "Q")
              retrieve_down_fails) as (calls & res & Hrun & _).
  by exists calls, res.
Defined.

Example decomposed_question_with_failing_retriever :
  match
    IntelligentQueryProcessor.process_query nat retrieve_down None (fun _ _ => [])
      IntelligentQueryProcessor.default_config 0%nat
      (u8 "比较分析 Python 与 Java 的性能差异 以及 原因和影响")
  with
  | Some (calls, Ok outcome) =>
    calls = 3%nat /\
    IntelligentQueryProcessor.query_type outcome = u8 "complex" /\
    IntelligentQueryProcessor.answer outcome = u8 "抱歉，没有找到相关信息。"
  | _ => False
  end.
Proof. by vm_compute. Qed.
